(** * Multi-agent chat: the three-stage pipeline of [handleSubmit]

    A shallow embedding of [src/index.tsx].  The component [App] keeps the
    conversation in React state ([messages], [isLoading], [loadingStatus]);
    [handleSubmit] is an async function that fans a query out to four
    agents, lets each agent refine its answer against the other three and
    asks a synthesizer for the final answer.

    JavaScript strings are sequences of UTF-16 code units and are modelled
    as [list N]; [undefined] is [None].  An async invocation of
    [handleSubmit] is modelled by its continuation at each [await]: the
    environment delivers the settlement of the pending calls one at a time,
    in any order, and the handler is resumed when [Promise.all] or the
    awaited promise settles.  Every step reports the requests it issues and
    the settlements it observes.

    The construction of the SDK client (line 103) is inside the [try]
    block: whether it returns a client or throws is given with the submit
    event.  The SDK's [response.text] is [string | undefined].

    Not modelled: the scroll effect, the form reset, [console.error], what
    [ReactMarkdown] makes of a message. *)

From Stdlib Require Import NArith String Ascii.
From stdpp Require Import base list.

Local Open Scope N_scope.
Local Open Scope nat_scope.

(** ** JavaScript strings *)

Definition jsstring := list N.

(** An ASCII literal of the source as code units. *)
Fixpoint lit (s : string) : jsstring :=
  match s with
  | EmptyString => []
  | String c s' => N_of_ascii c :: lit s'
  end.
Arguments lit s%_string : simpl never.

Definition dq : jsstring := [34%N].   (* the double quote character *)
Definition nl : jsstring := [10%N].   (* "\n" *)

(** [String(x)] as performed by a template literal's [${x}]. *)
Definition interp (x : option jsstring) : jsstring :=
  match x with
  | Some s => s
  | None => lit "undefined"
  end.

(** ECMAScript [WhiteSpace] and [LineTerminator] code units, the ones
    [String.prototype.trim] strips. *)
Definition isWhiteSpace (c : N) : bool :=
  (c =? 9)%N || (c =? 10)%N || (c =? 11)%N || (c =? 12)%N || (c =? 13)%N ||
  (c =? 32)%N || (c =? 160)%N || (c =? 5760)%N ||
  ((8192 <=? c)%N && (c <=? 8202)%N) ||
  (c =? 8232)%N || (c =? 8233)%N || (c =? 8239)%N || (c =? 8287)%N ||
  (c =? 12288)%N || (c =? 65279)%N.

Fixpoint trimStart (s : jsstring) : jsstring :=
  match s with
  | [] => []
  | c :: s' => if isWhiteSpace c then trimStart s' else s
  end.

Definition trimEnd (s : jsstring) : jsstring := reverse (trimStart (reverse s)).

Definition trim (s : jsstring) : jsstring := trimEnd (trimStart s).

(** The empty string is the only falsy string. *)
Definition truthy (s : jsstring) : bool :=
  match s with [] => false | _ :: _ => true end.

(** ** Arrays *)

(** [arr[i]]: an index out of range reads [undefined]. *)
Definition at_index (arr : list (option jsstring)) (i : nat) : option jsstring :=
  default None (arr !! i).

(** [arr.filter((x, i) => p(x, i))]. *)
Fixpoint filter_from {A} (p : A → nat → bool) (n : nat) (arr : list A) : list A :=
  match arr with
  | [] => []
  | x :: arr' =>
      if p x n then x :: filter_from p (S n) arr' else filter_from p (S n) arr'
  end.

Definition array_filter {A} (p : A → nat → bool) (arr : list A) : list A :=
  filter_from p 0 arr.

(** [arr.slice(0, -1)]. *)
Definition slice_0_m1 {A} (arr : list A) : list A := take (length arr - 1) arr.

(** ** Constants *)

Definition MODEL_NAME : jsstring := lit "gemini-2.5-pro".

Definition INITIAL_SYSTEM_INSTRUCTION : jsstring :=
  lit "You are an expert-level AI assistant. Your task is to provide a comprehensive, accurate, and well-reasoned initial response to the user's query. Aim for clarity and depth. Note: Your response is an intermediate step for other AI agents and will not be shown to the user. Be concise and focus on core information without unnecessary verbosity.".

Definition REFINEMENT_SYSTEM_INSTRUCTION : jsstring :=
  lit "You are a reflective AI agent. Your primary task is to find flaws. Critically analyze your previous response and the responses from other AI agents. Focus specifically on identifying factual inaccuracies, logical fallacies, omissions, or any other weaknesses. Your goal is to generate a new, revised response that corrects these specific errors and is free from the flaws you have identified. Note: This refined response is for a final synthesizer agent, not the user, so be direct and prioritize accuracy over conversational style.".

(** The source has an em dash (U+2014) after "these responses". *)
Definition SYNTHESIZER_SYSTEM_INSTRUCTION : jsstring :=
  lit "You are a master synthesizer AI. Your PRIMARY GOAL is to write the final, complete response to the user's query. You will be given the user's query and four refined responses from other AI agents. Your task is to analyze these responses"
  ++ [8212%N] ++
  lit "identifying their strengths to incorporate and their flaws to discard. Use this analysis to construct the single best possible answer for the user. Do not just critique the other agents; your output should BE the final, polished response.".

(** ** Data model *)

Inductive Role := User | Model.

(** [{ text: string }]; at run time the field holds whatever was assigned,
    and [finalResult.text] may be [undefined]. *)
Record Part := { text : option jsstring }.

Record Message := { role : Role; parts : list Part }.

(** The SDK's [Content] has the same two fields. *)
Definition Content := Message.

Record Config := { systemInstruction : jsstring }.

(** The argument of [ai.models.generateContent]. *)
Record GenerateContentParameters := {
  model : jsstring;
  contents : list Content;
  config : Config
}.

Definition userTurn (s : jsstring) : Content :=
  {| role := User; parts := [ {| text := Some s |} ] |}.

(** ** Prompt construction *)

Definition INTERNAL_CONTEXT : jsstring :=
  nl ++ nl ++ lit "---INTERNAL CONTEXT---" ++ nl.

(** Line 127. *)
Definition refinementContext (initialAnswer : option jsstring)
    (otherAnswers : list (option jsstring)) : jsstring :=
  lit "My initial response was: " ++ dq ++ interp initialAnswer ++ dq ++
  lit ". The other agents responded with: 1. " ++ dq ++ interp (at_index otherAnswers 0) ++ dq ++
  lit " 2. " ++ dq ++ interp (at_index otherAnswers 1) ++ dq ++
  lit " 3. " ++ dq ++ interp (at_index otherAnswers 2) ++ dq ++
  lit ". Based on this context, critically re-evaluate and provide a new, improved response to the original query.".

(** Line 126: [initialAnswers.filter((_, i) => i !== index)]. *)
Definition otherAnswersOf (initialAnswers : list (option jsstring)) (index : nat)
    : list (option jsstring) :=
  array_filter (λ _ i, negb (i =? index)) initialAnswers.

(** Line 129. *)
Definition refinementTurn (userInput : jsstring)
    (initialAnswers : list (option jsstring))
    (index : nat) (initialAnswer : option jsstring) : Content :=
  let otherAnswers := otherAnswersOf initialAnswers index in
  userTurn (userInput ++ INTERNAL_CONTEXT ++ refinementContext initialAnswer otherAnswers).

(** Line 142. *)
Definition synthesizerContext (refinedAnswers : list (option jsstring)) : jsstring :=
  lit "Here are the four refined responses to the user's query. Your task is to synthesize them into the best single, final answer." ++
  nl ++ nl ++ lit "Refined Response 1:" ++ nl ++ dq ++ interp (at_index refinedAnswers 0) ++ dq ++
  nl ++ nl ++ lit "Refined Response 2:" ++ nl ++ dq ++ interp (at_index refinedAnswers 1) ++ dq ++
  nl ++ nl ++ lit "Refined Response 3:" ++ nl ++ dq ++ interp (at_index refinedAnswers 2) ++ dq ++
  nl ++ nl ++ lit "Refined Response 4:" ++ nl ++ dq ++ interp (at_index refinedAnswers 3) ++ dq.

(** Line 143. *)
Definition synthesizerTurn (userInput : jsstring)
    (refinedAnswers : list (option jsstring)) : Content :=
  userTurn (userInput ++ INTERNAL_CONTEXT ++ synthesizerContext refinedAnswers).

(** ** The three kinds of request *)

Definition initialRequest (mainChatHistory : list Content) (userInput : jsstring)
    : GenerateContentParameters :=
  let currentUserTurn := userTurn userInput in
  {| model := MODEL_NAME;
     contents := mainChatHistory ++ [currentUserTurn];
     config := {| systemInstruction := INITIAL_SYSTEM_INSTRUCTION |} |}.

Definition refinementRequest (mainChatHistory : list Content) (userInput : jsstring)
    (initialAnswers : list (option jsstring))
    (index : nat) (initialAnswer : option jsstring) : GenerateContentParameters :=
  {| model := MODEL_NAME;
     contents := mainChatHistory ++ [refinementTurn userInput initialAnswers index initialAnswer];
     config := {| systemInstruction := REFINEMENT_SYSTEM_INSTRUCTION |} |}.

Definition synthesisRequest (mainChatHistory : list Content) (userInput : jsstring)
    (refinedAnswers : list (option jsstring)) : GenerateContentParameters :=
  {| model := MODEL_NAME;
     contents := mainChatHistory ++ [synthesizerTurn userInput refinedAnswers];
     config := {| systemInstruction := SYNTHESIZER_SYSTEM_INSTRUCTION |} |}.

(** Lines 113-119: [Array(4).fill(0).map(() => generateContent(...))]. *)
Definition initialAgentPromises (mainChatHistory : list Content)
    (userInput : jsstring) : list GenerateContentParameters :=
  map (λ _, initialRequest mainChatHistory userInput) (replicate 4 0).

(** Lines 125-136: [initialAnswers.map((initialAnswer, index) => ...)]. *)
Definition refinementAgentPromises (mainChatHistory : list Content)
    (userInput : jsstring) (initialAnswers : list (option jsstring))
    : list GenerateContentParameters :=
  imap (refinementRequest mainChatHistory userInput initialAnswers) initialAnswers.

(** ** Promises and [Promise.all] *)

(** A call in flight, as seen by the handler awaiting it. *)
Inductive Slot := Pending | Fulfilled (res_text : option jsstring).

(** How a call settles: with a response whose [.text] is given, or with an
    error. *)
Inductive Settled := Fulfils (res_text : option jsstring) | Rejects.

(** The [.text] of every response, in index order, once none is pending:
    lines 120-121 and 137-138. *)
Fixpoint values (slots : list Slot) : option (list (option jsstring)) :=
  match slots with
  | [] => Some []
  | Pending :: _ => None
  | Fulfilled t :: slots' => cons t <$> values slots'
  end.

Inductive Join :=
| Ignored                                   (* not a pending call *)
| Waiting (slots : list Slot)               (* some call is still pending *)
| Resolved (texts : list (option jsstring)) (* every call fulfilled *)
| Rejected.                                 (* first rejection *)

(** [await Promise.all(promises)] when call [k] settles with [o]. *)
Definition promiseAll (slots : list Slot) (k : nat) (o : Settled) : Join :=
  match slots !! k with
  | Some Pending =>
      match o with
      | Rejects => Rejected
      | Fulfils t =>
          let slots' := <[k := Fulfilled t]> slots in
          match values slots' with
          | Some texts => Resolved texts
          | None => Waiting slots'
          end
      end
  | _ => Ignored
  end.

(** ** The component state and the suspended invocations of [handleSubmit] *)

(** An invocation of [handleSubmit] suspended at one of its three [await]s,
    with the variables of its closure, or returned. *)
Inductive Run :=
| AwaitInitial (userInput : jsstring) (mainChatHistory : list Content)
    (slots : list Slot)
| AwaitRefined (userInput : jsstring) (mainChatHistory : list Content)
    (initialAnswers : list (option jsstring)) (slots : list Slot)
| AwaitFinal (userInput : jsstring) (mainChatHistory : list Content)
    (initialAnswers refinedAnswers : list (option jsstring))
| Returned.

Record AppState := {
  messages : list Message;
  isLoading : bool;
  loadingStatus : jsstring;
  runs : list Run       (* every invocation of [handleSubmit] so far *)
}.

(** [useState] initial values; no handler has run. *)
Definition init : AppState :=
  {| messages := []; isLoading := false; loadingStatus := []; runs := [] |}.

Definition setLoadingStatus (s : jsstring) (st : AppState) : AppState :=
  {| messages := messages st; isLoading := isLoading st;
     loadingStatus := s; runs := runs st |}.

Definition setRun (r : nat) (run : Run) (st : AppState) : AppState :=
  {| messages := messages st; isLoading := isLoading st;
     loadingStatus := loadingStatus st; runs := <[r := run]> (runs st) |}.

(** The handler's interaction with the generation service: run [r] issues
    call [i] of a stage, or observes its settlement. *)
Inductive Stage := Initial | Refinement | Synthesis.

Inductive Event :=
| Issued (r : nat) (stage : Stage) (i : nat) (request : GenerateContentParameters)
| Completed (r : nat) (stage : Stage) (i : nat) (o : Settled).

(** ** [handleSubmit], up to its first [await] (lines 90-120) *)

(** What [new GoogleGenAI({ apiKey })] does (line 103): it returns the
    client, or it throws. *)
Inductive NewClient := Constructed | Throws.

(** The message of the [catch] block (line 160). *)
Definition errorMessage : Message :=
  {| role := Model;
     parts := [ {| text := Some (lit "Sorry, I encountered an error. Please try again.") |} ] |}.

Definition handleSubmit (st : AppState) (userInput : jsstring) (ai : NewClient)
    : AppState * list Event :=
  if negb (truthy (trim userInput)) then (st, [])
  else
    let userMessage := {| role := User; parts := [ {| text := Some userInput |} ] |} in
    let currentMessages := messages st ++ [userMessage] in
    match ai with
    | Throws =>
        (* lines 99-100, then lines 157-161: the handler returns without
           having awaited anything *)
        ({| messages := currentMessages ++ [errorMessage];
            isLoading := false;
            loadingStatus := loadingStatus st;
            runs := runs st ++ [Returned] |},
         [])
    | Constructed =>
        let mainChatHistory :=
          map (λ msg, {| role := role msg; parts := parts msg |})
              (slice_0_m1 currentMessages) in
        let promises := initialAgentPromises mainChatHistory userInput in
        let r := length (runs st) in
        ({| messages := currentMessages;
            isLoading := true;
            loadingStatus := lit "Initializing agents...";
            runs := runs st ++
                    [AwaitInitial userInput mainChatHistory
                       (replicate (length promises) Pending)] |},
         imap (Issued r Initial) promises)
    end.

(** ** The rest of [handleSubmit], resumed when a call settles *)

(** Lines 157-161. *)
Definition catchBlock (r : nat) (st : AppState) : AppState :=
  {| messages := messages st ++ [errorMessage];
     isLoading := false;
     loadingStatus := loadingStatus st;
     runs := <[r := Returned]> (runs st) |}.

(** Call [k] of run [r] settles with [o]. *)
Definition settle (st : AppState) (r k : nat) (o : Settled)
    : AppState * list Event :=
  match runs st !! r with
  | Some (AwaitInitial userInput mainChatHistory slots) =>
      match promiseAll slots k o with
      | Ignored => (st, [])
      | Rejected => (catchBlock r st, [Completed r Initial k o])
      | Waiting slots' =>
          (setRun r (AwaitInitial userInput mainChatHistory slots') st,
           [Completed r Initial k o])
      | Resolved initialAnswers =>
          (* lines 124-137 *)
          let promises :=
            refinementAgentPromises mainChatHistory userInput initialAnswers in
          (setRun r
             (AwaitRefined userInput mainChatHistory initialAnswers
                (replicate (length promises) Pending))
             (setLoadingStatus (lit "Refining answers...") st),
           Completed r Initial k o :: imap (Issued r Refinement) promises)
      end
  | Some (AwaitRefined userInput mainChatHistory initialAnswers slots) =>
      match promiseAll slots k o with
      | Ignored => (st, [])
      | Rejected => (catchBlock r st, [Completed r Refinement k o])
      | Waiting slots' =>
          (setRun r (AwaitRefined userInput mainChatHistory initialAnswers slots') st,
           [Completed r Refinement k o])
      | Resolved refinedAnswers =>
          (* lines 141-149 *)
          (setRun r
             (AwaitFinal userInput mainChatHistory initialAnswers refinedAnswers)
             (setLoadingStatus (lit "Synthesizing final response...") st),
           [Completed r Refinement k o;
            Issued r Synthesis 0 (synthesisRequest mainChatHistory userInput refinedAnswers)])
      end
  | Some (AwaitFinal userInput mainChatHistory initialAnswers refinedAnswers) =>
      match k, o with
      | 0, Fulfils finalResponseText =>
          (* lines 151-155 *)
          let finalMessage :=
            {| role := Model; parts := [ {| text := finalResponseText |} ] |} in
          ({| messages := messages st ++ [finalMessage];
              isLoading := false;
              loadingStatus := loadingStatus st;
              runs := <[r := Returned]> (runs st) |},
           [Completed r Synthesis 0 o])
      | 0, Rejects => (catchBlock r st, [Completed r Synthesis 0 o])
      | _, _ => (st, [])
      end
  | Some Returned | None => (st, [])
  end.

(** ** The component as a transition system *)

Inductive Input :=
| Submit (userInput : jsstring) (ai : NewClient)
    (* the form's submit event, and what constructing the client does *)
| Settle (r k : nat) (o : Settled).      (* a call in flight settles *)

(** The form's input and button are rendered with [disabled={isLoading}]
    (lines 188-201): a submit event reaches [handleSubmit] only while
    [isLoading] is false. *)
Definition step (st : AppState) (i : Input) : AppState * list Event :=
  match i with
  | Submit userInput ai =>
      if isLoading st then (st, []) else handleSubmit st userInput ai
  | Settle r k o => settle st r k o
  end.

Fixpoint exec (st : AppState) (ins : list Input) : AppState * list Event :=
  match ins with
  | [] => (st, [])
  | i :: ins' =>
      let '(st1, evs) := step st i in
      let '(st2, evs') := exec st1 ins' in
      (st2, evs ++ evs')
  end.

(** * Vocabulary of the properties *)

(** ** Prompts and requests *)

(** The indices the specification asks for: agents 0..3 excluding [i],
    ascending. *)
Definition others_spec (i : nat) : list nat :=
  filter (λ j, j ≠ i) (seq 0 4).

(** The three requests written out for given texts, from the templates of
    lines 114-118, 127-135 and 142-149: what a request has to be, to be
    compared with what the handler builds by filtering and indexing its
    arrays. *)
Definition expectedInitialRequest (history : list Content) (query : jsstring)
    : GenerateContentParameters :=
  {| model := lit "gemini-2.5-pro";
     contents := history ++ [ {| role := User; parts := [ {| text := Some query |} ] |} ];
     config := {| systemInstruction := INITIAL_SYSTEM_INSTRUCTION |} |}.

Definition expectedRefinementRequest (history : list Content) (query : jsstring)
    (own other1 other2 other3 : option jsstring) : GenerateContentParameters :=
  {| model := lit "gemini-2.5-pro";
     contents := history ++
       [ {| role := User;
            parts := [ {| text := Some
              (query ++ nl ++ nl ++ lit "---INTERNAL CONTEXT---" ++ nl ++
               lit "My initial response was: " ++ dq ++ interp own ++ dq ++
               lit ". The other agents responded with: 1. " ++ dq ++ interp other1 ++ dq ++
               lit " 2. " ++ dq ++ interp other2 ++ dq ++
               lit " 3. " ++ dq ++ interp other3 ++ dq ++
               lit ". Based on this context, critically re-evaluate and provide a new, improved response to the original query.") |} ] |} ];
     config := {| systemInstruction := REFINEMENT_SYSTEM_INSTRUCTION |} |}.

Definition expectedSynthesisRequest (history : list Content) (query : jsstring)
    (refined1 refined2 refined3 refined4 : option jsstring) : GenerateContentParameters :=
  {| model := lit "gemini-2.5-pro";
     contents := history ++
       [ {| role := User;
            parts := [ {| text := Some
              (query ++ nl ++ nl ++ lit "---INTERNAL CONTEXT---" ++ nl ++
               lit "Here are the four refined responses to the user's query. Your task is to synthesize them into the best single, final answer." ++
               nl ++ nl ++ lit "Refined Response 1:" ++ nl ++ dq ++ interp refined1 ++ dq ++
               nl ++ nl ++ lit "Refined Response 2:" ++ nl ++ dq ++ interp refined2 ++ dq ++
               nl ++ nl ++ lit "Refined Response 3:" ++ nl ++ dq ++ interp refined3 ++ dq ++
               nl ++ nl ++ lit "Refined Response 4:" ++ nl ++ dq ++ interp refined4 ++ dq) |} ] |} ];
     config := {| systemInstruction := SYNTHESIZER_SYSTEM_INSTRUCTION |} |}.

(** ** Reachable states *)

(** Every fan-out of a suspended invocation has width four. *)
Definition wf_run (run : Run) : Prop :=
  match run with
  | AwaitInitial _ _ slots => length slots = 4
  | AwaitRefined _ _ initialAnswers slots =>
      length initialAnswers = 4 ∧ length slots = 4
  | AwaitFinal _ _ initialAnswers refinedAnswers =>
      length initialAnswers = 4 ∧ length refinedAnswers = 4
  | Returned => True
  end.

(** Holds in every reachable state. *)
Definition wf (st : AppState) : Prop := Forall wf_run (runs st).

Global Instance Stage_eq_dec : EqDecision Stage.
Proof. solve_decision. Defined.

(** The calls of one stage issued in a list of events: run, index, request. *)
Definition issuedAt (stage : Stage) (evs : list Event)
    : list (nat * nat * GenerateContentParameters) :=
  omap (λ e, match e with
             | Issued r s i request =>
                 if decide (s = stage) then Some (r, i, request) else None
             | Completed _ _ _ _ => None
             end) evs.

(** The stage whose call [k] run [r] is awaiting, if any. *)
Definition awaiting (st : AppState) (r k : nat) : option Stage :=
  match runs st !! r with
  | Some (AwaitInitial _ _ slots) =>
      match slots !! k with Some Pending => Some Initial | _ => None end
  | Some (AwaitRefined _ _ _ slots) =>
      match slots !! k with Some Pending => Some Refinement | _ => None end
  | Some (AwaitFinal _ _ _ _) =>
      match k with 0 => Some Synthesis | _ => None end
  | Some Returned | None => None
  end.

(** ** Runs in which every call is fulfilled *)

(** The environment fulfils the calls [order] of run [r] with the texts
    [texts], call [k] with [texts[k]]. *)
Definition fulfilAll (r : nat) (order : list nat)
    (texts : list (option jsstring)) : list Input :=
  map (λ k, Settle r k (Fulfils (at_index texts k))) order.

(** The settlements the handler observes for them. *)
Definition completions (r : nat) (stage : Stage) (order : list nat)
    (texts : list (option jsstring)) : list Event :=
  map (λ k, Completed r stage k (Fulfils (at_index texts k))) order.

(** The slots after the calls [ks] have been fulfilled. *)
Definition fill (texts : list (option jsstring)) (slots : list Slot)
    (ks : list nat) : list Slot :=
  foldl (λ s k, <[k := Fulfilled (at_index texts k)]> s) slots ks.

(** The inputs of a run in which every call is fulfilled: the submission,
    the four stage-1 calls fulfilled with [initial] in the order [p1], the
    four stage-2 calls fulfilled with [refined] in the order [p2], and the
    synthesis call fulfilled with [final]. *)
Definition successfulRun (r : nat) (userInput : jsstring)
    (initial refined : list (option jsstring)) (final : option jsstring)
    (p1 p2 : list nat) : list Input :=
  Submit userInput Constructed ::
  fulfilAll r p1 initial ++ fulfilAll r p2 refined ++ [Settle r 0 (Fulfils final)].

(** The turn appended for the final answer (line 154). *)
Definition modelTurn (t : option jsstring) : Message :=
  {| role := Model; parts := [ {| text := t |} ] |}.

(** The texts of a history, turn by turn and part by part. *)
Definition historyTexts (ms : list Message) : list (option jsstring) :=
  mjoin ((λ m, text <$> parts m) <$> ms).

Global Instance Role_eq_dec : EqDecision Role.
Proof. solve_decision. Defined.

(** The turns of the agent in a history. *)
Definition agentTurns (ms : list Message) : list Message :=
  filter (λ m, role m = Model) ms.

(** ** Exclusivity *)

(** An invocation that has not returned yet. *)
Definition isLive (run : Run) : bool :=
  match run with Returned => false | _ => true end.

(** Every live invocation is the latest one, and the loading flag is set
    exactly while the latest invocation is live. *)
Definition exclusive (st : AppState) : Prop :=
  (∀ r run, runs st !! r = Some run → isLive run = true →
     isLoading st = true ∧ S r = length (runs st)) ∧
  (isLoading st = true → ∃ run, last (runs st) = Some run ∧ isLive run = true).

(** ** Logs *)

(** The run an event belongs to. *)
Definition evRun (e : Event) : nat :=
  match e with
  | Issued r _ _ _ | Completed r _ _ _ => r
  end.

(** The query and the history snapshot in the closure of an invocation. *)
Definition closure (run : Run) : option (jsstring * list Content) :=
  match run with
  | AwaitInitial q h _ | AwaitRefined q h _ _ | AwaitFinal q h _ _ => Some (q, h)
  | Returned => None
  end.

(** The contents of a request are [h] followed by one user turn whose text
    begins with [q]. *)
Definition carries (q : jsstring) (h : list Content)
    (req : GenerateContentParameters) : Prop :=
  ∃ suffix, contents req = h ++ [userTurn (q ++ suffix)].

(** Invocation [r] exists and, unless it has returned, holds [q] and [h]. *)
Definition holds (r : nat) (q : jsstring) (h : list Content) (st : AppState) : Prop :=
  ∃ run, runs st !! r = Some run ∧ (closure run = None ∨ closure run = Some (q, h)).

(** The four calls of stage [s] of run [r] have been fulfilled in [l]. *)
Definition fulfilled (r : nat) (s : Stage) (l : list Event) : Prop :=
  ∀ k, k < 4 → ∃ t, Completed r s k (Fulfils t) ∈ l.

(** The barrier property of a log, for run [r]: a stage-2 request comes
    after the fulfilment of the four stage-1 calls, the synthesis request
    after the fulfilment of the four stage-2 calls; once a stage-1 call has
    failed only stage-1 requests exist, and once a stage-2 call has failed
    there is no synthesis request. *)
Definition barrier (r : nat) (l : list Event) : Prop :=
  (∀ n i req, l !! n = Some (Issued r Refinement i req) →
     fulfilled r Initial (take n l)) ∧
  (∀ n i req, l !! n = Some (Issued r Synthesis i req) →
     fulfilled r Refinement (take n l)) ∧
  (∀ k, Completed r Initial k Rejects ∈ l →
     ∀ s i req, Issued r s i req ∈ l → s = Initial) ∧
  (∀ k, Completed r Refinement k Rejects ∈ l →
     ∀ i req, Issued r Synthesis i req ∉ l).

(** No call of run [r] is reported failed; no request of stage [s] of run
    [r] is issued. *)
Definition noReject (r : nat) (l : list Event) : Prop :=
  ∀ s k, Completed r s k Rejects ∉ l.

Definition noIssued (r : nat) (s : Stage) (l : list Event) : Prop :=
  ∀ i req, Issued r s i req ∉ l.

(** Every fulfilled slot of the stage being awaited is in the log. *)
Definition logged (r : nat) (s : Stage) (slots : list Slot) (l : list Event) : Prop :=
  ∀ k t, slots !! k = Some (Fulfilled t) → Completed r s k (Fulfils t) ∈ l.

(** What the log says about run [r], by the point the run has reached. *)
Definition run_log (r : nat) (st : AppState) (l : list Event) : Prop :=
  match runs st !! r with
  | None => ∀ e, e ∈ l → evRun e ≠ r
  | Some (AwaitInitial _ _ slots) =>
      length slots = 4 ∧ logged r Initial slots l ∧ noReject r l ∧
      noIssued r Refinement l ∧ noIssued r Synthesis l
  | Some (AwaitRefined _ _ _ slots) =>
      length slots = 4 ∧ logged r Refinement slots l ∧ noReject r l ∧
      noIssued r Synthesis l
  | Some (AwaitFinal _ _ _ _) => noReject r l
  | Some Returned => True
  end.

(** An event that neither issues a later-stage request of [r] nor reports a
    failed stage-1 or stage-2 call of [r]. *)
Definition quiet (r : nat) (e : Event) : Prop :=
  match e with
  | Issued r' s _ _ => r' = r → s = Initial
  | Completed r' s _ o => r' = r → o = Rejects → s = Synthesis
  end.

(** The invariant of executions behind the barrier property. *)
Definition trace_inv (r : nat) (st : AppState) (l : list Event) : Prop :=
  run_log r st l ∧ barrier r l.

(** ** The history during a run *)

(** Turns alternate, the user's first. *)
Definition alternates (ms : list Message) : Prop :=
  ∀ i m, ms !! i = Some m → role m = if Nat.even i then User else Model.

(** The state is coherent: invocations are exclusive, the history
    alternates and ends with the user's turn exactly while loading, and
    during a run the history is the run's snapshot followed by the user's
    turn. *)
Definition coherent (st : AppState) : Prop :=
  exclusive st ∧
  alternates (messages st) ∧
  Nat.even (length (messages st)) = negb (isLoading st) ∧
  (∀ r run q h, runs st !! r = Some run → closure run = Some (q, h) →
     messages st = h ++ [userTurn q]).

(** An input that is the settlement of a call. *)
Definition isSettle (i : Input) : Prop :=
  match i with Settle _ _ _ => True | Submit _ _ => False end.

(** * The rest of the component *)

(** ** The message list (lines 170-185) *)

(** What is rendered for one message: the class of its [div], whether the
    label "Synthesizer Agent" is shown, and the markdown source handed to
    [ReactMarkdown]. *)
Record MessageView := {
  className : jsstring;
  agentLabel : bool;
  source : option jsstring
}.

Definition roleName (r : Role) : jsstring :=
  match r with User => lit "user" | Model => lit "model" end.

(** [msg.parts[0].text]: reading [.text] of a missing part throws, which is
    [None] here. *)
Definition messageView (msg : Message) : option MessageView :=
  match parts msg !! 0 with
  | None => None
  | Some part =>
      Some {| className := lit "message " ++ roleName (role msg);
              agentLabel := bool_decide (role msg = Model);
              source := text part |}
  end.

(** [messages.map((msg, index) => ...)]. *)
Definition messageList (ms : list Message) : option (list MessageView) :=
  mapM messageView ms.

(** ** [LoadingIndicator] (lines 49-62) *)

(** [s.startsWith(searchString)]. *)
Definition startsWith (s searchString : jsstring) : bool :=
  bool_decide (take (length searchString) s = searchString).

(** The class of the progress bars; the elapsed time, printed with
    [toFixed], is left out. *)
Definition progressBarsClassName (status : jsstring) : jsstring :=
  lit "progress-bars-container " ++
  (if startsWith status (lit "Initializing") then lit "initial" else lit "refining").

(** ** The elapsed-time counter (lines 77-87) *)

(** The component state together with [timer]. *)
Record Screen := { app : AppState; timer : nat }.

Inductive ScreenInput :=
| AppInput (i : Input)     (* a submit event or a settlement *)
| IntervalFires.           (* the 100 ms interval, when installed *)

(** The effect on [[isLoading]]: it runs only when [isLoading] has changed;
    it installs the interval when loading starts, and otherwise (the
    clean-up having cleared the interval) calls [setTimer(0)]. *)
Definition timerEffect (was now : bool) (t : nat) : nat :=
  if bool_decide (was = now) then t
  else if now then t
  else 0.

Definition screenStep (sc : Screen) (i : ScreenInput) : Screen * list Event :=
  match i with
  | AppInput inp =>
      let '(a, evs) := step (app sc) inp in
      ({| app := a;
          timer := timerEffect (isLoading (app sc)) (isLoading a) (timer sc) |},
       evs)
  | IntervalFires =>
      (* the interval exists only while [isLoading] *)
      ({| app := app sc;
          timer := if isLoading (app sc) then timer sc + 100 else timer sc |},
       [])
  end.

(** After mounting: the effect has run once with [isLoading] false. *)
Definition initScreen : Screen := {| app := init; timer := 0 |}.

Fixpoint screenExec (sc : Screen) (ins : list ScreenInput) : Screen * list Event :=
  match ins with
  | [] => (sc, [])
  | i :: ins' =>
      let '(sc1, evs) := screenStep sc i in
      let '(sc2, evs') := screenExec sc1 ins' in
      (sc2, evs ++ evs')
  end.

(** ** [CodeBlock] (lines 18-47) *)

(** [s.replace(/\n$/, '')]: without the [m] flag [$] matches at the end of
    the string only. *)
Definition replaceFinalNewline (s : jsstring) : jsstring :=
  match reverse s with
  | c :: r => if (c =? 10)%N then reverse r else s
  | [] => s
  end.

(** Line 20, for [children] a string or [undefined]. *)
Definition textToCopy (children : option jsstring) : jsstring :=
  replaceFinalNewline (interp children).

(** [copied], and the number of [setTimeout] callbacks not yet run. *)
Record CodeBlockState := { copied : bool; pendingResets : nat }.

Inductive CodeBlockInput :=
| WriteSucceeds      (* click, [clipboard.writeText] resolves *)
| WriteFails         (* click, [clipboard.writeText] rejects *)
| TimeoutFires.      (* a scheduled [setCopied(false)] runs *)

Definition handleCopy (st : CodeBlockState) (i : CodeBlockInput) : CodeBlockState :=
  match i with
  | WriteSucceeds => {| copied := true; pendingResets := S (pendingResets st) |}
  | WriteFails => st
  | TimeoutFires =>
      match pendingResets st with
      | 0 => st
      | S n => {| copied := false; pendingResets := n |}
      end
  end.

Definition buttonLabel (st : CodeBlockState) : jsstring :=
  if copied st then lit "Copied!" else lit "Copy".

(** * Vocabulary of the further properties *)

(** The system instruction of a stage. *)
Definition instructionOf (s : Stage) : jsstring :=
  match s with
  | Initial => INITIAL_SYSTEM_INSTRUCTION
  | Refinement => REFINEMENT_SYSTEM_INSTRUCTION
  | Synthesis => SYNTHESIZER_SYSTEM_INSTRUCTION
  end.

(** The number of calls of a stage. *)
Definition widthOf (s : Stage) : nat :=
  match s with Initial | Refinement => 4 | Synthesis => 1 end.

(** The requests run [r] has issued in a log. *)
Definition requestsOfRun (r : nat) (l : list Event) : list GenerateContentParameters :=
  omap (λ e, match e with
             | Issued r' _ _ req => if decide (r' = r) then Some req else None
             | Completed _ _ _ _ => None
             end) l.

(** The event that ends run [r]: a failed call, or the settled synthesis. *)
Definition terminal (r : nat) (e : Event) : Prop :=
  match e with
  | Issued _ _ _ _ => False
  | Completed r' s _ o => r' = r ∧ (o = Rejects ∨ s = Synthesis)
  end.

(** The status the handler sets before the stage a run is awaiting. *)
Definition statusOf (run : Run) : jsstring :=
  match run with
  | AwaitInitial _ _ _ => lit "Initializing agents..."
  | AwaitRefined _ _ _ _ => lit "Refining answers..."
  | AwaitFinal _ _ _ _ => lit "Synthesizing final response..."
  | Returned => []
  end.

(** A run awaiting a fan-out has a call still pending. *)
Definition hasPending (run : Run) : Prop :=
  match run with
  | AwaitInitial _ _ slots | AwaitRefined _ _ _ slots =>
      ∃ k, slots !! k = Some Pending
  | AwaitFinal _ _ _ _ | Returned => True
  end.

(** The number of requests a run has issued, by the point it has reached. *)
Definition requests_inv (r : nat) (st : AppState) (l : list Event) : Prop :=
  let n := length (requestsOfRun r l) in
  match runs st !! r with
  | None => n = 0
  | Some (AwaitInitial _ _ slots) => length slots = 4 ∧ n = 4
  | Some (AwaitRefined _ _ _ slots) => length slots = 4 ∧ n = 8
  | Some (AwaitFinal _ _ _ _) => n = 9
  | Some Returned => n = 0 ∨ n = 4 ∨ n = 8 ∨ n = 9
  end.

(** Nothing of run [r] follows a terminal event of [r] in the log. *)
Definition closedAfter (r : nat) (l : list Event) : Prop :=
  ∀ n e, l !! n = Some e → terminal r e →
    ∀ e', e' ∈ drop (S n) l → evRun e' ≠ r.

Definition terminal_inv (r : nat) (st : AppState) (l : list Event) : Prop :=
  (runs st !! r = Some Returned ∨ ∀ e, e ∈ l → ¬ terminal r e) ∧
  closedAfter r l.

(** The status shown is the one of the live invocation. *)
Definition status_inv (st : AppState) : Prop :=
  exclusive st ∧
  ∀ r run, runs st !! r = Some run → isLive run = true →
    loadingStatus st = statusOf run.

(** The inputs of the component among the inputs of the screen, and the
    number of times the interval fires. *)
Definition appInputs (ins : list ScreenInput) : list Input :=
  omap (λ i, match i with AppInput inp => Some inp | IntervalFires => None end) ins.

Fixpoint ticks (ins : list ScreenInput) : nat :=
  match ins with
  | [] => 0
  | IntervalFires :: ins' => S (ticks ins')
  | AppInput _ :: ins' => ticks ins'
  end.

Definition notSubmit (i : ScreenInput) : Prop :=
  match i with AppInput (Submit _ _) => False | _ => True end.

(** The most turns an input can append: a submission for which the client
    cannot be constructed appends the query and the notice in one go. *)
Definition maxAppended (i : Input) : nat :=
  match i with Submit _ Throws => 2 | _ => 1 end.

(** [useState(false)], no timeout scheduled. *)
Definition codeBlockInit : CodeBlockState := {| copied := false; pendingResets := 0 |}.

(** One user turn per invocation, and one reply per returned invocation. *)
Definition paired (st : AppState) : Prop :=
  exclusive st ∧
  length (messages st) + (if isLoading st then 1 else 0) = 2 * length (runs st).

(** * Properties *)

(** ** Strings and arrays *)

Lemma trimStart_blank (s : jsstring) :
  Forall (λ c, isWhiteSpace c = true) s → trimStart s = [].
Proof.
  induction 1 as [|c s Hc _ IH]; simpl; [done|].
  by rewrite Hc.
Qed.

Lemma trim_blank (s : jsstring) :
  Forall (λ c, isWhiteSpace c = true) s → trim s = [].
Proof.
  intros Hs. unfold trim, trimEnd.
  by rewrite (trimStart_blank s Hs).
Qed.

Lemma trimStart_nil_blank (s : jsstring) :
  trimStart s = [] → Forall (λ c, isWhiteSpace c = true) s.
Proof.
  induction s as [|c s IH]; simpl; [constructor|].
  destruct (isWhiteSpace c) eqn:Hc; [|done].
  intros Hs. constructor; auto.
Qed.

Lemma trim_nil_blank (s : jsstring) :
  trim s = [] → Forall (λ c, isWhiteSpace c = true) s.
Proof.
  unfold trim, trimEnd. intros Hs.
  apply trimStart_nil_blank.
  destruct (trimStart s) as [|c s'] eqn:E; [done|].
  apply (f_equal reverse) in Hs. rewrite reverse_involutive in Hs.
  change (reverse []) with (@nil N) in Hs.
  apply trimStart_nil_blank in Hs.
  apply Forall_reverse in Hs. rewrite reverse_involutive in Hs.
  inversion Hs as [|? ? Hc _]; subst.
  destruct s as [|d s]; [done|].
  simpl in E. destruct (isWhiteSpace d) eqn:Hd.
  - clear -E Hc. exfalso.
    revert E. induction s as [|e s IH]; simpl; [done|].
    destruct (isWhiteSpace e) eqn:He; [done|].
    intros [= -> _]. congruence.
  - injection E as -> _. congruence.
Qed.

Lemma slice_0_m1_snoc {A} (l : list A) (x : A) : slice_0_m1 (l ++ [x]) = l.
Proof.
  unfold slice_0_m1. rewrite length_app. simpl.
  replace (length l + 1 - 1) with (length l) by lia.
  by rewrite take_app_length.
Qed.

Lemma content_of_message (l : list Message) :
  map (λ msg, {| role := role msg; parts := parts msg |}) l = l.
Proof.
  induction l as [|[ro pa] l IH]; simpl; [done|]. by rewrite IH.
Qed.

Lemma values_length (slots : list Slot) (texts : list (option jsstring)) :
  values slots = Some texts → length texts = length slots.
Proof.
  revert texts. induction slots as [|[|t] slots IH]; simpl; intros texts H.
  - by injection H as <-.
  - done.
  - destruct (values slots) as [ts|]; [|done].
    injection H as <-. simpl. by rewrite (IH ts).
Qed.

(** ** Stage 2: the refinement prompt *)

Lemma otherAnswersOf_spec (initialAnswers : list (option jsstring)) (i : nat) :
  length initialAnswers = 4 → i < 4 →
  otherAnswersOf initialAnswers i = map (at_index initialAnswers) (others_spec i) ∧
  length (others_spec i) = 3.
Proof.
  intros Hlen Hi.
  destruct initialAnswers as [|a0 [|a1 [|a2 [|a3 [|]]]]]; try discriminate Hlen.
  destruct i as [|[|[|[|]]]]; try lia; by vm_compute.
Qed.

(** C1: for every [i] in 0..3 the refinement request built for agent [i]
    (the [i]-th element of [refinementAgentPromises]) ends with a user turn
    whose text quotes [initialAnswers[i]] after "My initial response was:"
    and then quotes, numbered 1 to 3, the answers at the three indices of
    0..3 other than [i], ascending. *)
Theorem refinement_prompt_own_and_others
    (mainChatHistory : list Content) (userInput : jsstring)
    (initialAnswers : list (option jsstring)) (i : nat) :
  length initialAnswers = 4 → i < 4 →
  ∃ request j0 j1 j2,
    refinementAgentPromises mainChatHistory userInput initialAnswers !! i = Some request ∧
    others_spec i = [j0; j1; j2] ∧
    j0 < j1 ∧ j1 < j2 ∧ j2 < 4 ∧ i ≠ j0 ∧ i ≠ j1 ∧ i ≠ j2 ∧
    otherAnswersOf initialAnswers i = map (at_index initialAnswers) [j0; j1; j2] ∧
    contents request =
      mainChatHistory ++
      [userTurn
         (userInput ++ INTERNAL_CONTEXT ++
          lit "My initial response was: " ++
          dq ++ interp (at_index initialAnswers i) ++ dq ++
          lit ". The other agents responded with: 1. " ++
          dq ++ interp (at_index initialAnswers j0) ++ dq ++
          lit " 2. " ++
          dq ++ interp (at_index initialAnswers j1) ++ dq ++
          lit " 3. " ++
          dq ++ interp (at_index initialAnswers j2) ++ dq ++
          lit ". Based on this context, critically re-evaluate and provide a new, improved response to the original query.")].
Proof.
  intros Hlen Hi.
  destruct initialAnswers as [|a0 [|a1 [|a2 [|a3 [|]]]]]; try discriminate Hlen.
  assert (i = 0 ∨ i = 1 ∨ i = 2 ∨ i = 3) as [-> | [-> | [-> | ->]]] by lia.
  - exists (refinementRequest mainChatHistory userInput [a0; a1; a2; a3] 0 a0), 1, 2, 3.
    repeat split; try lia; done.
  - exists (refinementRequest mainChatHistory userInput [a0; a1; a2; a3] 1 a1), 0, 2, 3.
    repeat split; try lia; done.
  - exists (refinementRequest mainChatHistory userInput [a0; a1; a2; a3] 2 a2), 0, 1, 3.
    repeat split; try lia; done.
  - exists (refinementRequest mainChatHistory userInput [a0; a1; a2; a3] 3 a3), 0, 1, 2.
    repeat split; try lia; done.
Qed.

Lemma refinement_prompt_own_and_others_witness :
  ∃ request j0 j1 j2,
    refinementAgentPromises [] (lit "q")
      [Some (lit "a"); Some (lit "b"); Some (lit "c"); Some (lit "d")] !! 2 = Some request ∧
    others_spec 2 = [j0; j1; j2] ∧
    j0 < j1 ∧ j1 < j2 ∧ j2 < 4 ∧ 2 ≠ j0 ∧ 2 ≠ j1 ∧ 2 ≠ j2 ∧
    otherAnswersOf [Some (lit "a"); Some (lit "b"); Some (lit "c"); Some (lit "d")] 2 =
      map (at_index [Some (lit "a"); Some (lit "b"); Some (lit "c"); Some (lit "d")]) [j0; j1; j2] ∧
    contents request =
      [] ++
      [userTurn
         (lit "q" ++ INTERNAL_CONTEXT ++
          lit "My initial response was: " ++
          dq ++ interp (at_index [Some (lit "a"); Some (lit "b"); Some (lit "c"); Some (lit "d")] 2) ++ dq ++
          lit ". The other agents responded with: 1. " ++
          dq ++ interp (at_index [Some (lit "a"); Some (lit "b"); Some (lit "c"); Some (lit "d")] j0) ++ dq ++
          lit " 2. " ++
          dq ++ interp (at_index [Some (lit "a"); Some (lit "b"); Some (lit "c"); Some (lit "d")] j1) ++ dq ++
          lit " 3. " ++
          dq ++ interp (at_index [Some (lit "a"); Some (lit "b"); Some (lit "c"); Some (lit "d")] j2) ++ dq ++
          lit ". Based on this context, critically re-evaluate and provide a new, improved response to the original query.")].
Proof.
  apply (refinement_prompt_own_and_others [] (lit "q")
           [Some (lit "a"); Some (lit "b"); Some (lit "c"); Some (lit "d")] 2);
    [reflexivity | lia].
Defined.

(** ** Executions *)

Lemma exec_app (st : AppState) (ins1 ins2 : list Input) :
  exec st (ins1 ++ ins2) =
    let '(st1, evs1) := exec st ins1 in
    let '(st2, evs2) := exec st1 ins2 in
    (st2, evs1 ++ evs2).
Proof.
  revert st. induction ins1 as [|i ins1 IH]; intros st; simpl.
  - by destruct (exec st ins2).
  - destruct (step st i) as [st1 evs]. rewrite IH.
    destruct (exec st1 ins1) as [st2 evs2].
    destruct (exec st2 ins2) as [st3 evs3].
    by rewrite (assoc_L (++)).
Qed.

Lemma exec_snoc (st : AppState) (ins : list Input) (i : Input) :
  exec st (ins ++ [i]) =
    let '(st1, evs1) := exec st ins in
    let '(st2, evs2) := step st1 i in
    (st2, evs1 ++ evs2).
Proof.
  rewrite exec_app. destruct (exec st ins) as [st1 evs1]. simpl.
  destruct (step st1 i) as [st2 evs2]. by rewrite (right_id_L [] (++)).
Qed.

(** A property of states kept by every step holds after every execution. *)
Lemma exec_invariant (P : AppState → Prop) :
  (∀ st i, P st → P (step st i).1) →
  ∀ st ins, P st → P (exec st ins).1.
Proof.
  intros Hstep st ins. revert st.
  induction ins as [|i ins IH]; intros st HP; simpl; [done|].
  specialize (Hstep st i HP). destruct (step st i) as [st1 evs]. simpl in Hstep.
  specialize (IH st1 Hstep). by destruct (exec st1 ins).
Qed.

(** ** Accepting a submission *)

Lemma handleSubmit_blank (st : AppState) (userInput : jsstring) (ai : NewClient) :
  truthy (trim userInput) = false → handleSubmit st userInput ai = (st, []).
Proof. intros H. unfold handleSubmit. by rewrite H. Qed.

Lemma handleSubmit_throws (st : AppState) (userInput : jsstring) :
  truthy (trim userInput) = true →
  handleSubmit st userInput Throws =
    ({| messages := messages st ++ [userTurn userInput; errorMessage];
        isLoading := false;
        loadingStatus := loadingStatus st;
        runs := runs st ++ [Returned] |},
     []).
Proof.
  intros H. unfold handleSubmit. rewrite H. simpl.
  by rewrite <- (assoc_L (++)).
Qed.

Lemma handleSubmit_accept (st : AppState) (userInput : jsstring) :
  truthy (trim userInput) = true →
  handleSubmit st userInput Constructed =
    ({| messages := messages st ++ [userTurn userInput];
        isLoading := true;
        loadingStatus := lit "Initializing agents...";
        runs := runs st ++
                [AwaitInitial userInput (messages st) (replicate 4 Pending)] |},
     imap (Issued (length (runs st)) Initial)
          (replicate 4 (initialRequest (messages st) userInput))).
Proof.
  intros H. unfold handleSubmit. rewrite H. simpl.
  by rewrite slice_0_m1_snoc, content_of_message.
Qed.

(** ** Shape of the suspended invocations *)

Lemma promiseAll_Waiting_length slots k o slots' :
  promiseAll slots k o = Waiting slots' → length slots' = length slots.
Proof.
  unfold promiseAll. destruct (slots !! k) as [[|]|]; try done.
  destruct o; [|done].
  destruct (values _); [done|]. intros [= <-]. apply length_insert.
Qed.

Lemma promiseAll_Resolved_length slots k o texts :
  promiseAll slots k o = Resolved texts → length texts = length slots.
Proof.
  unfold promiseAll. destruct (slots !! k) as [[|]|]; try done.
  destruct o; [|done].
  destruct (values _) as [ts|] eqn:E; [|done]. intros [= <-].
  apply values_length in E. by rewrite length_insert in E.
Qed.

Lemma wf_insert (rs : list Run) (r : nat) (run : Run) :
  Forall wf_run rs → wf_run run → Forall wf_run (<[r := run]> rs).
Proof. intros. by apply Forall_insert. Qed.

Lemma settle_wf (st : AppState) (r k : nat) (o : Settled) :
  wf st → wf (settle st r k o).1.
Proof.
  unfold wf, settle. intros Hwf.
  destruct (runs st !! r) as [[q h slots|q h ia slots|q h ia ra|]|] eqn:Hr; try done.
  - pose proof (Forall_lookup_1 _ _ _ _ Hwf Hr) as Hrun. simpl in Hrun.
    destruct (promiseAll slots k o) as [|slots'|texts|] eqn:Hp; simpl; try done.
    + apply wf_insert; [done|]. simpl.
      by rewrite (promiseAll_Waiting_length _ _ _ _ Hp).
    + apply wf_insert; [done|]. simpl.
      apply promiseAll_Resolved_length in Hp.
      unfold refinementAgentPromises.
      rewrite length_replicate, length_imap. lia.
    + by apply wf_insert.
  - pose proof (Forall_lookup_1 _ _ _ _ Hwf Hr) as Hrun. simpl in Hrun.
    destruct (promiseAll slots k o) as [|slots'|texts|] eqn:Hp; simpl; try done.
    + apply wf_insert; [done|]. simpl.
      rewrite (promiseAll_Waiting_length _ _ _ _ Hp). lia.
    + apply wf_insert; [done|]. simpl.
      apply promiseAll_Resolved_length in Hp. lia.
    + by apply wf_insert.
  - destruct k as [|k]; [|done]. destruct o; simpl; by apply wf_insert.
Qed.

Lemma step_wf (st : AppState) (i : Input) : wf st → wf (step st i).1.
Proof.
  intros Hwf. destruct i as [q ai|r k o]; simpl; [|by apply settle_wf].
  destruct (isLoading st); [done|].
  destruct (truthy (trim q)) eqn:Hq.
  - destruct ai.
    + rewrite (handleSubmit_accept _ _ Hq). unfold wf. simpl.
      apply Forall_app. split; [done|]. by repeat constructor.
    + rewrite (handleSubmit_throws _ _ Hq). unfold wf. simpl.
      apply Forall_app. split; [done|]. by repeat constructor.
  - by rewrite (handleSubmit_blank _ _ _ Hq).
Qed.

Lemma reachable_wf (ins : list Input) : wf (exec init ins).1.
Proof. apply (exec_invariant wf step_wf). constructor. Qed.

(** ** The requests of a step *)

Lemma issuedAt_imap_ne (r : nat) (s s' : Stage)
    (l : list GenerateContentParameters) :
  s ≠ s' → issuedAt s (imap (Issued r s') l) = [].
Proof.
  intros Hne.
  cut (∀ n, issuedAt s (imap (λ i, Issued r s' (n + i)) l) = []).
  { intros H. apply (H 0). }
  induction l as [|x l IH]; intros n; [done|].
  simpl. destruct (decide (s' = s)) as [->|_]; [done|].
  rewrite <- (IH (S n)). unfold issuedAt. f_equal.
  apply imap_ext. intros i y _. simpl. f_equal. lia.
Qed.

Lemma values_Some (slots : list Slot) (texts : list (option jsstring)) :
  values slots = Some texts → slots = Fulfilled <$> texts.
Proof.
  revert texts. induction slots as [|[|t] slots IH]; simpl; intros texts H.
  - by injection H as <-.
  - done.
  - destruct (values slots) as [ts|]; [|done].
    injection H as <-. simpl. by rewrite (IH ts).
Qed.

Lemma values_fulfilled (texts : list (option jsstring)) :
  values (Fulfilled <$> texts) = Some texts.
Proof. induction texts as [|t texts IH]; csimpl; [done|]. by rewrite IH. Qed.

Lemma promiseAll_Resolved_inv slots k o texts :
  promiseAll slots k o = Resolved texts →
  ∃ t, o = Fulfils t ∧ slots !! k = Some Pending ∧
       <[k := Fulfilled t]> slots = Fulfilled <$> texts.
Proof.
  unfold promiseAll. destruct (slots !! k) as [[|]|]; try done.
  destruct o as [t|]; [|done].
  destruct (values _) as [ts|] eqn:E; [|done]. intros [= <-].
  exists t. repeat split. by apply values_Some.
Qed.

(** ** Blank input *)

(** C9: a submitted text that is empty or made of white space only changes
    nothing: the state, hence the history, is the same afterwards and no
    request is issued. *)
Theorem blank_input_noop (st : AppState) (userInput : jsstring) (ai : NewClient) :
  Forall (λ c, isWhiteSpace c = true) userInput →
  handleSubmit st userInput ai = (st, []) ∧
  step st (Submit userInput ai) = (st, []) ∧
  messages (step st (Submit userInput ai)).1 = messages st ∧
  issuedAt Initial (step st (Submit userInput ai)).2 = [] ∧
  issuedAt Refinement (step st (Submit userInput ai)).2 = [] ∧
  issuedAt Synthesis (step st (Submit userInput ai)).2 = [].
Proof.
  intros Hblank.
  assert (handleSubmit st userInput ai = (st, [])) as Hh.
  { apply handleSubmit_blank. by rewrite (trim_blank _ Hblank). }
  assert (step st (Submit userInput ai) = (st, [])) as Hs.
  { simpl. by destruct (isLoading st). }
  rewrite Hs. by repeat split.
Qed.

Lemma blank_input_noop_witness :
  handleSubmit init (lit "  ") Constructed = (init, []) ∧
  step init (Submit (lit "  ") Constructed) = (init, []) ∧
  messages (step init (Submit (lit "  ") Constructed)).1 = messages init ∧
  issuedAt Initial (step init (Submit (lit "  ") Constructed)).2 = [] ∧
  issuedAt Refinement (step init (Submit (lit "  ") Constructed)).2 = [] ∧
  issuedAt Synthesis (step init (Submit (lit "  ") Constructed)).2 = [].
Proof.
  apply (blank_input_noop init (lit "  ") Constructed).
  repeat constructor.
Defined.

(** ** Failure *)

Lemma settle_Rejects (st : AppState) (r k : nat) (stage : Stage) :
  awaiting st r k = Some stage →
  settle st r k Rejects = (catchBlock r st, [Completed r stage k Rejects]).
Proof.
  unfold awaiting, settle, promiseAll.
  destruct (runs st !! r) as [[q h slots|q h ia slots|q h ia ra|]|]; try done.
  - destruct (slots !! k) as [[|]|]; try done. by intros [= <-].
  - destruct (slots !! k) as [[|]|]; try done. by intros [= <-].
  - destruct k; [|done]. by intros [= <-].
Qed.

(** ** Filling the slots of a fan-out *)

Lemma fill_length texts ks : ∀ slots, length (fill texts slots ks) = length slots.
Proof.
  unfold fill. induction ks as [|k ks IH]; intros slots; simpl; [done|].
  rewrite IH. apply length_insert.
Qed.

Lemma fill_lookup_notin texts ks i :
  ∀ slots, i ∉ ks → fill texts slots ks !! i = slots !! i.
Proof.
  unfold fill. induction ks as [|k ks IH]; intros slots Hi; simpl; [done|].
  apply not_elem_of_cons in Hi as [Hne Hi].
  rewrite IH by done. by apply list_lookup_insert_ne.
Qed.

Lemma fill_lookup_in texts ks i :
  ∀ slots, i ∈ ks → i < length slots →
  fill texts slots ks !! i = Some (Fulfilled (at_index texts i)).
Proof.
  induction ks as [|k ks IH]; intros slots Hi Hlen.
  - by apply elem_of_nil in Hi.
  - change (fill texts slots (k :: ks))
      with (fill texts (<[k:=Fulfilled (at_index texts k)]> slots) ks).
    destruct (decide (i ∈ ks)) as [Hin|Hnin].
    + apply IH; [done|]. by rewrite length_insert.
    + apply elem_of_cons in Hi as [->|Hi]; [|done].
      rewrite fill_lookup_notin by done. by apply list_lookup_insert_eq.
Qed.

Lemma fill_all (texts : list (option jsstring)) (p : list nat) :
  p ≡ₚ seq 0 (length texts) →
  fill texts (replicate (length texts) Pending) p = Fulfilled <$> texts.
Proof.
  intros Hp. apply list_eq. intros i.
  destruct (decide (i < length texts)) as [Hlt|Hge].
  - rewrite fill_lookup_in.
    + rewrite list_lookup_fmap. unfold at_index.
      destruct (texts !! i) eqn:E; [done|].
      apply lookup_ge_None in E. lia.
    + rewrite Hp. apply elem_of_seq. lia.
    + by rewrite length_replicate.
  - rewrite lookup_ge_None_2 by (rewrite fill_length, length_replicate; lia).
    symmetry. apply lookup_ge_None_2. rewrite length_fmap. lia.
Qed.

Lemma values_pending (slots : list Slot) (j : nat) :
  slots !! j = Some Pending → values slots = None.
Proof.
  revert j. induction slots as [|[|t] slots IH]; intros j Hj; simpl; try done.
  destruct j as [|j]; [done|]. simpl in Hj. by rewrite (IH j Hj).
Qed.

Lemma promiseAll_waiting (slots : list Slot) (k j : nat) (t : option jsstring) :
  slots !! k = Some Pending → slots !! j = Some Pending → j ≠ k →
  promiseAll slots k (Fulfils t) = Waiting (<[k := Fulfilled t]> slots).
Proof.
  intros Hk Hj Hne. unfold promiseAll. rewrite Hk.
  rewrite (values_pending _ j); [done|].
  by rewrite list_lookup_insert_ne.
Qed.

Lemma promiseAll_resolved (slots : list Slot) (k : nat) (t : option jsstring)
    (texts : list (option jsstring)) :
  slots !! k = Some Pending →
  <[k := Fulfilled t]> slots = Fulfilled <$> texts →
  promiseAll slots k (Fulfils t) = Resolved texts.
Proof.
  intros Hk Hall. unfold promiseAll. rewrite Hk, Hall.
  by rewrite values_fulfilled.
Qed.

Lemma setRun_setRun (r : nat) (run run' : Run) (st : AppState) :
  setRun r run (setRun r run' st) = setRun r run st.
Proof. unfold setRun. simpl. by rewrite list_insert_insert_eq. Qed.

Lemma setRun_id (r : nat) (run : Run) (st : AppState) :
  runs st !! r = Some run → setRun r run st = st.
Proof.
  intros H. unfold setRun. rewrite list_insert_id by done. by destruct st.
Qed.

Lemma setRun_lookup (r : nat) (run run' : Run) (st : AppState) :
  runs st !! r = Some run' → runs (setRun r run st) !! r = Some run.
Proof.
  intros H. simpl. apply list_lookup_insert_eq. by eapply lookup_lt_Some.
Qed.

(** ** A stage whose four calls are fulfilled, in any order *)

Lemma exec_cons (st : AppState) (i : Input) (ins : list Input) :
  exec st (i :: ins) =
    ((exec (step st i).1 ins).1, (step st i).2 ++ (exec (step st i).1 ins).2).
Proof.
  simpl. destruct (step st i) as [st1 evs]. simpl.
  by destruct (exec st1 ins).
Qed.

Lemma exec_initial_partial (r : nat) (q : jsstring) (h : list Content)
    (texts : list (option jsstring)) (j : nat) :
  ∀ ks st slots,
    runs st !! r = Some (AwaitInitial q h slots) →
    NoDup ks → (∀ k, k ∈ ks → slots !! k = Some Pending) →
    j ∉ ks → slots !! j = Some Pending →
    exec st (fulfilAll r ks texts) =
      (setRun r (AwaitInitial q h (fill texts slots ks)) st,
       completions r Initial ks texts).
Proof.
  induction ks as [|k ks IH]; intros st slots Hr Hnd Hpend Hj Hjp.
  - simpl. by rewrite setRun_id.
  - apply NoDup_cons in Hnd as [Hk Hnd].
    apply not_elem_of_cons in Hj as [Hjk Hj].
    assert (slots !! k = Some Pending) as Hkp by (apply Hpend; left).
    change (fulfilAll r (k :: ks) texts)
      with (Settle r k (Fulfils (at_index texts k)) :: fulfilAll r ks texts).
    rewrite exec_cons.
    assert (step st (Settle r k (Fulfils (at_index texts k))) =
            (setRun r (AwaitInitial q h (<[k:=Fulfilled (at_index texts k)]> slots)) st,
             [Completed r Initial k (Fulfils (at_index texts k))])) as ->.
    { simpl. unfold settle. rewrite Hr.
      by rewrite (promiseAll_waiting slots k j). }
    simpl fst. simpl snd.
    rewrite (IH _ (<[k:=Fulfilled (at_index texts k)]> slots)).
    + simpl. by rewrite setRun_setRun.
    + by eapply setRun_lookup.
    + done.
    + intros k' Hk'. rewrite list_lookup_insert_ne; [apply Hpend; by right|].
      intros ->. done.
    + done.
    + by rewrite list_lookup_insert_ne.
Qed.

Lemma exec_refined_partial (r : nat) (q : jsstring) (h : list Content)
    (ia texts : list (option jsstring)) (j : nat) :
  ∀ ks st slots,
    runs st !! r = Some (AwaitRefined q h ia slots) →
    NoDup ks → (∀ k, k ∈ ks → slots !! k = Some Pending) →
    j ∉ ks → slots !! j = Some Pending →
    exec st (fulfilAll r ks texts) =
      (setRun r (AwaitRefined q h ia (fill texts slots ks)) st,
       completions r Refinement ks texts).
Proof.
  induction ks as [|k ks IH]; intros st slots Hr Hnd Hpend Hj Hjp.
  - simpl. by rewrite setRun_id.
  - apply NoDup_cons in Hnd as [Hk Hnd].
    apply not_elem_of_cons in Hj as [Hjk Hj].
    assert (slots !! k = Some Pending) as Hkp by (apply Hpend; left).
    change (fulfilAll r (k :: ks) texts)
      with (Settle r k (Fulfils (at_index texts k)) :: fulfilAll r ks texts).
    rewrite exec_cons.
    assert (step st (Settle r k (Fulfils (at_index texts k))) =
            (setRun r (AwaitRefined q h ia (<[k:=Fulfilled (at_index texts k)]> slots)) st,
             [Completed r Refinement k (Fulfils (at_index texts k))])) as ->.
    { simpl. unfold settle. rewrite Hr.
      by rewrite (promiseAll_waiting slots k j). }
    simpl fst. simpl snd.
    rewrite (IH _ (<[k:=Fulfilled (at_index texts k)]> slots)).
    + simpl. by rewrite setRun_setRun.
    + by eapply setRun_lookup.
    + done.
    + intros k' Hk'. rewrite list_lookup_insert_ne; [apply Hpend; by right|].
      intros ->. done.
    + done.
    + by rewrite list_lookup_insert_ne.
Qed.

(** A permutation of the four indices ends with some call [j]. *)
Lemma order_last (p : list nat) :
  p ≡ₚ seq 0 4 →
  ∃ ks j, p = ks ++ [j] ∧ NoDup ks ∧ (j ∉ ks) ∧ (j < 4) ∧ (∀ k, k ∈ ks → k < 4).
Proof.
  intros Hp.
  assert (NoDup p) as Hnd by (rewrite Hp; apply NoDup_seq).
  assert (∀ k, k ∈ p → k < 4) as Hlt.
  { intros k Hk. rewrite Hp in Hk. apply elem_of_seq in Hk. lia. }
  destruct p as [|x p] using rev_ind.
  { apply Permutation_length in Hp. done. }
  clear IHp. apply NoDup_app in Hnd as (Hnd & Hdisj & _).
  exists p, x. repeat split; try done.
  - intros Hx. apply (Hdisj x Hx). left.
  - apply Hlt. apply elem_of_app. right. left.
  - intros k Hk. apply Hlt. apply elem_of_app. by left.
Qed.

Lemma fill_snoc texts slots ks j :
  fill texts slots (ks ++ [j]) =
    <[j := Fulfilled (at_index texts j)]> (fill texts slots ks).
Proof. unfold fill. by rewrite foldl_app. Qed.

Lemma completions_snoc r stage ks j texts :
  completions r stage (ks ++ [j]) texts =
    completions r stage ks texts ++ [Completed r stage j (Fulfils (at_index texts j))].
Proof. unfold completions. by rewrite map_app. Qed.

Lemma exec_initial_stage (st : AppState) (r : nat) (q : jsstring)
    (h : list Content) (texts : list (option jsstring)) (p : list nat) :
  runs st !! r = Some (AwaitInitial q h (replicate 4 Pending)) →
  length texts = 4 → p ≡ₚ seq 0 4 →
  exec st (fulfilAll r p texts) =
    (setRun r (AwaitRefined q h texts (replicate 4 Pending))
       (setLoadingStatus (lit "Refining answers...") st),
     completions r Initial p texts ++
     imap (Issued r Refinement) (refinementAgentPromises h q texts)).
Proof.
  intros Hr Hlen Hp.
  pose proof (fill_all texts p) as Hfill. rewrite Hlen in Hfill.
  specialize (Hfill Hp).
  destruct (order_last p Hp) as (ks & j & -> & Hnd & Hj & Hj4 & Hks).
  assert (∀ k, k < 4 → replicate 4 Pending !! k = Some Pending) as Hrep.
  { intros k Hk. by apply lookup_replicate_2. }
  unfold fulfilAll. rewrite map_app. fold (fulfilAll r ks texts).
  rewrite exec_app.
  rewrite (exec_initial_partial r q h texts j ks st (replicate 4 Pending));
    try done; [|by auto|by auto].
  rewrite fill_snoc in Hfill.
  simpl. unfold settle. erewrite setRun_lookup by done.
  rewrite (promiseAll_resolved _ j _ texts); [| |done].
  - rewrite completions_snoc, <- (assoc_L (++)), (right_id_L [] (++)).
    f_equal.
    unfold refinementAgentPromises. rewrite length_imap, Hlen.
    unfold setRun, setLoadingStatus. simpl.
    by rewrite list_insert_insert_eq.
  - rewrite fill_lookup_notin by done. by apply Hrep.
Qed.

Lemma exec_refined_stage (st : AppState) (r : nat) (q : jsstring)
    (h : list Content) (ia texts : list (option jsstring)) (p : list nat) :
  runs st !! r = Some (AwaitRefined q h ia (replicate 4 Pending)) →
  length texts = 4 → p ≡ₚ seq 0 4 →
  exec st (fulfilAll r p texts) =
    (setRun r (AwaitFinal q h ia texts)
       (setLoadingStatus (lit "Synthesizing final response...") st),
     completions r Refinement p texts ++
     [Issued r Synthesis 0 (synthesisRequest h q texts)]).
Proof.
  intros Hr Hlen Hp.
  pose proof (fill_all texts p) as Hfill. rewrite Hlen in Hfill.
  specialize (Hfill Hp).
  destruct (order_last p Hp) as (ks & j & -> & Hnd & Hj & Hj4 & Hks).
  assert (∀ k, k < 4 → replicate 4 Pending !! k = Some Pending) as Hrep.
  { intros k Hk. by apply lookup_replicate_2. }
  unfold fulfilAll. rewrite map_app. fold (fulfilAll r ks texts).
  rewrite exec_app.
  rewrite (exec_refined_partial r q h ia texts j ks st (replicate 4 Pending));
    try done; [|by auto|by auto].
  rewrite fill_snoc in Hfill.
  simpl. unfold settle. erewrite setRun_lookup by done.
  rewrite (promiseAll_resolved _ j _ texts); [| |done].
  - rewrite completions_snoc, <- (assoc_L (++)).
    f_equal.
    unfold setRun, setLoadingStatus. simpl.
    by rewrite list_insert_insert_eq.
  - rewrite fill_lookup_notin by done. by apply Hrep.
Qed.

(** ** A successful run *)

Lemma exec_successfulRun (st : AppState) (q : jsstring)
    (initial refined : list (option jsstring)) (final : option jsstring)
    (p1 p2 : list nat) :
  isLoading st = false → truthy (trim q) = true →
  length initial = 4 → length refined = 4 →
  p1 ≡ₚ seq 0 4 → p2 ≡ₚ seq 0 4 →
  let r := length (runs st) in
  exec st (successfulRun r q initial refined final p1 p2) =
    ({| messages := messages st ++ [userTurn q; modelTurn final];
        isLoading := false;
        loadingStatus := lit "Synthesizing final response...";
        runs := runs st ++ [Returned] |},
     imap (Issued r Initial) (replicate 4 (initialRequest (messages st) q)) ++
     completions r Initial p1 initial ++
     imap (Issued r Refinement) (refinementAgentPromises (messages st) q initial) ++
     completions r Refinement p2 refined ++
     [Issued r Synthesis 0 (synthesisRequest (messages st) q refined);
      Completed r Synthesis 0 (Fulfils final)]).
Proof.
  intros Hl Hq Hi Hr Hp1 Hp2 r. unfold successfulRun.
  rewrite exec_cons.
  assert (step st (Submit q Constructed) = handleSubmit st q Constructed) as ->
    by (simpl; by rewrite Hl).
  rewrite (handleSubmit_accept _ _ Hq). simpl fst. simpl snd.
  rewrite exec_app.
  erewrite (exec_initial_stage _ r q (messages st) initial p1); try done;
    [|simpl; by rewrite lookup_app_r, Nat.sub_diag].
  rewrite exec_app.
  erewrite (exec_refined_stage _ r q (messages st) initial refined p2); try done;
    [|simpl; rewrite list_lookup_insert_eq; [done|]; rewrite length_app; simpl; lia].
  simpl. unfold settle. simpl.
  rewrite !list_insert_insert_eq.
  rewrite list_lookup_insert_eq by (rewrite length_app; simpl; lia).
  simpl. f_equal.
  - f_equal.
    + by rewrite <- (assoc_L (++)).
    + subst r. replace (length (runs st)) with (length (runs st) + 0) at 1 by lia.
      by rewrite insert_app_r.
  - do 4 f_equal. by rewrite <- !(assoc_L (++)).
Qed.

Lemma historyTexts_app (ms1 ms2 : list Message) :
  historyTexts (ms1 ++ ms2) = historyTexts ms1 ++ historyTexts ms2.
Proof. unfold historyTexts. by rewrite fmap_app, join_app. Qed.

Lemma successfulRun_messages (st : AppState) (q : jsstring)
    (initial refined : list (option jsstring)) (final : option jsstring)
    (p1 p2 : list nat) :
  isLoading st = false → truthy (trim q) = true →
  length initial = 4 → length refined = 4 →
  p1 ≡ₚ seq 0 4 → p2 ≡ₚ seq 0 4 →
  messages (exec st (successfulRun (length (runs st)) q initial refined final p1 p2)).1 =
    messages st ++ [userTurn q; modelTurn final].
Proof. intros. by rewrite exec_successfulRun. Qed.

Lemma submit_messages (st : AppState) (q : jsstring) :
  isLoading st = false → truthy (trim q) = true →
  messages (step st (Submit q Constructed)).1 = messages st ++ [userTurn q].
Proof.
  intros Hl Hq. simpl. rewrite Hl. by rewrite (handleSubmit_accept _ _ Hq).
Qed.

(** C3: from any state that accepts the query, a run in which the stage-1
    calls return [initial], the stage-2 calls return [refined] and the
    synthesis call returns [final], in whatever order the calls of a stage
    complete, appends exactly one turn to the history the run started with
    (the prior turns and the user's turn), and that turn's text is [final];
    the resulting history is the same for any other intermediate responses;
    and an intermediate text occurs nowhere in it, unless that same text
    was already the query, the final text or the text of a prior turn. *)
Theorem pipeline_shape_deterministic (st : AppState) (q : jsstring)
    (initial refined : list (option jsstring)) (final : option jsstring)
    (p1 p2 : list nat) :
  isLoading st = false → truthy (trim q) = true →
  length initial = 4 → length refined = 4 →
  p1 ≡ₚ seq 0 4 → p2 ≡ₚ seq 0 4 →
  let r := length (runs st) in
  let st' := (exec st (successfulRun r q initial refined final p1 p2)).1 in
  messages (step st (Submit q Constructed)).1 = messages st ++ [userTurn q] ∧
  messages st' = messages (step st (Submit q Constructed)).1 ++ [modelTurn final] ∧
  (∀ initial' refined' p1' p2',
     length initial' = 4 → length refined' = 4 →
     p1' ≡ₚ seq 0 4 → p2' ≡ₚ seq 0 4 →
     messages (exec st (successfulRun r q initial' refined' final p1' p2')).1 =
       messages st') ∧
  (∀ t, t ∈ initial ++ refined →
     t ≠ final → t ≠ Some q → t ∉ historyTexts (messages st) →
     t ∉ historyTexts (messages st')).
Proof.
  intros Hl Hq Hi Hr Hp1 Hp2 r st'. subst st' r.
  rewrite submit_messages, successfulRun_messages by done.
  repeat split.
  - by rewrite <- (assoc_L (++)).
  - intros. by rewrite successfulRun_messages.
  - intros t _ Hfinal Hquery Hprior.
    rewrite historyTexts_app. intros [Ht|Ht]%elem_of_app; [done|].
    unfold historyTexts in Ht. simpl in Ht.
    apply elem_of_cons in Ht as [->|Ht]; [done|].
    apply elem_of_cons in Ht as [->|Ht]; [done|].
    by apply elem_of_nil in Ht.
Qed.

Lemma pipeline_shape_deterministic_witness :
  let q := lit "Define entropy." in
  let initial := [Some (lit "I0"); Some (lit "I1"); Some (lit "I2"); Some (lit "I3")] in
  let refined := [Some (lit "R0"); Some (lit "R1"); Some (lit "R2"); Some (lit "R3")] in
  let final := Some (lit "Final") in
  let st' := (exec init (successfulRun 0 q initial refined final [2; 0; 3; 1] [3; 2; 1; 0])).1 in
  messages (step init (Submit q Constructed)).1 = messages init ++ [userTurn q] ∧
  messages st' = messages (step init (Submit q Constructed)).1 ++ [modelTurn final] ∧
  (∀ initial' refined' p1' p2',
     length initial' = 4 → length refined' = 4 →
     p1' ≡ₚ seq 0 4 → p2' ≡ₚ seq 0 4 →
     messages (exec init (successfulRun 0 q initial' refined' final p1' p2')).1 =
       messages st') ∧
  (∀ t, t ∈ initial ++ refined →
     t ≠ final → t ≠ Some q → t ∉ historyTexts (messages init) →
     t ∉ historyTexts (messages st')).
Proof.
  apply (pipeline_shape_deterministic init (lit "Define entropy.")
           [Some (lit "I0"); Some (lit "I1"); Some (lit "I2"); Some (lit "I3")]
           [Some (lit "R0"); Some (lit "R1"); Some (lit "R2"); Some (lit "R3")]
           (Some (lit "Final")) [2; 0; 3; 1] [3; 2; 1; 0]);
    try reflexivity; apply (bool_decide_unpack _); vm_compute; exact I.
Defined.

(** ** Exactly one agent turn *)

Lemma nonblank_truthy (q : jsstring) :
  ¬ Forall (λ c, isWhiteSpace c = true) q → truthy (trim q) = true.
Proof.
  intros Hq. destruct (trim q) eqn:E; [|done].
  destruct Hq. by apply trim_nil_blank.
Qed.

(** C7, as amended: for a query that is not blank, a run in which every
    call is fulfilled appends exactly one agent turn to the history, after
    the user's turn, no more and no fewer, and the text of that turn is the
    text of the synthesis response as it came: the handler does not look at
    it, so it is appended also when it is empty or undefined. *)
Theorem successful_run_one_agent_turn (st : AppState) (q : jsstring)
    (initial refined : list (option jsstring)) (final : option jsstring)
    (p1 p2 : list nat) :
  isLoading st = false →
  ¬ Forall (λ c, isWhiteSpace c = true) q →
  length initial = 4 → length refined = 4 →
  p1 ≡ₚ seq 0 4 → p2 ≡ₚ seq 0 4 →
  let st' :=
    (exec st (successfulRun (length (runs st)) q initial refined final p1 p2)).1 in
  ∃ turn,
    messages st' = messages st ++ [userTurn q; turn] ∧
    agentTurns (messages st') = agentTurns (messages st) ++ [turn] ∧
    length (agentTurns (messages st')) = S (length (agentTurns (messages st))) ∧
    role turn = Model ∧
    parts turn = [ {| text := final |} ].
Proof.
  intros Hl Hq Hi Hr Hp1 Hp2 st'. subst st'.
  apply nonblank_truthy in Hq.
  rewrite successfulRun_messages by done.
  exists (modelTurn final).
  assert (agentTurns (messages st ++ [userTurn q; modelTurn final]) =
          agentTurns (messages st) ++ [modelTurn final]) as Hturns.
  { unfold agentTurns. rewrite filter_app. f_equal. }
  repeat split; [done|].
  rewrite Hturns, length_app. simpl. lia.
Qed.

Lemma successful_run_one_agent_turn_witness :
  let q := lit "Define entropy." in
  let initial := [Some (lit "I0"); Some (lit "I1"); Some (lit "I2"); Some (lit "I3")] in
  let refined := [Some (lit "R0"); Some (lit "R1"); Some (lit "R2"); Some (lit "R3")] in
  let st' :=
    (exec init (successfulRun 0 q initial refined None [0; 1; 2; 3] [1; 3; 0; 2])).1 in
  ∃ turn,
    messages st' = messages init ++ [userTurn q; turn] ∧
    agentTurns (messages st') = agentTurns (messages init) ++ [turn] ∧
    length (agentTurns (messages st')) = S (length (agentTurns (messages init))) ∧
    role turn = Model ∧
    parts turn = [ {| text := None |} ].
Proof.
  apply (successful_run_one_agent_turn init (lit "Define entropy.")
           [Some (lit "I0"); Some (lit "I1"); Some (lit "I2"); Some (lit "I3")]
           [Some (lit "R0"); Some (lit "R1"); Some (lit "R2"); Some (lit "R3")]
           None [0; 1; 2; 3] [1; 3; 0; 2]);
    try reflexivity.
  - intros H. inversion H as [|? ? Hc _]. vm_compute in Hc. discriminate Hc.
  - apply (bool_decide_unpack _); vm_compute; exact I.
Defined.

(** C7, as stated, fails: for the query "Define entropy." every call is
    fulfilled, none fails, the synthesis call with the empty text; the run
    succeeds and its one agent turn carries the empty text. *)
Lemma empty_final_text_counterexample :
  let q := lit "Define entropy." in
  let initial := [Some (lit "I0"); Some (lit "I1"); Some (lit "I2"); Some (lit "I3")] in
  let refined := [Some (lit "R0"); Some (lit "R1"); Some (lit "R2"); Some (lit "R3")] in
  let ins := successfulRun 0 q initial refined (Some []) [0; 1; 2; 3] [0; 1; 2; 3] in
  let st' := (exec init ins).1 in
  truthy (trim q) = true ∧
  runs st' = [Returned] ∧
  isLoading st' = false ∧
  (∀ s k, Completed 0 s k Rejects ∉ (exec init ins).2) ∧
  Completed 0 Synthesis 0 (Fulfils (Some [])) ∈ (exec init ins).2 ∧
  messages st' = [userTurn q; modelTurn (Some [])] ∧
  ¬ ∃ turn s,
      agentTurns (messages st') = [turn] ∧
      parts turn = [ {| text := Some s |} ] ∧ s ≠ [].
Proof.
  repeat split; try reflexivity.
  - intros s k H. vm_compute in H.
    repeat (apply elem_of_cons in H as [H|H]; [discriminate H|]).
    by apply elem_of_nil in H.
  - apply (list_elem_of_lookup_2 _ 17). reflexivity.
  - intros (turn & s & Hturn & Hparts & Hs).
    vm_compute in Hturn. injection Hturn as <-.
    simpl in Hparts. by injection Hparts as <-.
Qed.

(** ** One run at a time *)

Lemma exclusive_keep (st : AppState) (r : nat) (run run' : Run) (s : jsstring) :
  exclusive st → runs st !! r = Some run → isLive run = true → isLive run' = true →
  exclusive {| messages := messages st; isLoading := isLoading st;
               loadingStatus := s; runs := <[r := run']> (runs st) |}.
Proof.
  intros [Hlive Hload] Hr Hrun Hrun'.
  destruct (Hlive r run Hr Hrun) as [Hl Hlast].
  split; simpl.
  - intros r0 run0 H0 Hlive0. rewrite length_insert.
    destruct (decide (r0 = r)) as [->|Hne]; [done|].
    rewrite list_lookup_insert_ne in H0 by done. by apply (Hlive r0 run0).
  - intros _. exists run'. split; [|done].
    rewrite last_lookup, length_insert. rewrite <- Hlast. simpl.
    apply list_lookup_insert_eq. by eapply lookup_lt_Some.
Qed.

Lemma exclusive_return (st : AppState) (r : nat) (run : Run) (ms : list Message) :
  exclusive st → runs st !! r = Some run → isLive run = true →
  exclusive {| messages := ms; isLoading := false;
               loadingStatus := loadingStatus st;
               runs := <[r := Returned]> (runs st) |}.
Proof.
  intros [Hlive Hload] Hr Hrun.
  destruct (Hlive r run Hr Hrun) as [Hl Hlast].
  split; simpl; [|done].
  intros r0 run0 H0 Hlive0.
  destruct (decide (r0 = r)) as [->|Hne].
  - rewrite list_lookup_insert_eq in H0 by (by eapply lookup_lt_Some).
    by injection H0 as <-.
  - rewrite list_lookup_insert_ne in H0 by done.
    destruct (Hlive r0 run0 H0 Hlive0) as [_ Hlast0]. lia.
Qed.

Lemma settle_exclusive (st : AppState) (r k : nat) (o : Settled) :
  exclusive st → exclusive (settle st r k o).1.
Proof.
  intros Hex. unfold settle.
  destruct (runs st !! r) as [[q h slots|q h ia slots|q h ia ra|]|] eqn:Hr; try done.
  - destruct (promiseAll slots k o); simpl; try done.
    + by eapply exclusive_keep.
    + by eapply exclusive_keep.
    + by eapply exclusive_return.
  - destruct (promiseAll slots k o); simpl; try done.
    + by eapply exclusive_keep.
    + by eapply exclusive_keep.
    + by eapply exclusive_return.
  - destruct k; [|done]. destruct o; simpl; by eapply exclusive_return.
Qed.

Lemma step_exclusive (st : AppState) (i : Input) :
  exclusive st → exclusive (step st i).1.
Proof.
  intros Hex. destruct i as [q ai|r k o]; simpl; [|by apply settle_exclusive].
  destruct (isLoading st) eqn:Hl; [done|].
  destruct (truthy (trim q)) eqn:Hq.
  - destruct Hex as [Hlive _]. destruct ai.
    + rewrite (handleSubmit_accept _ _ Hq). split; simpl.
      * intros r run Hr Hrun. split; [done|]. rewrite length_app. simpl.
        apply lookup_app_Some in Hr as [Hr|[Hge Hr]].
        -- destruct (Hlive r run Hr Hrun). congruence.
        -- apply lookup_lt_Some in Hr. simpl in Hr. lia.
      * intros _. eexists. by rewrite last_snoc.
    + rewrite (handleSubmit_throws _ _ Hq). split; simpl; [|done].
      intros r run Hr Hrun.
      apply lookup_app_Some in Hr as [Hr|[Hge Hr]].
      * destruct (Hlive r run Hr Hrun). congruence.
      * apply list_lookup_singleton_Some in Hr as [_ <-]. done.
  - by rewrite (handleSubmit_blank _ _ _ Hq).
Qed.

Lemma reachable_exclusive (ins : list Input) : exclusive (exec init ins).1.
Proof.
  apply (exec_invariant exclusive step_exclusive). split; [|done].
  intros r run Hr. by destruct r.
Qed.

(** C8: in every reachable state at most one invocation of the pipeline is
    live; while one is live a submission is rejected, leaving the state as
    it is and issuing nothing; and every earlier invocation has returned,
    so the mutations of two runs never interleave. *)
Theorem one_run_at_a_time (ins : list Input) :
  let st := (exec init ins).1 in
  (∀ r1 r2 run1 run2,
     runs st !! r1 = Some run1 → runs st !! r2 = Some run2 →
     isLive run1 = true → isLive run2 = true → r1 = r2) ∧
  (∀ r run userInput ai,
     runs st !! r = Some run → isLive run = true →
     step st (Submit userInput ai) = (st, [])) ∧
  (∀ r run,
     runs st !! r = Some run → S r < length (runs st) → run = Returned) ∧
  (isLoading st = true ↔ ∃ r run, runs st !! r = Some run ∧ isLive run = true).
Proof.
  intros st. destruct (reachable_exclusive ins) as [Hlive Hload]. fold st in Hlive, Hload.
  repeat split.
  - intros r1 r2 run1 run2 H1 H2 Hl1 Hl2.
    destruct (Hlive _ _ H1 Hl1) as [_ E1]. destruct (Hlive _ _ H2 Hl2) as [_ E2]. lia.
  - intros r run q ai Hr Hrun. destruct (Hlive _ _ Hr Hrun) as [Hl _].
    simpl. by rewrite Hl.
  - intros r run Hr Hlt. destruct run; try done;
      destruct (Hlive _ _ Hr eq_refl); lia.
  - intros Hl. destruct (Hload Hl) as (run & Hlast & Hrun).
    rewrite last_lookup in Hlast. eauto.
  - intros (r & run & Hr & Hrun). by destruct (Hlive _ _ Hr Hrun).
Qed.

(** ** What a step does to the other invocations *)

Lemma settle_other_run (st : AppState) (r' k : nat) (o : Settled) (r : nat) :
  r ≠ r' → runs (settle st r' k o).1 !! r = runs st !! r.
Proof.
  intros Hne. unfold settle.
  destruct (runs st !! r') as [[q h slots|q h ia slots|q h ia ra|]|]; try done.
  - destruct (promiseAll slots k o); simpl; try done;
      by rewrite list_lookup_insert_ne.
  - destruct (promiseAll slots k o); simpl; try done;
      by rewrite list_lookup_insert_ne.
  - destruct k; [|done]. destruct o; simpl; by rewrite list_lookup_insert_ne.
Qed.

Lemma elem_of_imap_Issued (r r' : nat) (s s' : Stage) (i : nat)
    (req : GenerateContentParameters) (l : list GenerateContentParameters) :
  Issued r s i req ∈ imap (Issued r' s') l → r = r' ∧ s = s' ∧ l !! i = Some req.
Proof.
  intros (j & y & Heq & Hj)%elem_of_lookup_imap.
  by injection Heq as -> -> -> ->.
Qed.

Lemma settle_events_run (st : AppState) (r' k : nat) (o : Settled) (e : Event) :
  e ∈ (settle st r' k o).2 → evRun e = r'.
Proof.
  unfold settle.
  destruct (runs st !! r') as [[q h slots|q h ia slots|q h ia ra|]|]; simpl;
    try (by intros ?%elem_of_nil).
  - destruct (promiseAll slots k o); simpl;
      try (by intros ?%elem_of_nil); try (by intros ->%list_elem_of_singleton).
    intros [->|He]%elem_of_cons; [done|].
    apply elem_of_lookup_imap in He as (j & y & -> & _). done.
  - destruct (promiseAll slots k o); simpl;
      try (by intros ?%elem_of_nil); try (by intros ->%list_elem_of_singleton).
    intros [->|He]%elem_of_cons; [done|].
    by apply list_elem_of_singleton in He as ->.
  - destruct k; [|by intros ?%elem_of_nil].
    destruct o; simpl; by intros ->%list_elem_of_singleton.
Qed.

Lemma step_other_run (st : AppState) (inp : Input) (r : nat) :
  r < length (runs st) →
  (∀ k o, inp ≠ Settle r k o) →
  runs (step st inp).1 !! r = runs st !! r ∧
  (∀ e, e ∈ (step st inp).2 → evRun e ≠ r).
Proof.
  intros Hr Hinp. destruct inp as [q ai|r' k o]; simpl.
  - destruct (isLoading st); [by split; [|intros ? ?%elem_of_nil]|].
    destruct (truthy (trim q)) eqn:Hq.
    + destruct ai.
      * rewrite (handleSubmit_accept _ _ Hq). simpl. split.
        -- by rewrite lookup_app_l.
        -- intros e He.
           repeat (apply elem_of_cons in He as [->|He]; [simpl; lia|]).
           by apply elem_of_nil in He.
      * rewrite (handleSubmit_throws _ _ Hq). simpl. split.
        -- by rewrite lookup_app_l.
        -- by intros ? ?%elem_of_nil.
    + rewrite (handleSubmit_blank _ _ _ Hq). by split; [|intros ? ?%elem_of_nil].
  - assert (r ≠ r') as Hne by (intros ->; by eapply Hinp).
    split; [by apply settle_other_run|].
    intros e He%settle_events_run. congruence.
Qed.

Lemma step_runs_length (st : AppState) (inp : Input) :
  length (runs st) ≤ length (runs (step st inp).1).
Proof.
  destruct inp as [q ai|r k o]; simpl.
  - destruct (isLoading st); [done|].
    destruct (truthy (trim q)) eqn:Hq.
    + destruct ai;
        [rewrite (handleSubmit_accept _ _ Hq)|rewrite (handleSubmit_throws _ _ Hq)];
        simpl; rewrite length_app; lia.
    + by rewrite (handleSubmit_blank _ _ _ Hq).
  - unfold settle.
    destruct (runs st !! r) as [[q h slots|q h ia slots|q h ia ra|]|]; try done.
    + destruct (promiseAll slots k o); simpl; by rewrite ?length_insert.
    + destruct (promiseAll slots k o); simpl; by rewrite ?length_insert.
    + destruct k; [|done]. destruct o; simpl; by rewrite length_insert.
Qed.

(** ** The history snapshot of a run *)

Lemma settle_holds (st : AppState) (r k : nat) (o : Settled)
    (q : jsstring) (h : list Content) :
  holds r q h st →
  holds r q h (settle st r k o).1 ∧
  (∀ s i req, Issued r s i req ∈ (settle st r k o).2 → carries q h req).
Proof.
  intros (run & Hr & Hc). unfold settle. rewrite Hr.
  assert (r < length (runs st)) as Hlt by (by eapply lookup_lt_Some).
  assert (∀ run', closure run' = None ∨ closure run' = Some (q, h) →
          ∀ rs, rs = <[r:=run']> (runs st) → ∃ run0, rs !! r = Some run0 ∧
            (closure run0 = None ∨ closure run0 = Some (q, h))) as Hset.
  { intros run' Hc' rs ->. exists run'. by rewrite list_lookup_insert_eq. }
  assert (holds r q h st) as Hst by (exists run; done).
  destruct run as [q0 h0 slots|q0 h0 ia slots|q0 h0 ia ra|].
  - destruct Hc as [Hc|Hc]; [done|]. injection Hc as -> ->.
    destruct (promiseAll slots k o) as [|slots'|texts|]; simpl.
    + split; [done|]. by intros ? ? ? ?%elem_of_nil.
    + split; [eapply Hset; [|done]; by right|].
      by intros ? ? ? [=]%list_elem_of_singleton.
    + split; [eapply Hset; [|done]; by right|].
      intros s i req [[=]|He]%elem_of_cons.
      apply elem_of_imap_Issued in He as (_ & _ & He).
      unfold refinementAgentPromises in He.
      apply list_lookup_imap_Some in He as (a & _ & ->).
      by eexists.
    + split; [eapply Hset; [|done]; by left|].
      by intros ? ? ? [=]%list_elem_of_singleton.
  - destruct Hc as [Hc|Hc]; [done|]. injection Hc as -> ->.
    destruct (promiseAll slots k o) as [|slots'|texts|]; simpl.
    + split; [done|]. by intros ? ? ? ?%elem_of_nil.
    + split; [eapply Hset; [|done]; by right|].
      by intros ? ? ? [=]%list_elem_of_singleton.
    + split; [eapply Hset; [|done]; by right|].
      intros s i req [[=]|He]%elem_of_cons.
      apply list_elem_of_singleton in He. injection He as _ _ ->.
      by eexists.
    + split; [eapply Hset; [|done]; by left|].
      by intros ? ? ? [=]%list_elem_of_singleton.
  - destruct k; [|split; [done|by intros ? ? ? ?%elem_of_nil]].
    destruct o; simpl.
    + split; [eapply Hset; [|done]; by left|].
      by intros ? ? ? [=]%list_elem_of_singleton.
    + split; [eapply Hset; [|done]; by left|].
      by intros ? ? ? [=]%list_elem_of_singleton.
  - split; [done|]. by intros ? ? ? ?%elem_of_nil.
Qed.

Lemma step_holds (st : AppState) (inp : Input) (r : nat)
    (q : jsstring) (h : list Content) :
  holds r q h st →
  holds r q h (step st inp).1 ∧
  (∀ s i req, Issued r s i req ∈ (step st inp).2 → carries q h req).
Proof.
  intros Hst.
  assert ((∃ k o, inp = Settle r k o) ∨ ¬ (∃ k o, inp = Settle r k o))
    as [(k & o & ->)|Hother].
  { destruct inp as [|r' k o]; [right; by intros (? & ? & ?)|].
    destruct (decide (r' = r)) as [->|Hne]; [left; eauto|].
    right. intros (? & ? & [=]). done. }
  - by apply settle_holds.
  - destruct Hst as (run & Hr & Hc).
    destruct (step_other_run st inp r) as [Hsame Hev].
    + by eapply lookup_lt_Some.
    + intros k o ->. apply Hother. eauto.
    + split.
      * exists run. by rewrite Hsame.
      * intros s i req He. by destruct (Hev _ He).
Qed.

Lemma exec_holds (r : nat) (q : jsstring) (h : list Content) (ins : list Input) :
  ∀ st, holds r q h st →
  ∀ s i req, Issued r s i req ∈ (exec st ins).2 → carries q h req.
Proof.
  induction ins as [|inp ins IH]; intros st Hst s i req.
  - by intros ?%elem_of_nil.
  - rewrite exec_cons. simpl.
    destruct (step_holds st inp r q h Hst) as [Hst' Hev].
    intros [He|He]%elem_of_app; [by eapply Hev | by eapply IH].
Qed.

Lemma issuedAt_app (s : Stage) (l1 l2 : list Event) :
  issuedAt s (l1 ++ l2) = issuedAt s l1 ++ issuedAt s l2.
Proof. unfold issuedAt. apply omap_app. Qed.

Lemma issuedAt_completions (s : Stage) (r : nat) (s' : Stage) (p : list nat)
    (texts : list (option jsstring)) :
  issuedAt s (completions r s' p texts) = [].
Proof. induction p as [|k p IH]; [done|]. simpl. apply IH. Qed.

Lemma issuedAt_imap_eq (r : nat) (s : Stage) (l : list GenerateContentParameters) :
  issuedAt s (imap (Issued r s) l) = imap (λ i req, (r, i, req)) l.
Proof.
  cut (∀ n, issuedAt s (imap (λ i, Issued r s (n + i)) l) =
            imap (λ i req, (r, n + i, req)) l).
  { intros H. apply (H 0). }
  induction l as [|x l IH]; intros n; [done|].
  simpl. destruct (decide (s = s)) as [_|]; [|done].
  f_equal. rewrite <- (imap_ext (λ i req, (r, S n + i, req)));
    [|intros i y _; simpl; do 2 f_equal; lia].
  rewrite <- (IH (S n)). unfold issuedAt. f_equal.
  apply imap_ext. intros i y _. simpl. f_equal. lia.
Qed.

Lemma successfulRun_requests (st : AppState) (q : jsstring)
    (initial refined : list (option jsstring)) (final : option jsstring)
    (p1 p2 : list nat) :
  isLoading st = false → truthy (trim q) = true →
  length initial = 4 → length refined = 4 →
  p1 ≡ₚ seq 0 4 → p2 ≡ₚ seq 0 4 →
  let r := length (runs st) in
  let log := (exec st (successfulRun r q initial refined final p1 p2)).2 in
  issuedAt Initial log =
    imap (λ i req, (r, i, req)) (replicate 4 (initialRequest (messages st) q)) ∧
  issuedAt Refinement log =
    imap (λ i req, (r, i, req)) (refinementAgentPromises (messages st) q initial) ∧
  issuedAt Synthesis log = [(r, 0, synthesisRequest (messages st) q refined)].
Proof.
  intros Hl Hq Hi Hr Hp1 Hp2 r log. subst log r.
  rewrite exec_successfulRun by done. simpl.
  rewrite !issuedAt_app, !issuedAt_completions.
  rewrite !issuedAt_imap_eq.
  rewrite !issuedAt_imap_ne by done.
  simpl. by rewrite (right_id_L [] (++)).
Qed.

(** C10: every request issued by the run started by an accepted submission
    [q] in a state with history [messages st], whatever happens afterwards,
    has as contents that history, turn for turn, followed by exactly one
    user turn whose text begins with [q]; when every call is fulfilled the
    run issues four stage-1 requests, four stage-2 requests and one
    synthesis request, nine in all. *)
Theorem requests_carry_history_snapshot (st : AppState) (q : jsstring)
    (rest : list Input) :
  isLoading st = false → truthy (trim q) = true →
  let r := length (runs st) in
  let log := (exec st (Submit q Constructed :: rest)).2 in
  (∀ s i req,
     Issued r s i req ∈ log →
     ∃ suffix, contents req = messages st ++ [userTurn (q ++ suffix)]) ∧
  (∀ initial refined final p1 p2,
     length initial = 4 → length refined = 4 →
     p1 ≡ₚ seq 0 4 → p2 ≡ₚ seq 0 4 →
     rest = fulfilAll r p1 initial ++ fulfilAll r p2 refined ++
            [Settle r 0 (Fulfils final)] →
     length (issuedAt Initial log) = 4 ∧
     length (issuedAt Refinement log) = 4 ∧
     length (issuedAt Synthesis log) = 1).
Proof.
  intros Hl Hq r log. split.
  - intros s i req. subst log. rewrite exec_cons.
    assert (step st (Submit q Constructed) = handleSubmit st q Constructed) as ->
      by (simpl; by rewrite Hl).
    rewrite (handleSubmit_accept _ _ Hq). cbn [fst snd].
    intros [He|He]%elem_of_app.
    + apply elem_of_imap_Issued in He as (_ & _ & He).
      apply lookup_replicate in He as [-> _].
      exists []. simpl. by rewrite (right_id_L [] (++)).
    + revert He. apply exec_holds with (r := r).
      eexists. split; [simpl; subst r; by rewrite lookup_app_r, Nat.sub_diag|].
      by right.
  - intros initial refined final p1 p2 Hi Hr Hp1 Hp2 ->.
    destruct (successfulRun_requests st q initial refined final p1 p2)
      as (H1 & H2 & H3); try done.
    subst log r. unfold successfulRun in H1, H2, H3.
    rewrite H1, H2, H3. unfold refinementAgentPromises.
    by rewrite !length_imap, length_replicate, Hi.
Qed.

Lemma requests_carry_history_snapshot_witness :
  let st := (exec init (successfulRun 0 (lit "first") [None; None; None; None]
                          [None; None; None; None] (Some (lit "answer"))
                          [0; 1; 2; 3] [0; 1; 2; 3])).1 in
  let q := lit "second" in
  let rest := [Settle 1 3 (Fulfils (Some (lit "d"))); Settle 1 0 Rejects] in
  let r := length (runs st) in
  let log := (exec st (Submit q Constructed :: rest)).2 in
  (∀ s i req,
     Issued r s i req ∈ log →
     ∃ suffix, contents req = messages st ++ [userTurn (q ++ suffix)]) ∧
  (∀ initial refined final p1 p2,
     length initial = 4 → length refined = 4 →
     p1 ≡ₚ seq 0 4 → p2 ≡ₚ seq 0 4 →
     rest = fulfilAll r p1 initial ++ fulfilAll r p2 refined ++
            [Settle r 0 (Fulfils final)] →
     length (issuedAt Initial log) = 4 ∧
     length (issuedAt Refinement log) = 4 ∧
     length (issuedAt Synthesis log) = 1).
Proof.
  apply (requests_carry_history_snapshot
           (exec init (successfulRun 0 (lit "first") [None; None; None; None]
                         [None; None; None; None] (Some (lit "answer"))
                         [0; 1; 2; 3] [0; 1; 2; 3])).1
           (lit "second")
           [Settle 1 3 (Fulfils (Some (lit "d"))); Settle 1 0 Rejects]);
    reflexivity.
Defined.

(** ** The join barrier between stages *)

Lemma fulfilled_mono (r : nat) (s : Stage) (l l' : list Event) :
  fulfilled r s l → l ⊆ l' → fulfilled r s l'.
Proof. intros H Hsub k Hk. destruct (H k Hk) as [t Ht]. exists t. by apply Hsub. Qed.

(** Requests of stage [s] stay behind the fulfilment of stage [s'] when
    events are appended. *)
Lemma behind_app (r : nat) (s s' : Stage) (l evs : list Event) :
  (∀ n i req, l !! n = Some (Issued r s i req) → fulfilled r s' (take n l)) →
  (∀ m i req, evs !! m = Some (Issued r s i req) →
     fulfilled r s' (l ++ take m evs)) →
  ∀ n i req, (l ++ evs) !! n = Some (Issued r s i req) →
    fulfilled r s' (take n (l ++ evs)).
Proof.
  intros Hold Hnew n i req [Hn|[Hge Hn]]%lookup_app_Some.
  - rewrite take_app_le by (apply lookup_lt_Some in Hn; lia). by eapply Hold.
  - rewrite take_app_ge by done. by eapply Hnew.
Qed.

Lemma barrier_quiet (r : nat) (l evs : list Event) :
  barrier r l → Forall (quiet r) evs → barrier r (l ++ evs).
Proof.
  intros (Ha & Hb & Hc & Hd) Hq.
  assert (∀ e, e ∈ evs → quiet r e) as Hq' by (by apply Forall_forall).
  repeat split.
  - apply behind_app; [done|]. intros m i req Hm.
    by specialize (Hq' _ (list_elem_of_lookup_2 _ _ _ Hm) eq_refl).
  - apply behind_app; [done|]. intros m i req Hm.
    by specialize (Hq' _ (list_elem_of_lookup_2 _ _ _ Hm) eq_refl).
  - intros k [Hk|Hk]%elem_of_app s i req [Hi|Hi]%elem_of_app.
    + by eapply Hc.
    + by apply (Hq' _ Hi).
    + by specialize (Hq' _ Hk eq_refl eq_refl).
    + by specialize (Hq' _ Hk eq_refl eq_refl).
  - intros k [Hk|Hk]%elem_of_app i req [Hi|Hi]%elem_of_app.
    + by eapply Hd.
    + by specialize (Hq' _ Hi eq_refl).
    + by specialize (Hq' _ Hk eq_refl eq_refl).
    + by specialize (Hq' _ Hk eq_refl eq_refl).
Qed.

Lemma barrier_issue_refinement (r : nat) (l : list Event) (k : nat)
    (t : option jsstring) (reqs : list GenerateContentParameters) :
  barrier r l → noReject r l →
  fulfilled r Initial (l ++ [Completed r Initial k (Fulfils t)]) →
  barrier r (l ++ Completed r Initial k (Fulfils t) :: imap (Issued r Refinement) reqs).
Proof.
  intros (Ha & Hb & Hc & Hd) Hnr Hful.
  assert (∀ s k', Completed r s k' Rejects ∉
            l ++ Completed r Initial k (Fulfils t) :: imap (Issued r Refinement) reqs)
    as Hnr'.
  { intros s k' [H|H]%elem_of_app; [by apply (Hnr s k')|].
    apply elem_of_cons in H as [[=]|H].
    by apply elem_of_lookup_imap in H as (? & ? & [=] & _). }
  repeat split.
  - apply behind_app; [done|]. intros [|m] i req Hm; [done|].
    eapply fulfilled_mono; [done|].
    intros e [He|He]%elem_of_app; apply elem_of_app; [by left|right].
    apply list_elem_of_singleton in He as ->. simpl. left.
  - apply behind_app; [done|]. intros [|m] i req Hm; [done|].
    simpl in Hm. apply list_elem_of_lookup_2 in Hm.
    by apply elem_of_lookup_imap in Hm as (? & ? & [=] & _).
  - intros k' Hk'. by destruct (Hnr' _ _ Hk').
  - intros k' Hk'. by destruct (Hnr' _ _ Hk').
Qed.

Lemma barrier_issue_synthesis (r : nat) (l : list Event) (k : nat)
    (t : option jsstring) (req : GenerateContentParameters) :
  barrier r l → noReject r l →
  fulfilled r Refinement (l ++ [Completed r Refinement k (Fulfils t)]) →
  barrier r (l ++ [Completed r Refinement k (Fulfils t); Issued r Synthesis 0 req]).
Proof.
  intros (Ha & Hb & Hc & Hd) Hnr Hful.
  assert (∀ s k', Completed r s k' Rejects ∉
            l ++ [Completed r Refinement k (Fulfils t); Issued r Synthesis 0 req])
    as Hnr'.
  { intros s k' [H|H]%elem_of_app; [by apply (Hnr s k')|].
    apply elem_of_cons in H as [[=]|H].
    by apply list_elem_of_singleton in H. }
  repeat split.
  - apply behind_app; [done|]. by intros [|[|m]] i req' Hm.
  - apply behind_app; [done|]. by intros [|[|m]] i req' Hm.
  - intros k' Hk'. by destruct (Hnr' _ _ Hk').
  - intros k' Hk'. by destruct (Hnr' _ _ Hk').
Qed.

Lemma barrier_reject_initial (r : nat) (l : list Event) (k : nat) :
  barrier r l → noReject r l →
  noIssued r Refinement l → noIssued r Synthesis l →
  barrier r (l ++ [Completed r Initial k Rejects]).
Proof.
  intros (Ha & Hb & Hc & Hd) Hnr Hn2 Hn3.
  repeat split.
  - apply behind_app; [done|]. by intros [|m] i req Hm.
  - apply behind_app; [done|]. by intros [|m] i req Hm.
  - intros _ _ s i req [Hi|Hi]%elem_of_app.
    + destruct s; [done| |]; [by destruct (Hn2 _ _ Hi)|by destruct (Hn3 _ _ Hi)].
    + by apply list_elem_of_singleton in Hi.
  - intros k' [Hk'|Hk']%elem_of_app; [by destruct (Hnr _ _ Hk')|].
    by apply list_elem_of_singleton in Hk'.
Qed.

Lemma barrier_reject_refinement (r : nat) (l : list Event) (k : nat) :
  barrier r l → noReject r l → noIssued r Synthesis l →
  barrier r (l ++ [Completed r Refinement k Rejects]).
Proof.
  intros (Ha & Hb & Hc & Hd) Hnr Hn3.
  repeat split.
  - apply behind_app; [done|]. by intros [|m] i req Hm.
  - apply behind_app; [done|]. by intros [|m] i req Hm.
  - intros k' [Hk'|Hk']%elem_of_app; [by destruct (Hnr _ _ Hk')|].
    by apply list_elem_of_singleton in Hk'.
  - intros _ _ i req [Hi|Hi]%elem_of_app; [by destruct (Hn3 _ _ Hi)|].
    by apply list_elem_of_singleton in Hi.
Qed.

Lemma promiseAll_Waiting_inv slots k o slots' :
  promiseAll slots k o = Waiting slots' →
  ∃ t, o = Fulfils t ∧ slots !! k = Some Pending ∧
       slots' = <[k := Fulfilled t]> slots.
Proof.
  unfold promiseAll. destruct (slots !! k) as [[|]|]; try done.
  destruct o as [t|]; [|done].
  destruct (values _); [done|]. intros [= <-]. by exists t.
Qed.

Lemma promiseAll_Rejected_inv slots k o :
  promiseAll slots k o = Rejected → o = Rejects ∧ slots !! k = Some Pending.
Proof.
  unfold promiseAll. destruct (slots !! k) as [[|]|]; try done.
  destruct o as [t|]; [|done]. by destruct (values _).
Qed.

Lemma noReject_app (r : nat) (l evs : list Event) :
  noReject r l →
  (∀ e, e ∈ evs → ∀ s k, e ≠ Completed r s k Rejects) →
  noReject r (l ++ evs).
Proof.
  intros Hl Hevs s k [H|H]%elem_of_app; [by apply (Hl s k)|].
  by apply (Hevs _ H s k).
Qed.

Lemma noIssued_app (r : nat) (s : Stage) (l evs : list Event) :
  noIssued r s l →
  (∀ e, e ∈ evs → ∀ i req, e ≠ Issued r s i req) →
  noIssued r s (l ++ evs).
Proof.
  intros Hl Hevs i req [H|H]%elem_of_app; [by apply (Hl i req)|].
  by apply (Hevs _ H i req).
Qed.

Lemma logged_mono (r : nat) (s : Stage) (slots : list Slot) (l l' : list Event) :
  logged r s slots l → l ⊆ l' → logged r s slots l'.
Proof. intros H Hsub k t Hk. apply Hsub. by apply H. Qed.

Lemma logged_insert (r : nat) (s : Stage) (slots : list Slot) (l : list Event)
    (k : nat) (t : option jsstring) :
  logged r s slots l →
  logged r s (<[k := Fulfilled t]> slots) (l ++ [Completed r s k (Fulfils t)]).
Proof.
  intros H k' t' Hk'. apply elem_of_app.
  destruct (decide (k' = k)) as [->|Hne].
  - right. destruct (decide (k < length slots)) as [Hlt|Hge].
    + rewrite list_lookup_insert_eq in Hk' by done.
      injection Hk' as <-. left.
    + rewrite list_insert_ge in Hk' by lia.
      apply lookup_lt_Some in Hk'. lia.
  - left. rewrite list_lookup_insert_ne in Hk' by done. by apply H.
Qed.

Lemma logged_replicate (r : nat) (s : Stage) (n : nat) (l : list Event) :
  logged r s (replicate n Pending) l.
Proof. intros k t Hk. by apply lookup_replicate in Hk as [? _]. Qed.

Lemma fulfilled_join (r : nat) (s : Stage) (slots : list Slot) (l : list Event)
    (k : nat) (t : option jsstring) (texts : list (option jsstring)) :
  length slots = 4 → logged r s slots l →
  <[k := Fulfilled t]> slots = Fulfilled <$> texts →
  fulfilled r s (l ++ [Completed r s k (Fulfils t)]).
Proof.
  intros Hlen Hlog Hall k' Hk'.
  assert (length texts = 4) as Htexts.
  { apply (f_equal length) in Hall.
    by rewrite length_insert, length_fmap, Hlen in Hall. }
  destruct (lookup_lt_is_Some_2 texts k') as [a Ha]; [lia|].
  exists a.
  apply (logged_insert r s slots l k t Hlog).
  by rewrite Hall, list_lookup_fmap, Ha.
Qed.

(** Run [r] is untouched: its state is the same and no event is about it. *)
Lemma run_log_frame (r : nat) (st st' : AppState) (l evs : list Event) :
  runs st' !! r = runs st !! r →
  (∀ e, e ∈ evs → evRun e ≠ r) →
  run_log r st l → run_log r st' (l ++ evs).
Proof.
  intros Hsame Hevs. unfold run_log. rewrite Hsame.
  assert (l ⊆ l ++ evs) as Hsub by (intros e He; apply elem_of_app; by left).
  assert (∀ e, e ∈ evs → ∀ s k, e ≠ Completed r s k Rejects) as Hrej.
  { intros e He s k ->. by apply (Hevs _ He). }
  assert (∀ s e, e ∈ evs → ∀ i req, e ≠ Issued r s i req) as Hiss.
  { intros s e He i req ->. by apply (Hevs _ He). }
  destruct (runs st !! r) as [[q h slots|q h ia slots|q h ia ra|]|].
  - intros (Hlen & Hlog & Hnr & Hn2 & Hn3).
    repeat split; [done|by eapply logged_mono|by apply noReject_app|
                   by apply noIssued_app; [|apply Hiss]..].
  - intros (Hlen & Hlog & Hnr & Hn3).
    repeat split; [done|by eapply logged_mono|by apply noReject_app|
                   by apply noIssued_app; [|apply Hiss]].
  - intros Hnr. by apply noReject_app.
  - done.
  - intros Hnone e [He|He]%elem_of_app; [by apply Hnone|by apply Hevs].
Qed.

Lemma quiet_other (r : nat) (evs : list Event) :
  (∀ e, e ∈ evs → evRun e ≠ r) → Forall (quiet r) evs.
Proof.
  intros Hevs. apply Forall_forall. intros e He.
  specialize (Hevs e He). destruct e; simpl in *; by intros ->.
Qed.

Lemma trace_inv_frame (r : nat) (st st' : AppState) (l evs : list Event) :
  runs st' !! r = runs st !! r →
  (∀ e, e ∈ evs → evRun e ≠ r) →
  trace_inv r st l → trace_inv r st' (l ++ evs).
Proof.
  intros Hsame Hevs [Hlog Hbar]. split.
  - by eapply run_log_frame.
  - apply barrier_quiet; [done|]. by apply quiet_other.
Qed.

Lemma settle_trace_inv (r : nat) (st : AppState) (k : nat) (o : Settled)
    (l : list Event) :
  trace_inv r st l →
  trace_inv r (settle st r k o).1 (l ++ (settle st r k o).2).
Proof.
  intros [Hlog Hbar]. unfold trace_inv, run_log, settle in *.
  assert (l ⊆ l ++ (settle st r k o).2) as Hsub
    by (intros e He; apply elem_of_app; by left).
  destruct (runs st !! r) as [[q h slots|q h ia slots|q h ia ra|]|] eqn:Hr;
    simpl; rewrite ?(right_id_L [] (++)); rewrite ?Hr; try done.
  - (* awaiting stage 1 *)
    assert (r < length (runs st)) as Hlt by (by eapply lookup_lt_Some).
    destruct Hlog as (Hlen & Hlogged & Hnr & Hn2 & Hn3).
    destruct (promiseAll slots k o) as [|slots'|texts|] eqn:Hp; simpl;
      rewrite ?(right_id_L [] (++)); rewrite ?Hr; try done;
      rewrite ?list_lookup_insert_eq by done.
    + apply promiseAll_Waiting_inv in Hp as (t & -> & Hk & ->).
      split; [|apply barrier_quiet; [done|]; by repeat constructor].
      repeat split.
      * by rewrite length_insert.
      * by apply logged_insert.
      * apply noReject_app; [done|]. by intros e ->%list_elem_of_singleton.
      * apply noIssued_app; [done|]. by intros e ->%list_elem_of_singleton.
      * apply noIssued_app; [done|]. by intros e ->%list_elem_of_singleton.
    + pose proof (promiseAll_Resolved_length _ _ _ _ Hp) as Htexts.
      apply promiseAll_Resolved_inv in Hp as (t & -> & Hk & Hall).
      assert (∀ e, e ∈ Completed r Initial k (Fulfils t)
                :: imap (Issued r Refinement) (refinementAgentPromises h q texts) →
              e = Completed r Initial k (Fulfils t) ∨
              ∃ i req, e = Issued r Refinement i req) as Hevs.
      { intros e [->|He]%elem_of_cons; [by left|right].
        apply elem_of_lookup_imap in He as (i & req & -> & _). eauto. }
      split.
      * repeat split.
        -- unfold refinementAgentPromises.
           rewrite length_replicate, length_imap. lia.
        -- apply logged_replicate.
        -- apply noReject_app; [done|].
           intros e [->|(? & ? & ->)]%Hevs; done.
        -- apply noIssued_app; [done|].
           intros e [->|(? & ? & ->)]%Hevs; done.
      * apply barrier_issue_refinement; [done..|].
        by eapply fulfilled_join.
    + apply promiseAll_Rejected_inv in Hp as [-> Hk].
      split; [done|]. by apply barrier_reject_initial.
  - (* awaiting stage 2 *)
    assert (r < length (runs st)) as Hlt by (by eapply lookup_lt_Some).
    destruct Hlog as (Hlen & Hlogged & Hnr & Hn3).
    destruct (promiseAll slots k o) as [|slots'|texts|] eqn:Hp; simpl;
      rewrite ?(right_id_L [] (++)); rewrite ?Hr; try done;
      rewrite ?list_lookup_insert_eq by done.
    + apply promiseAll_Waiting_inv in Hp as (t & -> & Hk & ->).
      split; [|apply barrier_quiet; [done|]; by repeat constructor].
      repeat split.
      * by rewrite length_insert.
      * by apply logged_insert.
      * apply noReject_app; [done|]. by intros e ->%list_elem_of_singleton.
      * apply noIssued_app; [done|]. by intros e ->%list_elem_of_singleton.
    + apply promiseAll_Resolved_inv in Hp as (t & -> & Hk & Hall).
      split.
      * apply noReject_app; [done|].
        intros e [->|He]%elem_of_cons; [done|].
        by apply list_elem_of_singleton in He as ->.
      * apply barrier_issue_synthesis; [done..|].
        by eapply fulfilled_join.
    + apply promiseAll_Rejected_inv in Hp as [-> Hk].
      split; [done|]. by apply barrier_reject_refinement.
  - (* awaiting the synthesis *)
    assert (r < length (runs st)) as Hlt by (by eapply lookup_lt_Some).
    destruct k as [|k]; simpl;
      [|rewrite (right_id_L [] (++)), Hr; by split].
    destruct o as [t|]; simpl; rewrite list_lookup_insert_eq by done.
    + split; [done|]. apply barrier_quiet; [done|]. by repeat constructor.
    + split; [done|]. apply barrier_quiet; [done|]. by repeat constructor.
Qed.

Lemma step_trace_inv (r : nat) (st : AppState) (inp : Input) (l : list Event) :
  trace_inv r st l →
  trace_inv r (step st inp).1 (l ++ (step st inp).2).
Proof.
  intros Hinv. destruct inp as [q ai|r' k o].
  - simpl. destruct (isLoading st);
      [simpl; by rewrite (right_id_L [] (++))|].
    destruct (truthy (trim q)) eqn:Hq;
      [|rewrite (handleSubmit_blank _ _ _ Hq); simpl;
        by rewrite (right_id_L [] (++))].
    destruct ai; [|rewrite (handleSubmit_throws _ _ Hq)]; cbn [fst snd].
    2: { (* the client cannot be constructed: the run returns at once *)
      destruct (decide (r = length (runs st))) as [->|Hne].
      - destruct Hinv as [_ Hbar]. rewrite (right_id_L [] (++)).
        split; [|done]. unfold run_log. simpl.
        by rewrite lookup_app_r, Nat.sub_diag.
      - apply (trace_inv_frame r st); [|by intros e ?%elem_of_nil|done].
        simpl. destruct (decide (r < length (runs st))).
        + by rewrite lookup_app_l.
        + rewrite !lookup_ge_None_2; [done|lia|].
          rewrite length_app. simpl. lia. }
    rewrite (handleSubmit_accept _ _ Hq). cbn [fst snd].
    destruct (decide (r = length (runs st))) as [->|Hne].
    + (* the submission starts run [r] *)
      destruct Hinv as [Hlog Hbar]. unfold run_log in Hlog.
      rewrite lookup_ge_None_2 in Hlog by done.
      assert (∀ e, e ∈ imap (Issued (length (runs st)) Initial)
                (replicate 4 (initialRequest (messages st) q)) →
              ∃ i req, e = Issued (length (runs st)) Initial i req) as Hevs.
      { intros e (i & req & -> & _)%elem_of_lookup_imap. eauto. }
      split.
      * unfold run_log. simpl. rewrite lookup_app_r, Nat.sub_diag by done.
        simpl. repeat split.
        -- apply (logged_replicate _ _ 4).
        -- apply noReject_app; [by intros s k H%Hlog|].
           by intros e (? & ? & ->)%Hevs.
        -- apply noIssued_app; [by intros i req H%Hlog|].
           by intros e (? & ? & ->)%Hevs.
        -- apply noIssued_app; [by intros i req H%Hlog|].
           by intros e (? & ? & ->)%Hevs.
      * apply barrier_quiet; [done|]. apply Forall_forall.
        by intros e (? & ? & ->)%Hevs.
    + apply (trace_inv_frame r st); [| |done].
      * simpl. destruct (decide (r < length (runs st))).
        -- by rewrite lookup_app_l.
        -- rewrite !lookup_ge_None_2; [done|lia|].
           rewrite length_app. simpl. lia.
      * intros e (i & req & -> & _)%elem_of_lookup_imap. simpl. lia.
  - destruct (decide (r' = r)) as [->|Hne].
    + by apply settle_trace_inv.
    + apply (trace_inv_frame r st); [| |done].
      * by apply settle_other_run.
      * intros e He%settle_events_run. congruence.
Qed.

Lemma exec_trace_inv (r : nat) (ins : list Input) :
  ∀ st l, trace_inv r st l → trace_inv r (exec st ins).1 (l ++ (exec st ins).2).
Proof.
  induction ins as [|inp ins IH]; intros st l Hinv.
  - simpl. by rewrite (right_id_L [] (++)).
  - rewrite exec_cons. cbn [fst snd]. rewrite (assoc_L (++)).
    apply IH. by apply step_trace_inv.
Qed.

(** C6: in the log of every execution, a stage-2 request of a run comes
    after the fulfilment of all four stage-1 calls of that run, and its
    synthesis request after the fulfilment of all four stage-2 calls; if a
    stage-1 call of the run fails, the run has no stage-2 and no synthesis
    request anywhere in the log; if a stage-2 call fails, it has no
    synthesis request. *)
Theorem stages_join_barrier (ins : list Input) (r : nat) :
  let log := (exec init ins).2 in
  (∀ n i req, log !! n = Some (Issued r Refinement i req) →
     fulfilled r Initial (take n log)) ∧
  (∀ n i req, log !! n = Some (Issued r Synthesis i req) →
     fulfilled r Refinement (take n log)) ∧
  (∀ k, Completed r Initial k Rejects ∈ log →
     ∀ s i req, Issued r s i req ∈ log → s = Initial) ∧
  (∀ k, Completed r Refinement k Rejects ∈ log →
     ∀ i req, Issued r Synthesis i req ∉ log).
Proof.
  intros log.
  assert (trace_inv r init []) as Hinit.
  { split.
    - unfold run_log. simpl. by intros e ?%elem_of_nil.
    - repeat split; try (by intros ? ? ? ?); by intros ? ?%elem_of_nil. }
  by destruct (exec_trace_inv r ins init [] Hinit) as [_ Hbar].
Qed.

(** ** The history during a run *)

Lemma alternates_snoc (ms : list Message) (m : Message) :
  alternates ms →
  role m = (if Nat.even (length ms) then User else Model) →
  alternates (ms ++ [m]).
Proof.
  intros Hms Hm i m' [Hi|[Hge Hi]]%lookup_app_Some; [by apply Hms|].
  apply list_lookup_singleton_Some in Hi as [Hi <-].
  by replace i with (length ms) by lia.
Qed.

Lemma alternates_snoc_role (ms : list Message) (m m' : Message) :
  alternates (ms ++ [m]) → role m' = role m → alternates (ms ++ [m']).
Proof.
  intros Hms Hr i m0 [Hi|[Hge Hi]]%lookup_app_Some.
  - apply Hms. by apply lookup_app_l_Some.
  - apply list_lookup_singleton_Some in Hi as [Hi <-]. rewrite Hr.
    apply Hms. rewrite lookup_app_r by done.
    by replace (i - length ms) with 0 by lia.
Qed.

Lemma closure_live (run : Run) (q : jsstring) (h : list Content) :
  closure run = Some (q, h) → isLive run = true.
Proof. by destruct run. Qed.

Lemma coherent_keep (st : AppState) (r : nat) (run run' : Run) (s : jsstring) :
  coherent st → runs st !! r = Some run →
  isLive run = true → closure run' = closure run → isLive run' = true →
  coherent {| messages := messages st; isLoading := isLoading st;
              loadingStatus := s; runs := <[r := run']> (runs st) |}.
Proof.
  intros (Hex & Halt & Hlen & Hsnap) Hr Hlive Hc Hlive'.
  split; [by eapply exclusive_keep|]. repeat split; try done.
  simpl. intros r0 run0 q h H0 Hc0.
  destruct (decide (r0 = r)) as [->|Hne].
  - rewrite list_lookup_insert_eq in H0 by (by eapply lookup_lt_Some).
    injection H0 as <-. rewrite Hc in Hc0. by eapply Hsnap.
  - rewrite list_lookup_insert_ne in H0 by done. by eapply Hsnap.
Qed.

Lemma coherent_return (st : AppState) (r : nat) (run : Run) (m : Message) :
  coherent st → runs st !! r = Some run → isLive run = true → role m = Model →
  coherent {| messages := messages st ++ [m]; isLoading := false;
              loadingStatus := loadingStatus st;
              runs := <[r := Returned]> (runs st) |}.
Proof.
  intros (Hex & Halt & Hlen & Hsnap) Hr Hlive Hm.
  destruct Hex as [Hlive_last Hload].
  destruct (Hlive_last r run Hr Hlive) as [Hl Hlast].
  rewrite Hl in Hlen. simpl in Hlen.
  split; [by eapply exclusive_return|]. simpl. repeat split.
  - apply alternates_snoc; [done|]. by rewrite Hlen.
  - rewrite length_app. simpl. rewrite Nat.add_1_r, Nat.even_succ.
    by rewrite <- Nat.negb_even, Hlen.
  - intros r0 run0 q h H0 Hc0.
    destruct (decide (r0 = r)) as [->|Hne].
    + rewrite list_lookup_insert_eq in H0 by (by eapply lookup_lt_Some).
      by injection H0 as <-.
    + rewrite list_lookup_insert_ne in H0 by done.
      destruct (Hlive_last r0 run0 H0 (closure_live _ _ _ Hc0)). lia.
Qed.

Lemma settle_coherent (st : AppState) (r k : nat) (o : Settled) :
  coherent st → coherent (settle st r k o).1.
Proof.
  intros Hco. unfold settle.
  destruct (runs st !! r) as [[q h slots|q h ia slots|q h ia ra|]|] eqn:Hr; try done.
  - destruct (promiseAll slots k o); simpl; try done.
    + by eapply coherent_keep.
    + by eapply coherent_keep.
    + by eapply coherent_return.
  - destruct (promiseAll slots k o); simpl; try done.
    + by eapply coherent_keep.
    + by eapply coherent_keep.
    + by eapply coherent_return.
  - destruct k; [|done]. destruct o; simpl; by eapply coherent_return.
Qed.

Lemma step_coherent (st : AppState) (i : Input) :
  coherent st → coherent (step st i).1.
Proof.
  intros Hco. destruct i as [q ai|r k o]; [|by apply settle_coherent].
  pose proof (step_exclusive st (Submit q ai)) as Hex. simpl in *.
  destruct (isLoading st) eqn:Hl; [done|].
  destruct (truthy (trim q)) eqn:Hq;
    [|by rewrite (handleSubmit_blank _ _ _ Hq)].
  destruct Hco as (Hex0 & Halt & Hlen & Hsnap). rewrite Hl in Hlen. simpl in Hlen.
  destruct ai;
    [rewrite (handleSubmit_accept _ _ Hq) in *
    |rewrite (handleSubmit_throws _ _ Hq) in *].
  - split; [by apply Hex|]. simpl. repeat split.
    + apply alternates_snoc; [done|]. by rewrite Hlen.
    + rewrite length_app. simpl. rewrite Nat.add_1_r, Nat.even_succ.
      by rewrite <- Nat.negb_even, Hlen.
    + intros r run q0 h Hr Hc.
      apply lookup_app_Some in Hr as [Hr|[_ Hr]].
      * destruct Hex0 as [Hlive _].
        destruct (Hlive r run Hr (closure_live _ _ _ Hc)). congruence.
      * apply list_lookup_singleton_Some in Hr as [_ <-].
        by injection Hc as <- <-.
  - split; [by apply Hex|]. simpl. repeat split.
    + change [userTurn q; errorMessage] with ([userTurn q] ++ [errorMessage]).
      rewrite (assoc_L (++)).
      apply alternates_snoc; [apply alternates_snoc; [done|by rewrite Hlen]|].
      rewrite length_app. simpl. rewrite Nat.add_1_r, Nat.even_succ.
      by rewrite <- Nat.negb_even, Hlen.
    + rewrite length_app. simpl.
      replace (length (messages st) + 2) with (S (S (length (messages st)))) by lia.
      done.
    + intros r run q0 h Hr Hc.
      apply lookup_app_Some in Hr as [Hr|[_ Hr]].
      * destruct Hex0 as [Hlive _].
        destruct (Hlive r run Hr (closure_live _ _ _ Hc)). congruence.
      * by apply list_lookup_singleton_Some in Hr as [_ <-].
Qed.

Lemma reachable_coherent (ins : list Input) : coherent (exec init ins).1.
Proof.
  apply (exec_invariant coherent step_coherent).
  split; [|repeat split].
  - split; [|done]. intros r run Hr. by destruct r.
  - intros i m Hi. by destruct i.
  - intros r run q h Hr. by destruct r.
Qed.

(** ** The fan-outs and the synthesis request *)

Lemma initialRequest_expected (h : list Content) (q : jsstring) :
  initialRequest h q = expectedInitialRequest h q.
Proof. reflexivity. Qed.

Lemma refinementAgentPromises_expected (h : list Content) (q : jsstring)
    (a0 a1 a2 a3 : option jsstring) :
  refinementAgentPromises h q [a0; a1; a2; a3] =
    [expectedRefinementRequest h q a0 a1 a2 a3;
     expectedRefinementRequest h q a1 a0 a2 a3;
     expectedRefinementRequest h q a2 a0 a1 a3;
     expectedRefinementRequest h q a3 a0 a1 a2].
Proof. reflexivity. Qed.

Lemma synthesisRequest_expected (h : list Content) (q : jsstring)
    (r0 r1 r2 r3 : option jsstring) :
  synthesisRequest h q [r0; r1; r2; r3] = expectedSynthesisRequest h q r0 r1 r2 r3.
Proof. reflexivity. Qed.

(** The run up to the second fan-out. *)
Lemma exec_initialRun (st : AppState) (q : jsstring)
    (initial : list (option jsstring)) (p1 : list nat) :
  isLoading st = false → truthy (trim q) = true →
  length initial = 4 → p1 ≡ₚ seq 0 4 →
  let r := length (runs st) in
  exec st (Submit q Constructed :: fulfilAll r p1 initial) =
    ({| messages := messages st ++ [userTurn q];
        isLoading := true;
        loadingStatus := lit "Refining answers...";
        runs := runs st ++
                [AwaitRefined q (messages st) initial (replicate 4 Pending)] |},
     imap (Issued r Initial) (replicate 4 (initialRequest (messages st) q)) ++
     completions r Initial p1 initial ++
     imap (Issued r Refinement) (refinementAgentPromises (messages st) q initial)).
Proof.
  intros Hl Hq Hi Hp1 r.
  rewrite exec_cons.
  assert (step st (Submit q Constructed) = handleSubmit st q Constructed) as ->
    by (simpl; by rewrite Hl).
  rewrite (handleSubmit_accept _ _ Hq). cbn [fst snd].
  erewrite (exec_initial_stage _ r q (messages st) initial p1); try done;
    [|simpl; by rewrite lookup_app_r, Nat.sub_diag].
  cbn [fst snd]. f_equal.
  unfold setRun, setLoadingStatus. simpl. f_equal.
  subst r. replace (length (runs st)) with (length (runs st) + 0) at 1 by lia.
  by rewrite insert_app_r.
Qed.

(** The run up to the synthesis request. *)
Lemma exec_refinedRun (st : AppState) (q : jsstring)
    (initial refined : list (option jsstring)) (p1 p2 : list nat) :
  isLoading st = false → truthy (trim q) = true →
  length initial = 4 → length refined = 4 →
  p1 ≡ₚ seq 0 4 → p2 ≡ₚ seq 0 4 →
  let r := length (runs st) in
  exec st (Submit q Constructed :: fulfilAll r p1 initial ++ fulfilAll r p2 refined) =
    ({| messages := messages st ++ [userTurn q];
        isLoading := true;
        loadingStatus := lit "Synthesizing final response...";
        runs := runs st ++ [AwaitFinal q (messages st) initial refined] |},
     imap (Issued r Initial) (replicate 4 (initialRequest (messages st) q)) ++
     completions r Initial p1 initial ++
     imap (Issued r Refinement) (refinementAgentPromises (messages st) q initial) ++
     completions r Refinement p2 refined ++
     [Issued r Synthesis 0 (synthesisRequest (messages st) q refined)]).
Proof.
  intros Hl Hq Hi Hr Hp1 Hp2 r.
  change (Submit q Constructed :: fulfilAll r p1 initial ++ fulfilAll r p2 refined)
    with ((Submit q Constructed :: fulfilAll r p1 initial) ++ fulfilAll r p2 refined).
  rewrite exec_app. subst r. rewrite exec_initialRun by done.
  erewrite (exec_refined_stage _ (length (runs st)) q (messages st) initial refined p2);
    try done; [|simpl; by rewrite lookup_app_r, Nat.sub_diag].
  f_equal.
  - unfold setRun, setLoadingStatus. simpl. f_equal.
    replace (length (runs st)) with (length (runs st) + 0) at 1 by lia.
    by rewrite insert_app_r.
  - by rewrite <- !(assoc_L (++)).
Qed.

Lemma reachable_trace_inv (ins : list Input) (r : nat) :
  trace_inv r (exec init ins).1 (exec init ins).2.
Proof.
  assert (trace_inv r init []) as Hinit.
  { split.
    - unfold run_log. simpl. by intros e ?%elem_of_nil.
    - repeat split; try (by intros ? ? ? ?); by intros ? ?%elem_of_nil. }
  apply (exec_trace_inv r ins init [] Hinit).
Qed.

(** When [Promise.all] resolves, every text it resolves with is the one
    the call of that index was fulfilled with in the log. *)
Lemma join_logged (r : nat) (s : Stage) (slots : list Slot) (l : list Event)
    (k : nat) (o : Settled) (texts : list (option jsstring)) :
  logged r s slots l → promiseAll slots k o = Resolved texts →
  ∀ j a, texts !! j = Some a →
    Completed r s j (Fulfils a) ∈ l ++ [Completed r s k o].
Proof.
  intros Hlog Hp j a Hj.
  apply promiseAll_Resolved_inv in Hp as (t & -> & Hk & Hall).
  apply (logged_insert r s slots l k t Hlog).
  by rewrite Hall, list_lookup_fmap, Hj.
Qed.

Lemma elem_of_app_cons_l {A} (l : list A) (x y : A) (l' : list A) :
  x ∈ l ++ [y] → x ∈ l ++ y :: l'.
Proof.
  intros [H|H]%elem_of_app; apply elem_of_app; [by left|right].
  apply list_elem_of_singleton in H as ->. left.
Qed.

Lemma issuedAt_Completed (s : Stage) (r : nat) (s' : Stage) (k : nat)
    (o : Settled) (l : list Event) :
  issuedAt s (Completed r s' k o :: l) = issuedAt s l.
Proof. reflexivity. Qed.

(** What a step can issue at stage 1, in any execution. *)
Lemma step_issues_initial (ins : list Input) (inp : Input) :
  let st := (exec init ins).1 in
  let evs := (step st inp).2 in
  issuedAt Initial evs = [] ∨
  ∃ q,
    inp = Submit q Constructed ∧
    issuedAt Initial evs =
      [(length (runs st), 0, expectedInitialRequest (messages st) q);
       (length (runs st), 1, expectedInitialRequest (messages st) q);
       (length (runs st), 2, expectedInitialRequest (messages st) q);
       (length (runs st), 3, expectedInitialRequest (messages st) q)].
Proof.
  intros st evs. subst evs. destruct inp as [q ai|r k o]; simpl.
  - destruct (isLoading st); [by left|].
    destruct (truthy (trim q)) eqn:Hq;
      [|rewrite (handleSubmit_blank _ _ _ Hq); by left].
    destruct ai; [|rewrite (handleSubmit_throws _ _ Hq); by left].
    rewrite (handleSubmit_accept _ _ Hq). right. by exists q.
  - left. unfold settle.
    destruct (runs st !! r) as [[q h slots|q h ia slots|q h ia ra|]|]; try done.
    + destruct (promiseAll slots k o) as [|?|texts|]; try done.
      simpl. by apply issuedAt_imap_ne.
    + by destruct (promiseAll slots k o).
    + destruct k; [destruct o|]; done.
Qed.

(** What a step can issue at stage 2, in any execution. *)
Lemma step_issues_refinement (ins : list Input) (inp : Input) :
  let st := (exec init ins).1 in
  let evs := (step st inp).2 in
  issuedAt Refinement evs = [] ∨
  ∃ r h q a0 a1 a2 a3,
    issuedAt Refinement evs =
      [(r, 0, expectedRefinementRequest h q a0 a1 a2 a3);
       (r, 1, expectedRefinementRequest h q a1 a0 a2 a3);
       (r, 2, expectedRefinementRequest h q a2 a0 a1 a3);
       (r, 3, expectedRefinementRequest h q a3 a0 a1 a2)] ∧
    messages st = h ++ [userTurn q] ∧
    ∀ j a, [a0; a1; a2; a3] !! j = Some a →
      Completed r Initial j (Fulfils a) ∈ (exec init ins).2 ++ evs.
Proof.
  intros st evs. subst evs. destruct inp as [q ai|r k o]; simpl.
  - left. destruct (isLoading st); [done|].
    destruct (truthy (trim q)) eqn:Hq;
      [|by rewrite (handleSubmit_blank _ _ _ Hq)].
    destruct ai; [|by rewrite (handleSubmit_throws _ _ Hq)].
    by rewrite (handleSubmit_accept _ _ Hq).
  - destruct (reachable_trace_inv ins r) as [Hlog _]. fold st in Hlog.
    destruct (reachable_coherent ins) as (_ & _ & _ & Hsnap). fold st in Hsnap.
    unfold run_log in Hlog. unfold settle.
    destruct (runs st !! r) as [[q h slots|q h ia slots|q h ia ra|]|] eqn:Hr;
      try (by left).
    + destruct Hlog as (Hlen & Hlogged & _).
      destruct (promiseAll slots k o) as [|?|texts|] eqn:Hp; try (by left).
      right.
      pose proof (promiseAll_Resolved_length _ _ _ _ Hp) as Htexts.
      rewrite Hlen in Htexts.
      pose proof (join_logged r Initial slots _ k o texts Hlogged Hp) as Hjoin.
      destruct texts as [|a0 [|a1 [|a2 [|a3 [|]]]]]; try discriminate Htexts.
      exists r, h, q, a0, a1, a2, a3. split; [|split].
      * cbn [snd].
        by rewrite issuedAt_Completed, issuedAt_imap_eq,
          refinementAgentPromises_expected.
      * by apply (Hsnap r (AwaitInitial q h slots)).
      * intros j a Hj. cbn [snd]. by apply elem_of_app_cons_l, Hjoin.
    + destruct (promiseAll slots k o); by left.
    + destruct k; [destruct o|]; by left.
Qed.

(** What a step can issue at the synthesis stage, in any execution. *)
Lemma step_issues_synthesis (ins : list Input) (inp : Input) :
  let st := (exec init ins).1 in
  let evs := (step st inp).2 in
  issuedAt Synthesis evs = [] ∨
  ∃ r h q r0 r1 r2 r3,
    issuedAt Synthesis evs = [(r, 0, expectedSynthesisRequest h q r0 r1 r2 r3)] ∧
    messages st = h ++ [userTurn q] ∧
    ∀ j t, [r0; r1; r2; r3] !! j = Some t →
      Completed r Refinement j (Fulfils t) ∈ (exec init ins).2 ++ evs.
Proof.
  intros st evs. subst evs. destruct inp as [q ai|r k o]; simpl.
  - left. destruct (isLoading st); [done|].
    destruct (truthy (trim q)) eqn:Hq;
      [|by rewrite (handleSubmit_blank _ _ _ Hq)].
    destruct ai; [|by rewrite (handleSubmit_throws _ _ Hq)].
    by rewrite (handleSubmit_accept _ _ Hq).
  - destruct (reachable_trace_inv ins r) as [Hlog _]. fold st in Hlog.
    destruct (reachable_coherent ins) as (_ & _ & _ & Hsnap). fold st in Hsnap.
    unfold run_log in Hlog. unfold settle.
    destruct (runs st !! r) as [[q h slots|q h ia slots|q h ia ra|]|] eqn:Hr;
      try (by left).
    + destruct (promiseAll slots k o) as [|?|texts|]; try (by left).
      left. simpl. by apply issuedAt_imap_ne.
    + destruct Hlog as (Hlen & Hlogged & _).
      destruct (promiseAll slots k o) as [|?|texts|] eqn:Hp; try (by left).
      right.
      pose proof (promiseAll_Resolved_length _ _ _ _ Hp) as Htexts.
      rewrite Hlen in Htexts.
      pose proof (join_logged r Refinement slots _ k o texts Hlogged Hp) as Hjoin.
      destruct texts as [|r0 [|r1 [|r2 [|r3 [|]]]]]; try discriminate Htexts.
      exists r, h, q, r0, r1, r2, r3. split; [|split].
      * done.
      * by apply (Hsnap r (AwaitRefined q h ia slots)).
      * intros j a Hj. cbn [snd]. by apply elem_of_app_cons_l, Hjoin.
    + destruct k; [destruct o|]; by left.
Qed.

(** C4: from any state that accepts the query, the submission issues the
    stage-1 fan-out: exactly four requests, all the same request, the
    history followed by the query, with the instruction of stage 1.  When
    the four calls have been fulfilled with [a0..a3], in whatever order,
    the run has issued the stage-2 fan-out: exactly four requests, the one
    of agent [i] quoting [ai] as its own answer and the three other
    answers, in index order, as the other agents', never [ai] again.  And
    in every execution a step issues either no stage-1 request or those
    four, and either no stage-2 request or four of that form, for answers
    the stage-1 calls of the run were fulfilled with. *)
Theorem fan_out_requests (st : AppState) (q : jsstring)
    (a0 a1 a2 a3 : option jsstring) (p : list nat) :
  isLoading st = false → truthy (trim q) = true → p ≡ₚ seq 0 4 →
  let r := length (runs st) in
  let h := messages st in
  let log := (exec st (Submit q Constructed :: fulfilAll r p [a0; a1; a2; a3])).2 in
  (step st (Submit q Constructed)).2 =
    [Issued r Initial 0 (expectedInitialRequest h q);
     Issued r Initial 1 (expectedInitialRequest h q);
     Issued r Initial 2 (expectedInitialRequest h q);
     Issued r Initial 3 (expectedInitialRequest h q)] ∧
  issuedAt Initial log =
    [(r, 0, expectedInitialRequest h q);
     (r, 1, expectedInitialRequest h q);
     (r, 2, expectedInitialRequest h q);
     (r, 3, expectedInitialRequest h q)] ∧
  issuedAt Refinement log =
    [(r, 0, expectedRefinementRequest h q a0 a1 a2 a3);
     (r, 1, expectedRefinementRequest h q a1 a0 a2 a3);
     (r, 2, expectedRefinementRequest h q a2 a0 a1 a3);
     (r, 3, expectedRefinementRequest h q a3 a0 a1 a2)] ∧
  (∀ ins inp,
     let st := (exec init ins).1 in
     let evs := (step st inp).2 in
     (issuedAt Initial evs = [] ∨
      ∃ q,
        inp = Submit q Constructed ∧
        issuedAt Initial evs =
          [(length (runs st), 0, expectedInitialRequest (messages st) q);
           (length (runs st), 1, expectedInitialRequest (messages st) q);
           (length (runs st), 2, expectedInitialRequest (messages st) q);
           (length (runs st), 3, expectedInitialRequest (messages st) q)]) ∧
     (issuedAt Refinement evs = [] ∨
      ∃ r h q a0 a1 a2 a3,
        issuedAt Refinement evs =
          [(r, 0, expectedRefinementRequest h q a0 a1 a2 a3);
           (r, 1, expectedRefinementRequest h q a1 a0 a2 a3);
           (r, 2, expectedRefinementRequest h q a2 a0 a1 a3);
           (r, 3, expectedRefinementRequest h q a3 a0 a1 a2)] ∧
        messages st = h ++ [userTurn q] ∧
        ∀ j a, [a0; a1; a2; a3] !! j = Some a →
          Completed r Initial j (Fulfils a) ∈ (exec init ins).2 ++ evs)).
Proof.
  intros Hl Hq Hp r h log. repeat split.
  - simpl. rewrite Hl. by rewrite (handleSubmit_accept _ _ Hq).
  - subst log r. rewrite exec_initialRun by done. cbn [snd].
    rewrite !issuedAt_app, issuedAt_completions, issuedAt_imap_eq.
    rewrite issuedAt_imap_ne by done. by rewrite (right_id_L [] (++)).
  - subst log r. rewrite exec_initialRun by done. cbn [snd].
    rewrite !issuedAt_app, issuedAt_completions, issuedAt_imap_eq.
    rewrite issuedAt_imap_ne by done.
    by rewrite refinementAgentPromises_expected.
  - apply step_issues_initial.
  - apply step_issues_refinement.
Qed.

Lemma fan_out_requests_witness :
  let q := lit "Define entropy." in
  let a0 := Some (lit "I0") in
  let a1 := Some (lit "I1") in
  let a2 := None in
  let a3 := Some (lit "I3") in
  let log := (exec init (Submit q Constructed :: fulfilAll 0 [2; 0; 3; 1] [a0; a1; a2; a3])).2 in
  (step init (Submit q Constructed)).2 =
    [Issued 0 Initial 0 (expectedInitialRequest [] q);
     Issued 0 Initial 1 (expectedInitialRequest [] q);
     Issued 0 Initial 2 (expectedInitialRequest [] q);
     Issued 0 Initial 3 (expectedInitialRequest [] q)] ∧
  issuedAt Initial log =
    [(0, 0, expectedInitialRequest [] q);
     (0, 1, expectedInitialRequest [] q);
     (0, 2, expectedInitialRequest [] q);
     (0, 3, expectedInitialRequest [] q)] ∧
  issuedAt Refinement log =
    [(0, 0, expectedRefinementRequest [] q a0 a1 a2 a3);
     (0, 1, expectedRefinementRequest [] q a1 a0 a2 a3);
     (0, 2, expectedRefinementRequest [] q a2 a0 a1 a3);
     (0, 3, expectedRefinementRequest [] q a3 a0 a1 a2)].
Proof.
  pose proof (fan_out_requests init (lit "Define entropy.")
                (Some (lit "I0")) (Some (lit "I1")) None (Some (lit "I3"))
                [2; 0; 3; 1] eq_refl eq_refl) as H.
  destruct H as (H1 & H2 & H3 & _).
  - apply (bool_decide_unpack _); vm_compute; exact I.
  - exact (conj H1 (conj H2 H3)).
Defined.

(** C5: from any state that accepts the query, when the stage-1 calls have
    been fulfilled with any four answers and the stage-2 calls with
    [r0..r3], call [k] with [rk], in whatever orders, the run has issued
    exactly one synthesis request; its prompt quotes [r0], [r1], [r2] and
    [r3], in this order, as Refined Response 1 to 4, and nothing of the
    initial answers: the request is the same whatever they were.  And in
    every execution a step issues either no synthesis request or exactly
    one of that form, for four texts the stage-2 calls of the run were
    fulfilled with, by index. *)
Theorem synthesis_prompt_embeds_refined (st : AppState) (q : jsstring)
    (initial : list (option jsstring)) (r0 r1 r2 r3 : option jsstring)
    (p1 p2 : list nat) :
  isLoading st = false → truthy (trim q) = true →
  length initial = 4 → p1 ≡ₚ seq 0 4 → p2 ≡ₚ seq 0 4 →
  let r := length (runs st) in
  let log :=
    (exec st (Submit q Constructed ::
              fulfilAll r p1 initial ++ fulfilAll r p2 [r0; r1; r2; r3])).2 in
  issuedAt Synthesis log =
    [(r, 0,
      {| model := lit "gemini-2.5-pro";
         contents :=
           messages st ++
           [userTurn
              (q ++ INTERNAL_CONTEXT ++
               lit "Here are the four refined responses to the user's query. Your task is to synthesize them into the best single, final answer." ++
               nl ++ nl ++ lit "Refined Response 1:" ++ nl ++ dq ++ interp r0 ++ dq ++
               nl ++ nl ++ lit "Refined Response 2:" ++ nl ++ dq ++ interp r1 ++ dq ++
               nl ++ nl ++ lit "Refined Response 3:" ++ nl ++ dq ++ interp r2 ++ dq ++
               nl ++ nl ++ lit "Refined Response 4:" ++ nl ++ dq ++ interp r3 ++ dq)];
         config := {| systemInstruction := SYNTHESIZER_SYSTEM_INSTRUCTION |} |})] ∧
  issuedAt Synthesis log =
    [(r, 0, expectedSynthesisRequest (messages st) q r0 r1 r2 r3)] ∧
  (∀ initial' p1' p2',
     length initial' = 4 → p1' ≡ₚ seq 0 4 → p2' ≡ₚ seq 0 4 →
     issuedAt Synthesis
       (exec st (Submit q Constructed ::
                 fulfilAll r p1' initial' ++ fulfilAll r p2' [r0; r1; r2; r3])).2 =
     issuedAt Synthesis log) ∧
  (∀ ins inp,
     let st := (exec init ins).1 in
     let evs := (step st inp).2 in
     issuedAt Synthesis evs = [] ∨
     ∃ r h q r0 r1 r2 r3,
       issuedAt Synthesis evs = [(r, 0, expectedSynthesisRequest h q r0 r1 r2 r3)] ∧
       messages st = h ++ [userTurn q] ∧
       ∀ j t, [r0; r1; r2; r3] !! j = Some t →
         Completed r Refinement j (Fulfils t) ∈ (exec init ins).2 ++ evs).
Proof.
  intros Hl Hq Hi Hp1 Hp2 r log.
  assert (∀ initial p1 p2,
            length initial = 4 → p1 ≡ₚ seq 0 4 → p2 ≡ₚ seq 0 4 →
            issuedAt Synthesis
              (exec st (Submit q Constructed ::
                        fulfilAll r p1 initial ++ fulfilAll r p2 [r0; r1; r2; r3])).2 =
            [(r, 0, expectedSynthesisRequest (messages st) q r0 r1 r2 r3)]) as Hrun.
  { intros ia q1 q2 Hia Hq1 Hq2. subst r.
    rewrite exec_refinedRun by done. cbn [snd].
    rewrite !issuedAt_app, !issuedAt_completions.
    by rewrite !issuedAt_imap_ne by done. }
  subst log. rewrite !Hrun by done. repeat split.
  - intros. by apply Hrun.
  - apply step_issues_synthesis.
Qed.

Lemma synthesis_prompt_embeds_refined_witness :
  let q := lit "Define entropy." in
  let initial := [Some (lit "I0"); Some (lit "I1"); Some (lit "I2"); Some (lit "I3")] in
  let r0 := Some (lit "R0") in
  let r1 := Some (lit "R1") in
  let r2 := Some (lit "R2") in
  let r3 := Some (lit "R3") in
  let log :=
    (exec init (Submit q Constructed ::
                fulfilAll 0 [1; 0; 3; 2] initial ++
                fulfilAll 0 [3; 1; 0; 2] [r0; r1; r2; r3])).2 in
  issuedAt Synthesis log =
    [(0, 0, expectedSynthesisRequest [] q r0 r1 r2 r3)].
Proof.
  refine (proj1 (proj2
            (synthesis_prompt_embeds_refined init (lit "Define entropy.")
               [Some (lit "I0"); Some (lit "I1"); Some (lit "I2"); Some (lit "I3")]
               (Some (lit "R0")) (Some (lit "R1")) (Some (lit "R2")) (Some (lit "R3"))
               [1; 0; 3; 2] [3; 1; 0; 2] _ _ _ _ _)));
    try reflexivity; apply (bool_decide_unpack _); vm_compute; exact I.
Defined.

(** ** A failed run *)

Lemma exec_app_fst (st : AppState) (ins1 ins2 : list Input) :
  (exec st (ins1 ++ ins2)).1 = (exec (exec st ins1).1 ins2).1.
Proof.
  rewrite exec_app. destruct (exec st ins1) as [st1 evs1]. simpl.
  by destruct (exec st1 ins2).
Qed.

Lemma exec_holds_state (r : nat) (q : jsstring) (h : list Content) (ins : list Input) :
  ∀ st, holds r q h st → holds r q h (exec st ins).1.
Proof.
  induction ins as [|inp ins IH]; intros st Hst; [done|].
  rewrite exec_cons. cbn [fst]. apply IH. by apply step_holds.
Qed.

(** With no run in progress a settlement is not observed. *)
Lemma settle_idle (st : AppState) (r k : nat) (o : Settled) :
  exclusive st → isLoading st = false → settle st r k o = (st, []).
Proof.
  intros [Hlive _] Hl. unfold settle.
  destruct (runs st !! r) as [run|] eqn:Hr; [|done].
  destruct run; try done; destruct (Hlive _ _ Hr eq_refl); congruence.
Qed.

Lemma exec_idle_settlements (st : AppState) (post : list Input) :
  exclusive st → isLoading st = false → Forall isSettle post →
  exec st post = (st, []).
Proof.
  intros Hex Hl. induction 1 as [|i post Hi _ IH]; [done|].
  destruct i as [|r k o]; [done|].
  rewrite exec_cons. simpl step. rewrite settle_idle by done.
  cbn [fst snd]. by rewrite IH.
Qed.

(** The history while a run started on [st] with [q] is awaiting a call. *)
Lemma live_run_messages (ins : list Input) (q : jsstring) (pre : list Input)
    (k : nat) (stage : Stage) :
  let st := (exec init ins).1 in
  let st1 := (exec st (Submit q Constructed :: pre)).1 in
  isLoading st = false → truthy (trim q) = true →
  awaiting st1 (length (runs st)) k = Some stage →
  coherent st1 ∧ messages st1 = messages st ++ [userTurn q].
Proof.
  intros st st1 Hl Hq Ha.
  assert (coherent st1) as Hco.
  { subst st1 st. rewrite <- exec_app_fst. apply reachable_coherent. }
  split; [done|].
  assert (holds (length (runs st)) q (messages st) st1) as (run & Hr & Hc).
  { subst st1. rewrite exec_cons. cbn [fst]. apply exec_holds_state.
    simpl. rewrite Hl, (handleSubmit_accept _ _ Hq). simpl.
    eexists. split; [simpl; by rewrite lookup_app_r, Nat.sub_diag|]. by right. }
  destruct Hco as (_ & _ & _ & Hsnap).
  destruct Hc as [Hc|Hc]; [|by apply (Hsnap _ _ _ _ Hr Hc)].
  unfold awaiting in Ha. rewrite Hr in Ha. by destruct run.
Qed.

(** C2: a run that fails leaves nothing of its partial results in the
    history.  From any reachable state that accepts the query [q],
    whatever happens after the submission (settlements in any order, with
    any answers), as long as the run is awaiting a call the history is the
    history before the run followed by the user's turn: no answer of stage
    1 or stage 2 has been written into it.  When a call the run awaits
    then fails, at whichever stage, the handler observes that one failure,
    appends one turn, requests nothing more and returns; the turn is the
    failure notice, the same fixed sentence whatever the answers received
    so far were, and no text of a response.  After that, whatever the
    other calls settle with changes neither the history nor anything else,
    and nothing more is requested. *)
Theorem failed_run_writes_no_partial_result (ins : list Input) (q : jsstring)
    (pre post : list Input) (k : nat) (stage : Stage) :
  let st := (exec init ins).1 in
  let r := length (runs st) in
  let st1 := (exec st (Submit q Constructed :: pre)).1 in
  let failure := step st1 (Settle r k Rejects) in
  isLoading st = false → truthy (trim q) = true →
  awaiting st1 r k = Some stage →
  Forall isSettle post →
  messages st1 = messages st ++ [userTurn q] ∧
  failure.2 = [Completed r stage k Rejects] ∧
  messages failure.1 =
    messages st ++
    [userTurn q;
     {| role := Model;
        parts := [ {| text := Some (lit "Sorry, I encountered an error. Please try again.") |} ] |}] ∧
  isLoading failure.1 = false ∧
  runs failure.1 !! r = Some Returned ∧
  exec failure.1 post = (failure.1, []).
Proof.
  intros st r st1 failure Hl Hq Ha Hpost.
  destruct (live_run_messages ins q pre k stage Hl Hq Ha) as [Hco Hms].
  fold st st1 in Hco, Hms.
  assert (failure = (catchBlock r st1, [Completed r stage k Rejects])) as Hf.
  { subst failure. simpl. by apply settle_Rejects. }
  assert (exclusive failure.1) as Hex.
  { subst failure. apply step_exclusive, Hco. }
  rewrite Hf in *. cbn [fst snd] in *. repeat split.
  - done.
  - simpl. by rewrite Hms, <- (assoc_L (++)).
  - simpl. apply list_lookup_insert_eq.
    unfold awaiting in Ha.
    destruct (runs st1 !! r) eqn:Hr; [|done]. by eapply lookup_lt_Some.
  - by apply exec_idle_settlements.
Qed.

Lemma failed_run_writes_no_partial_result_witness :
  let q := lit "Define entropy." in
  let pre :=
    fulfilAll 0 [2; 0; 3; 1]
      [Some (lit "I0"); Some (lit "I1"); Some (lit "I2"); Some (lit "I3")] ++
    [Settle 0 1 (Fulfils (Some (lit "R1")))] in
  let post := [Settle 0 0 (Fulfils (Some (lit "R0"))); Settle 0 3 Rejects] in
  let st1 := (exec init (Submit q Constructed :: pre)).1 in
  let failure := step st1 (Settle 0 2 Rejects) in
  messages st1 = [userTurn q] ∧
  failure.2 = [Completed 0 Refinement 2 Rejects] ∧
  messages failure.1 =
    [userTurn q;
     {| role := Model;
        parts := [ {| text := Some (lit "Sorry, I encountered an error. Please try again.") |} ] |}] ∧
  isLoading failure.1 = false ∧
  runs failure.1 !! 0 = Some Returned ∧
  exec failure.1 post = (failure.1, []).
Proof.
  apply (failed_run_writes_no_partial_result [] (lit "Define entropy.")
           (fulfilAll 0 [2; 0; 3; 1]
              [Some (lit "I0"); Some (lit "I1"); Some (lit "I2"); Some (lit "I3")] ++
            [Settle 0 1 (Fulfils (Some (lit "R1")))])
           [Settle 0 0 (Fulfils (Some (lit "R0"))); Settle 0 3 Rejects]
           2 Refinement);
    try reflexivity.
  repeat constructor.
Defined.

(** * Further properties *)

(** ** Which submissions are accepted *)

(** X1: a submission leaves the component as it is, and issues nothing,
    exactly when the form is disabled or the text is blank.  Otherwise the
    text is recorded as typed, untrimmed, as a user turn, and a new
    invocation starts: when the client is constructed the form is disabled
    and the four stage-1 calls are in flight on the history as it was;
    when constructing the client throws, the failure notice follows the
    user's turn at once, the form stays enabled, the status is untouched,
    the invocation has returned and nothing was requested. *)
Theorem submission_rejected_iff (st : AppState) (q : jsstring) (ai : NewClient) :
  (step st (Submit q ai) = (st, []) ↔
     isLoading st = true ∨ Forall (λ c, isWhiteSpace c = true) q) ∧
  (isLoading st = false → ¬ Forall (λ c, isWhiteSpace c = true) q →
     let st' := (step st (Submit q ai)).1 in
     let evs := (step st (Submit q ai)).2 in
     match ai with
     | Constructed =>
         messages st' = messages st ++ [userTurn q] ∧
         isLoading st' = true ∧
         runs st' = runs st ++ [AwaitInitial q (messages st) (replicate 4 Pending)] ∧
         length (issuedAt Initial evs) = 4
     | Throws =>
         messages st' =
           messages st ++
           [userTurn q;
            {| role := Model;
               parts := [ {| text := Some (lit "Sorry, I encountered an error. Please try again.") |} ] |}] ∧
         isLoading st' = false ∧
         loadingStatus st' = loadingStatus st ∧
         runs st' = runs st ++ [Returned] ∧
         evs = []
     end).
Proof.
  split; [split|].
  - intros Hstep. simpl in Hstep.
    destruct (isLoading st) eqn:Hl; [by left|right].
    destruct (truthy (trim q)) eqn:Hq.
    + exfalso. destruct ai.
      * rewrite (handleSubmit_accept _ _ Hq) in Hstep. by injection Hstep.
      * rewrite (handleSubmit_throws _ _ Hq) in Hstep.
        injection Hstep as Hst. apply (f_equal (λ x, length (messages x))) in Hst.
        simpl in Hst. rewrite length_app in Hst. simpl in Hst. lia.
    + apply trim_nil_blank. by destruct (trim q).
  - intros [Hl|Hq]; simpl.
    + by rewrite Hl.
    + destruct (isLoading st); [done|].
      apply handleSubmit_blank. by rewrite (trim_blank _ Hq).
  - intros Hl Hq%nonblank_truthy. simpl. rewrite Hl. destruct ai.
    + by rewrite (handleSubmit_accept _ _ Hq).
    + by rewrite (handleSubmit_throws _ _ Hq).
Qed.

Lemma submission_rejected_iff_witness :
  let st' := (step init (Submit (lit " hi ") Throws)).1 in
  let evs := (step init (Submit (lit " hi ") Throws)).2 in
  messages st' =
    messages init ++
    [userTurn (lit " hi ");
     {| role := Model;
        parts := [ {| text := Some (lit "Sorry, I encountered an error. Please try again.") |} ] |}] ∧
  isLoading st' = false ∧
  loadingStatus st' = loadingStatus init ∧
  runs st' = runs init ++ [Returned] ∧
  evs = [].
Proof.
  apply (submission_rejected_iff init (lit " hi ") Throws); [reflexivity|].
  intros H. inversion H as [|? ? _ H']. inversion H' as [|? ? Hc _].
  vm_compute in Hc. discriminate Hc.
Defined.

(** ** Events of an execution *)

(** A property of events that every step from a state satisfying an
    invariant establishes holds of the whole log. *)
Lemma exec_events (P : AppState → Prop) (Q : Event → Prop) :
  (∀ st i, P st → P (step st i).1) →
  (∀ st i e, P st → e ∈ (step st i).2 → Q e) →
  ∀ ins st e, P st → e ∈ (exec st ins).2 → Q e.
Proof.
  intros HP HQ. induction ins as [|i ins IH]; intros st e Hst.
  - by intros ?%elem_of_nil.
  - rewrite exec_cons. cbn [snd].
    intros [He|He]%elem_of_app; [by eapply HQ|].
    eapply IH; [|done]. by apply HP.
Qed.

(** ** Where the turns of the history come from *)

Lemma settle_messages (st : AppState) (r k : nat) (o : Settled) (m : Message) :
  m ∈ messages (settle st r k o).1 →
  m ∈ messages st ∨
  (m = errorMessage ∧ ∃ s, Completed r s k Rejects ∈ (settle st r k o).2) ∨
  (∃ t, m = modelTurn t ∧ Completed r Synthesis 0 (Fulfils t) ∈ (settle st r k o).2).
Proof.
  unfold settle.
  destruct (runs st !! r) as [[q h slots|q h ia slots|q h ia ra|]|]; auto.
  - destruct (promiseAll slots k o) eqn:Hp; simpl; auto.
    apply promiseAll_Rejected_inv in Hp as [-> _].
    intros [Hm|Hm]%elem_of_app; [by left|].
    apply list_elem_of_singleton in Hm as ->.
    right. left. split; [done|]. exists Initial. left.
  - destruct (promiseAll slots k o) eqn:Hp; simpl; auto.
    apply promiseAll_Rejected_inv in Hp as [-> _].
    intros [Hm|Hm]%elem_of_app; [by left|].
    apply list_elem_of_singleton in Hm as ->.
    right. left. split; [done|]. exists Refinement. left.
  - destruct k; auto. destruct o as [t|]; simpl.
    + intros [Hm|Hm]%elem_of_app; [by left|].
    apply list_elem_of_singleton in Hm as ->.
      right. right. exists t. split; [done|left].
    + intros [Hm|Hm]%elem_of_app; [by left|].
    apply list_elem_of_singleton in Hm as ->.
      right. left. split; [done|]. exists Synthesis. left.
Qed.

Lemma exec_messages (ins : list Input) :
  ∀ st m, m ∈ messages (exec st ins).1 →
  m ∈ messages st ∨
  (∃ q ai, Submit q ai ∈ ins ∧ truthy (trim q) = true ∧ m = userTurn q) ∨
  (m = errorMessage ∧
   ((∃ r s k, Completed r s k Rejects ∈ (exec st ins).2) ∨
    (∃ q, Submit q Throws ∈ ins ∧ truthy (trim q) = true))) ∨
  (∃ r t, m = modelTurn t ∧ Completed r Synthesis 0 (Fulfils t) ∈ (exec st ins).2).
Proof.
  induction ins as [|i ins IH]; intros st m; [by left|].
  rewrite exec_cons. cbn [fst snd]. intros Hm.
  destruct (IH _ _ Hm)
    as [Hst|[(q & ai & Hq & Hnb & ->)|[(-> & Herr)|(r & t & -> & He)]]].
  - destruct i as [q ai|r k o].
    + simpl in Hst. destruct (isLoading st); [by left|].
      destruct (truthy (trim q)) eqn:Hq;
        [|rewrite (handleSubmit_blank _ _ _ Hq) in Hst; by left].
      destruct ai.
      * rewrite (handleSubmit_accept _ _ Hq) in Hst. simpl in Hst.
        apply elem_of_app in Hst as [Hst|Hst]; [by left|].
        apply list_elem_of_singleton in Hst as ->.
        right. left. exists q, Constructed. repeat split; [left|done].
      * rewrite (handleSubmit_throws _ _ Hq) in Hst. simpl in Hst.
        apply elem_of_app in Hst as [Hst|Hst]; [by left|].
        apply elem_of_cons in Hst as [->|Hst].
        -- right. left. exists q, Throws. repeat split; [left|done].
        -- apply list_elem_of_singleton in Hst as ->.
           right. right. left. split; [done|]. right. exists q. split; [left|done].
    + simpl in Hst.
      destruct (settle_messages _ _ _ _ _ Hst) as [?|[(-> & s & He)|(t & -> & He)]].
      * by left.
      * right. right. left. split; [done|]. left. exists r, s, k.
        apply elem_of_app. by left.
      * right. right. right. exists r, t. split; [done|].
        apply elem_of_app. by left.
  - right. left. exists q, ai. repeat split; [by right|done].
  - right. right. left. split; [done|].
    destruct Herr as [(r & s & k & He)|(q & Hq & Hnb)].
    + left. exists r, s, k. apply elem_of_app. by right.
    + right. exists q. split; [by right|done].
  - right. right. right. exists r, t. split; [done|]. apply elem_of_app. by right.
Qed.

(** X2: in every execution, each turn of the history is the text of an
    accepted submission as a user turn, or the fixed failure notice, put
    there because a call was reported failed or because the client could
    not be constructed for an accepted submission, or the text a synthesis
    call was fulfilled with as a model turn; no stage-1 or stage-2 answer
    ever becomes a turn, and every turn has exactly one part. *)
Theorem history_turns_provenance (ins : list Input) (m : Message) :
  m ∈ messages (exec init ins).1 →
  length (parts m) = 1 ∧
  ((∃ q ai, Submit q ai ∈ ins ∧ truthy (trim q) = true ∧ m = userTurn q) ∨
   (m = errorMessage ∧
    ((∃ r s k, Completed r s k Rejects ∈ (exec init ins).2) ∨
     (∃ q, Submit q Throws ∈ ins ∧ truthy (trim q) = true))) ∨
   (∃ r t, m = modelTurn t ∧ Completed r Synthesis 0 (Fulfils t) ∈ (exec init ins).2)).
Proof.
  intros Hm. apply exec_messages in Hm as [Hm|Hm].
  { by apply elem_of_nil in Hm. }
  split; [|done].
  destruct Hm as [(q & ai & _ & _ & ->)|[(-> & _)|(r & t & -> & _)]]; done.
Qed.

Lemma history_turns_provenance_witness :
  let ins := [Submit (lit "hi") Throws; Submit (lit "again") Constructed;
              Settle 1 1 (Fulfils (Some (lit "partial")))] in
  let m := errorMessage in
  length (parts m) = 1 ∧
  ((∃ q ai, Submit q ai ∈ ins ∧ truthy (trim q) = true ∧ m = userTurn q) ∨
   (m = errorMessage ∧
    ((∃ r s k, Completed r s k Rejects ∈ (exec init ins).2) ∨
     (∃ q, Submit q Throws ∈ ins ∧ truthy (trim q) = true))) ∨
   (∃ r t, m = modelTurn t ∧ Completed r Synthesis 0 (Fulfils t) ∈ (exec init ins).2)).
Proof.
  apply (history_turns_provenance
           [Submit (lit "hi") Throws; Submit (lit "again") Constructed;
            Settle 1 1 (Fulfils (Some (lit "partial")))] errorMessage).
  apply (list_elem_of_lookup_2 _ 1). reflexivity.
Defined.

(** ** The history alternates *)

(** X3: in every reachable state the history alternates user and model
    turns, the user's first; it ends with a user turn exactly while a run
    is in progress; and during a run it is the run's history snapshot
    followed by the user's turn, nothing else. *)
Theorem history_alternates (ins : list Input) :
  let st := (exec init ins).1 in
  (∀ i m, messages st !! i = Some m →
     role m = if Nat.even i then User else Model) ∧
  (Nat.even (length (messages st)) = negb (isLoading st)) ∧
  (∀ r q h slots,
     runs st !! r = Some (AwaitInitial q h slots) →
     messages st = h ++ [userTurn q]) ∧
  (∀ r q h ia slots,
     runs st !! r = Some (AwaitRefined q h ia slots) →
     messages st = h ++ [userTurn q]) ∧
  (∀ r q h ia ra,
     runs st !! r = Some (AwaitFinal q h ia ra) →
     messages st = h ++ [userTurn q]).
Proof.
  intros st. destruct (reachable_coherent ins) as (_ & Halt & Hlen & Hsnap).
  fold st in Halt, Hlen, Hsnap.
  repeat split; try done; intros; by eapply Hsnap.
Qed.

(** ** Rendering the history *)

(** X4: in every reachable state the message list renders without reading
    a missing part: there is one view per turn, alternately a "message
    user" view without label whose source is the text the user typed and a
    "message model" view with the agent label. *)
Theorem message_list_renders (ins : list Input) :
  let st := (exec init ins).1 in
  ∃ views,
    messageList (messages st) = Some views ∧
    length views = length (messages st) ∧
    ∀ i v, views !! i = Some v →
      className v = lit "message " ++ (if Nat.even i then lit "user" else lit "model") ∧
      agentLabel v = negb (Nat.even i) ∧
      (Nat.even i = true →
       ∃ q ai, Submit q ai ∈ ins ∧ source v = Some q).
Proof.
  intros st.
  destruct (reachable_coherent ins) as (_ & Halt & _). fold st in Halt.
  assert (is_Some (messageList (messages st))) as [views Hviews].
  { apply mapM_is_Some, Forall_forall. intros m Hm. simpl.
    apply exec_messages in Hm as [Hm|Hm]; [by apply elem_of_nil in Hm|].
    destruct Hm as [(q & ai & _ & _ & ->)|[(-> & _)|(r & t & -> & _)]]; by eexists. }
  exists views. split; [done|].
  apply mapM_Some in Hviews. split; [by apply Forall2_length in Hviews|].
  intros i v Hi.
  destruct (Forall2_lookup_r _ _ _ _ _ Hviews Hi) as (m & Hm & Hv).
  pose proof (Halt i m Hm) as Hrole.
  assert (m ∈ messages st) as Hin by (by eapply list_elem_of_lookup_2).
  apply exec_messages in Hin as [Hin|Hin]; [by apply elem_of_nil in Hin|].
  destruct Hin as [(q & ai & Hq & _ & ->)|[(-> & _)|(r & t & -> & _)]];
    injection Hv as <-; simpl in *; destruct (Nat.even i); try done.
  repeat split. intros _. eauto.
Qed.

(** ** Every request of an execution *)

Lemma settle_requests_wf (st : AppState) (r0 k : nat) (o : Settled)
    (r : nat) (s : Stage) (i : nat) (req : GenerateContentParameters) :
  wf st → Issued r s i req ∈ (settle st r0 k o).2 →
  model req = MODEL_NAME ∧
  systemInstruction (config req) = instructionOf s ∧
  i < widthOf s.
Proof.
  intros Hwf. unfold settle.
  destruct (runs st !! r0) as [[q h slots|q h ia slots|q h ia ra|]|] eqn:Hr;
    try (by intros ?%elem_of_nil).
  - pose proof (Forall_lookup_1 _ _ _ _ Hwf Hr) as Hrun. simpl in Hrun.
    destruct (promiseAll slots k o) as [|?|texts|] eqn:Hp; simpl;
      try (by intros ?%elem_of_nil); try (by intros [=]%list_elem_of_singleton).
    apply promiseAll_Resolved_length in Hp.
    intros [[=]|He]%elem_of_cons.
    apply elem_of_imap_Issued in He as (_ & -> & He).
    unfold refinementAgentPromises in He.
    pose proof (lookup_lt_Some _ _ _ He) as Hi. rewrite length_imap in Hi.
    apply list_lookup_imap_Some in He as (a & _ & ->).
    repeat split. simpl. lia.
  - destruct (promiseAll slots k o) as [|?|texts|] eqn:Hp; simpl;
      try (by intros ?%elem_of_nil); try (by intros [=]%list_elem_of_singleton).
    intros [[=]|He]%elem_of_cons.
    apply list_elem_of_singleton in He. injection He as -> -> -> ->.
    repeat split. simpl. lia.
  - destruct k; [|by intros ?%elem_of_nil].
    destruct o; simpl; by intros [=]%list_elem_of_singleton.
Qed.

(** X5: every request issued in any execution names the model
    "gemini-2.5-pro" and carries the system instruction of its own stage;
    the call index is below four in the two fan-outs and is zero for the
    synthesis. *)
Theorem requests_model_and_instruction (ins : list Input)
    (r : nat) (s : Stage) (i : nat) (req : GenerateContentParameters) :
  Issued r s i req ∈ (exec init ins).2 →
  model req = lit "gemini-2.5-pro" ∧
  systemInstruction (config req) =
    match s with
    | Initial => INITIAL_SYSTEM_INSTRUCTION
    | Refinement => REFINEMENT_SYSTEM_INSTRUCTION
    | Synthesis => SYNTHESIZER_SYSTEM_INSTRUCTION
    end ∧
  i < match s with Initial | Refinement => 4 | Synthesis => 1 end.
Proof.
  intros He.
  apply (exec_events wf
           (λ e, ∀ r s i req, e = Issued r s i req →
                 model req = MODEL_NAME ∧
                 systemInstruction (config req) = instructionOf s ∧
                 i < widthOf s)
           step_wf) with (e := Issued r s i req) (r := r) (s := s) (i := i) (req := req)
    in He; [done| |by constructor|done].
  clear. intros st inp e Hwf He r s i req ->.
  destruct inp as [q ai|r0 k o]; [|by eapply settle_requests_wf].
  simpl in He. destruct (isLoading st); [by apply elem_of_nil in He|].
  destruct (truthy (trim q)) eqn:Hq;
    [|rewrite (handleSubmit_blank _ _ _ Hq) in He; by apply elem_of_nil in He].
  destruct ai;
    [|rewrite (handleSubmit_throws _ _ Hq) in He; by apply elem_of_nil in He].
  rewrite (handleSubmit_accept _ _ Hq) in He. simpl in He.
  apply (elem_of_imap_Issued _ _ _ _ _ _ (replicate 4 _)) in He as (_ & -> & He).
  apply lookup_replicate in He as [-> Hi]. by repeat split.
Qed.

Lemma requests_model_and_instruction_witness :
  let ins := successfulRun 0 (lit "hi") [None; None; None; None]
               [Some (lit "a"); None; None; None] None [0; 1; 2; 3] [0; 1; 2; 3] in
  let req := synthesisRequest [] (lit "hi") [Some (lit "a"); None; None; None] in
  model req = lit "gemini-2.5-pro" ∧
  systemInstruction (config req) = SYNTHESIZER_SYSTEM_INSTRUCTION ∧
  0 < 1.
Proof.
  apply (requests_model_and_instruction
           (successfulRun 0 (lit "hi") [None; None; None; None]
              [Some (lit "a"); None; None; None] None [0; 1; 2; 3] [0; 1; 2; 3])
           0 Synthesis 0
           (synthesisRequest [] (lit "hi") [Some (lit "a"); None; None; None])).
  apply (list_elem_of_lookup_2 _ 16). reflexivity.
Defined.

Lemma step_requests_alternate (st : AppState) (inp : Input)
    (r : nat) (s : Stage) (i : nat) (req : GenerateContentParameters) :
  coherent st → Issued r s i req ∈ (step st inp).2 →
  alternates (contents req) ∧
  ∃ h q suffix, contents req = h ++ [userTurn (q ++ suffix)] ∧
                Nat.even (length h) = true.
Proof.
  intros (Hex & Halt & Hlen & Hsnap) He.
  destruct inp as [q ai|r0 k o]; simpl in He.
  - destruct (isLoading st) eqn:Hl; [by apply elem_of_nil in He|].
    destruct (truthy (trim q)) eqn:Hq;
      [|rewrite (handleSubmit_blank _ _ _ Hq) in He; by apply elem_of_nil in He].
    destruct ai;
      [|rewrite (handleSubmit_throws _ _ Hq) in He; by apply elem_of_nil in He].
    rewrite (handleSubmit_accept _ _ Hq) in He. simpl in He.
    apply (elem_of_imap_Issued _ _ _ _ _ _ (replicate 4 _)) in He as (_ & -> & He).
    apply lookup_replicate in He as [-> Hi]. simpl. split.
    + apply alternates_snoc; [done|]. by rewrite Hlen.
    + exists (messages st), q, []. rewrite (right_id_L [] (++)).
      by split.
  - pose proof (settle_events_run _ _ _ _ _ He) as Hrun. simpl in Hrun. subst r0.
    destruct (runs st !! r) as [run|] eqn:Hr;
      [|unfold settle in He; rewrite Hr in He; by apply elem_of_nil in He].
    destruct (closure run) as [[q h]|] eqn:Hc;
      [|destruct run; try done; unfold settle in He; rewrite Hr in He;
        by apply elem_of_nil in He].
    pose proof (Hsnap _ _ _ _ Hr Hc) as Hms.
    destruct Hex as [Hlive _].
    destruct (Hlive _ _ Hr (closure_live _ _ _ Hc)) as [Hl _].
    rewrite Hms, Hl, length_app in Hlen. simpl in Hlen.
    rewrite Nat.add_1_r, Nat.even_succ, <- Nat.negb_even in Hlen.
    apply negb_false_iff in Hlen.
    destruct (settle_holds st r k o q h) as [_ Hcar].
    { exists run. split; [done|by right]. }
    destruct (Hcar _ _ _ He) as [suffix Hreq].
    split.
    + rewrite Hreq. rewrite Hms in Halt.
      by eapply alternates_snoc_role.
    + by exists h, q, suffix.
Qed.

(** X6: the contents of every request issued in any execution alternate
    user and model turns, the user's first, and end with a user turn: an
    even number of earlier turns followed by the one turn built for the
    call. *)
Theorem requests_contents_alternate (ins : list Input)
    (r : nat) (s : Stage) (i : nat) (req : GenerateContentParameters) :
  Issued r s i req ∈ (exec init ins).2 →
  (∀ n c, contents req !! n = Some c →
     role c = if Nat.even n then User else Model) ∧
  ∃ h q suffix,
    contents req = h ++ [userTurn (q ++ suffix)] ∧ Nat.even (length h) = true.
Proof.
  intros He.
  apply (exec_events coherent
           (λ e, ∀ r s i req, e = Issued r s i req →
                 alternates (contents req) ∧
                 ∃ h q suffix, contents req = h ++ [userTurn (q ++ suffix)] ∧
                               Nat.even (length h) = true)
           step_coherent) with (e := Issued r s i req) (r := r) (s := s) (i := i) (req := req)
    in He; [done| |apply (reachable_coherent [])|done].
  clear. intros st inp e Hco He r s i req ->. by eapply step_requests_alternate.
Qed.

Lemma requests_contents_alternate_witness :
  let ins := successfulRun 0 (lit "one") [None; None; None; None]
               [None; None; None; None] (Some (lit "answer")) [0; 1; 2; 3] [0; 1; 2; 3]
             ++ [Submit (lit "two") Constructed] in
  let req := initialRequest [userTurn (lit "one"); modelTurn (Some (lit "answer"))]
               (lit "two") in
  (∀ n c, contents req !! n = Some c →
     role c = if Nat.even n then User else Model) ∧
  ∃ h q suffix,
    contents req = h ++ [userTurn (q ++ suffix)] ∧ Nat.even (length h) = true.
Proof.
  apply (requests_contents_alternate
           (successfulRun 0 (lit "one") [None; None; None; None]
              [None; None; None; None] (Some (lit "answer")) [0; 1; 2; 3] [0; 1; 2; 3]
            ++ [Submit (lit "two") Constructed])
           1 Initial 2
           (initialRequest [userTurn (lit "one"); modelTurn (Some (lit "answer"))]
              (lit "two"))).
  apply (list_elem_of_lookup_2 _ 20). reflexivity.
Defined.

(** ** How many requests a run issues *)

Lemma requestsOfRun_app (r : nat) (l1 l2 : list Event) :
  requestsOfRun r (l1 ++ l2) = requestsOfRun r l1 ++ requestsOfRun r l2.
Proof. unfold requestsOfRun. apply omap_app. Qed.

Lemma requestsOfRun_other (r : nat) (evs : list Event) :
  (∀ e, e ∈ evs → evRun e ≠ r) → requestsOfRun r evs = [].
Proof.
  induction evs as [|e evs IH]; intros Hevs; [done|].
  simpl. rewrite IH by (intros e' He'; apply Hevs; by right).
  pose proof (Hevs e (list_elem_of_here _ _)) as He.
  destruct e; simpl in *; [|done]. by destruct (decide (r0 = r)).
Qed.

Lemma requestsOfRun_imap (r : nat) (s : Stage) (l : list GenerateContentParameters) :
  requestsOfRun r (imap (Issued r s) l) = l.
Proof.
  cut (∀ n, requestsOfRun r (imap (λ i, Issued r s (n + i)) l) = l).
  { intros H. apply (H 0). }
  induction l as [|x l IH]; intros n; [done|].
  simpl. destruct (decide (r = r)); [|done]. f_equal.
  rewrite <- (IH (S n)) at 2. unfold requestsOfRun. f_equal.
  apply imap_ext. intros i y _. simpl. f_equal. lia.
Qed.

Lemma requests_inv_frame (r : nat) (st st' : AppState) (l evs : list Event) :
  runs st' !! r = runs st !! r →
  (∀ e, e ∈ evs → evRun e ≠ r) →
  requests_inv r st l → requests_inv r st' (l ++ evs).
Proof.
  intros Hsame Hevs. unfold requests_inv.
  by rewrite Hsame, requestsOfRun_app, (requestsOfRun_other r evs Hevs),
    (right_id_L [] (++)).
Qed.

Lemma settle_requests_inv (r : nat) (st : AppState) (k : nat) (o : Settled)
    (l : list Event) :
  requests_inv r st l →
  requests_inv r (settle st r k o).1 (l ++ (settle st r k o).2).
Proof.
  unfold requests_inv, settle. rewrite !requestsOfRun_app, !length_app.
  destruct (runs st !! r) as [[q h slots|q h ia slots|q h ia ra|]|] eqn:Hr;
    simpl; rewrite ?Hr; try (intros; simpl; lia).
  - assert (r < length (runs st)) as Hlt by (by eapply lookup_lt_Some).
    intros [Hlen Hn].
    destruct (promiseAll slots k o) as [|slots'|texts|] eqn:Hp; simpl;
      rewrite ?Hr, ?list_lookup_insert_eq by done.
    + split; [done|lia].
    + apply promiseAll_Waiting_length in Hp. split; simpl; lia.
    + apply promiseAll_Resolved_length in Hp.
      rewrite requestsOfRun_imap. unfold refinementAgentPromises.
      rewrite length_replicate, !length_imap. split; lia.
    + simpl. lia.
  - assert (r < length (runs st)) as Hlt by (by eapply lookup_lt_Some).
    intros [Hlen Hn].
    destruct (promiseAll slots k o) as [|slots'|texts|] eqn:Hp; simpl;
      rewrite ?Hr, ?list_lookup_insert_eq by done.
    + split; [done|lia].
    + apply promiseAll_Waiting_length in Hp. split; simpl; lia.
    + destruct (decide (r = r)); [|done]. simpl. lia.
    + simpl. lia.
  - assert (r < length (runs st)) as Hlt by (by eapply lookup_lt_Some).
    intros Hn.
    destruct k as [|k]; simpl; [|rewrite Hr; lia].
    destruct o; simpl; rewrite list_lookup_insert_eq by done; lia.
Qed.

Lemma step_requests_inv (r : nat) (st : AppState) (inp : Input) (l : list Event) :
  requests_inv r st l →
  requests_inv r (step st inp).1 (l ++ (step st inp).2).
Proof.
  intros Hinv. destruct inp as [q ai|r' k o].
  - simpl. destruct (isLoading st);
      [simpl; by rewrite (right_id_L [] (++))|].
    destruct (truthy (trim q)) eqn:Hq;
      [|rewrite (handleSubmit_blank _ _ _ Hq); simpl;
        by rewrite (right_id_L [] (++))].
    destruct ai; [|rewrite (handleSubmit_throws _ _ Hq)]; cbn [fst snd].
    2: { destruct (decide (r = length (runs st))) as [->|Hne].
      - unfold requests_inv in *. simpl runs.
        rewrite lookup_ge_None_2 in Hinv by done.
        rewrite lookup_app_r, Nat.sub_diag, (right_id_L [] (++)) by done.
        simpl. by left.
      - apply (requests_inv_frame r st); [|by intros e ?%elem_of_nil|done].
        simpl. destruct (decide (r < length (runs st))).
        + by rewrite lookup_app_l.
        + rewrite !lookup_ge_None_2; [done|lia|].
          rewrite length_app. simpl. lia. }
    rewrite (handleSubmit_accept _ _ Hq). cbn [fst snd].
    destruct (decide (r = length (runs st))) as [->|Hne].
    + unfold requests_inv in *. simpl runs.
      rewrite lookup_ge_None_2 in Hinv by done.
      rewrite lookup_app_r, Nat.sub_diag by done. simpl.
      rewrite requestsOfRun_app, length_app, Hinv. simpl.
      by destruct (decide (length (runs st) = length (runs st))).
    + apply (requests_inv_frame r st); [| |done].
      * simpl. destruct (decide (r < length (runs st))).
        -- by rewrite lookup_app_l.
        -- rewrite !lookup_ge_None_2; [done|lia|].
           rewrite length_app. simpl. lia.
      * intros e (i & req & -> & _)%elem_of_lookup_imap. simpl. lia.
  - destruct (decide (r' = r)) as [->|Hne].
    + by apply settle_requests_inv.
    + apply (requests_inv_frame r st); [| |done].
      * by apply settle_other_run.
      * intros e He%settle_events_run. congruence.
Qed.

Lemma exec_requests_inv (r : nat) (ins : list Input) :
  ∀ st l, requests_inv r st l →
          requests_inv r (exec st ins).1 (l ++ (exec st ins).2).
Proof.
  induction ins as [|inp ins IH]; intros st l Hinv.
  - simpl. by rewrite (right_id_L [] (++)).
  - rewrite exec_cons. cbn [fst snd]. rewrite (assoc_L (++)).
    apply IH. by apply step_requests_inv.
Qed.

(** X7: in every execution a run has issued no request before it starts,
    exactly four while it awaits stage 1, eight while it awaits stage 2
    and nine while it awaits the synthesis; a run that has returned has
    issued none (the client could not be constructed), four, eight or
    nine, so no call is ever repeated. *)
Theorem requests_per_run (ins : list Input) (r : nat) :
  let st := (exec init ins).1 in
  let n := length (requestsOfRun r (exec init ins).2) in
  match runs st !! r with
  | None => n = 0
  | Some (AwaitInitial _ _ _) => n = 4
  | Some (AwaitRefined _ _ _ _) => n = 8
  | Some (AwaitFinal _ _ _ _) => n = 9
  | Some Returned => n = 0 ∨ n = 4 ∨ n = 8 ∨ n = 9
  end.
Proof.
  intros st n.
  assert (requests_inv r init []) as Hinit by done.
  pose proof (exec_requests_inv r ins init [] Hinit) as Hinv.
  unfold requests_inv in Hinv. simpl in Hinv. fold st n in Hinv.
  destruct (runs st !! r) as [[]|]; tauto.
Qed.

(** ** After a run has ended *)

Lemma settle_Returned (st : AppState) (r k : nat) (o : Settled) :
  runs st !! r = Some Returned → settle st r k o = (st, []).
Proof. intros Hr. unfold settle. by rewrite Hr. Qed.

Lemma step_Returned (st : AppState) (inp : Input) (r : nat) :
  runs st !! r = Some Returned →
  runs (step st inp).1 !! r = Some Returned ∧
  ∀ e, e ∈ (step st inp).2 → evRun e ≠ r.
Proof.
  intros Hr.
  assert ((∃ k o, inp = Settle r k o) ∨ ∀ k o, inp ≠ Settle r k o)
    as [(k & o & ->)|Hother].
  { destruct inp as [|r' k o]; [by right|].
    destruct (decide (r' = r)) as [->|Hne]; [left; eauto|].
    right. by intros ? ? [=]. }
  - simpl. rewrite (settle_Returned _ _ _ _ Hr). split; [done|].
    by intros e ?%elem_of_nil.
  - destruct (step_other_run st inp r) as [Hsame Hev]; [by eapply lookup_lt_Some|done|].
    by rewrite Hsame.
Qed.

(** A terminal event of run [r] in the events of a step is their last
    event, and leaves the run returned. *)
Lemma step_terminal (st : AppState) (inp : Input) (r m : nat) (e : Event) :
  (step st inp).2 !! m = Some e → terminal r e →
  S m = length (step st inp).2 ∧ runs (step st inp).1 !! r = Some Returned.
Proof.
  destruct inp as [q ai|r0 k o]; simpl.
  - destruct (isLoading st); [done|].
    destruct (truthy (trim q)) eqn:Hq;
      [|by rewrite (handleSubmit_blank _ _ _ Hq)].
    destruct ai; [|by rewrite (handleSubmit_throws _ _ Hq)].
    rewrite (handleSubmit_accept _ _ Hq). cbn [fst snd].
    intros Hm%list_elem_of_lookup_2.
    by apply elem_of_lookup_imap in Hm as (? & ? & -> & _).
  - unfold settle.
    destruct (runs st !! r0) as [[q h slots|q h ia slots|q h ia ra|]|] eqn:Hr;
      try done.
    + assert (r0 < length (runs st)) as Hlt by (by eapply lookup_lt_Some).
      destruct (promiseAll slots k o) as [|slots'|texts|] eqn:Hp; simpl; try done.
      * apply promiseAll_Waiting_inv in Hp as (t & -> & _).
        destruct m; [|done]. intros [= <-] [_ [|]]; done.
      * apply promiseAll_Resolved_inv in Hp as (t & -> & _).
        destruct m; [intros [= <-] [_ [|]]; done|].
        simpl. intros Hm%list_elem_of_lookup_2.
        by apply elem_of_lookup_imap in Hm as (? & ? & -> & _).
      * destruct m; [|done]. intros [= <-] [-> _].
        by rewrite list_lookup_insert_eq.
    + assert (r0 < length (runs st)) as Hlt by (by eapply lookup_lt_Some).
      destruct (promiseAll slots k o) as [|slots'|texts|] eqn:Hp; simpl; try done.
      * apply promiseAll_Waiting_inv in Hp as (t & -> & _).
        destruct m; [|done]. intros [= <-] [_ [|]]; done.
      * apply promiseAll_Resolved_inv in Hp as (t & -> & _).
        destruct m as [|[|m]]; [intros [= <-] [_ [|]]; done| |done].
        by intros [= <-].
      * destruct m; [|done]. intros [= <-] [-> _].
        by rewrite list_lookup_insert_eq.
    + assert (r0 < length (runs st)) as Hlt by (by eapply lookup_lt_Some).
      destruct k; [|done].
      destruct o; simpl; (destruct m; [|done]); intros [= <-] [-> _];
        by rewrite list_lookup_insert_eq.
Qed.

Lemma step_terminal_inv (r : nat) (st : AppState) (inp : Input) (l : list Event) :
  terminal_inv r st l →
  terminal_inv r (step st inp).1 (l ++ (step st inp).2).
Proof.
  intros [Hst Hclosed].
  assert (∀ e, e ∈ (step st inp).2 → terminal r e →
          runs (step st inp).1 !! r = Some Returned) as Hnew.
  { intros e (m & Hm)%list_elem_of_lookup_1 Ht.
    by destruct (step_terminal _ _ _ _ _ Hm Ht). }
  split.
  - destruct Hst as [Hret|Hnone].
    + left. by apply step_Returned.
    + assert (runs (step st inp).1 !! r = Some Returned ∨
              runs (step st inp).1 !! r ≠ Some Returned) as [|Hlive].
      { destruct (runs (step st inp).1 !! r) as [[]|]; (by left) || (by right). }
      { by left. }
      right.
      intros e [He|He]%elem_of_app Ht; [by apply (Hnone e)|].
      by apply Hlive, (Hnew e).
  - intros n e [Hn|[Hge Hn]]%lookup_app_Some Ht e'.
    + rewrite drop_app_le by (apply lookup_lt_Some in Hn; lia).
      intros [He'|He']%elem_of_app; [by eapply Hclosed|].
      destruct Hst as [Hret|Hnone].
      * by apply (step_Returned st inp r Hret).
      * destruct (Hnone e); [by eapply list_elem_of_lookup_2|done].
    + destruct (step_terminal _ _ _ _ _ Hn Ht) as [Hlast _].
      rewrite drop_ge; [by intros ?%elem_of_nil|].
      rewrite length_app. lia.
Qed.

Lemma exec_terminal_inv (r : nat) (ins : list Input) :
  ∀ st l, terminal_inv r st l →
          terminal_inv r (exec st ins).1 (l ++ (exec st ins).2).
Proof.
  induction ins as [|inp ins IH]; intros st l Hinv.
  - simpl. by rewrite (right_id_L [] (++)).
  - rewrite exec_cons. cbn [fst snd]. rewrite (assoc_L (++)).
    apply IH. by apply step_terminal_inv.
Qed.

(** X8: in the log of any execution, once a run has observed a failed call
    or the settlement of its synthesis call, nothing more is logged for
    that run: the results of its other calls are discarded and it issues
    no further request; the run has returned. *)
Theorem nothing_after_run_end (ins : list Input) (r n : nat) (s : Stage)
    (k : nat) (o : Settled) :
  (exec init ins).2 !! n = Some (Completed r s k o) →
  o = Rejects ∨ s = Synthesis →
  (∀ e, e ∈ drop (S n) (exec init ins).2 → evRun e ≠ r) ∧
  runs (exec init ins).1 !! r = Some Returned.
Proof.
  intros Hn Ho.
  assert (terminal_inv r init []) as Hinit.
  { split; [right; by intros e ?%elem_of_nil|]. by intros ? ? ?. }
  destruct (exec_terminal_inv r ins init [] Hinit) as [Hst Hclosed].
  simpl in Hst, Hclosed. split.
  - by apply (Hclosed n (Completed r s k o)).
  - destruct Hst as [|Hnone]; [done|].
    destruct (Hnone (Completed r s k o)); [by eapply list_elem_of_lookup_2|done].
Qed.

Lemma nothing_after_run_end_witness :
  let ins := [Submit (lit "hi") Constructed; Settle 0 2 Rejects;
              Settle 0 0 (Fulfils (Some (lit "late"))); Settle 0 1 Rejects] in
  (∀ e, e ∈ drop 5 (exec init ins).2 → evRun e ≠ 0) ∧
  runs (exec init ins).1 !! 0 = Some Returned.
Proof.
  apply (nothing_after_run_end
           [Submit (lit "hi") Constructed; Settle 0 2 Rejects;
            Settle 0 0 (Fulfils (Some (lit "late"))); Settle 0 1 Rejects]
           0 4 Initial 2 Rejects); [reflexivity|by left].
Defined.

(** ** A run in progress always awaits a call *)

Lemma values_None_pending (slots : list Slot) :
  values slots = None → ∃ k, slots !! k = Some Pending.
Proof.
  induction slots as [|[|t] slots IH]; simpl; [done|by exists 0|].
  destruct (values slots); [done|]. intros _.
  destruct (IH eq_refl) as [k Hk]. by exists (S k).
Qed.

Lemma settle_hasPending (st : AppState) (r k : nat) (o : Settled) :
  Forall hasPending (runs st) → Forall hasPending (runs (settle st r k o).1).
Proof.
  intros Hall. unfold settle.
  destruct (runs st !! r) as [[q h slots|q h ia slots|q h ia ra|]|] eqn:Hr; try done.
  - destruct (promiseAll slots k o) as [|slots'|texts|] eqn:Hp; simpl; try done;
      apply Forall_insert; try done; simpl.
    + unfold promiseAll in Hp. destruct (slots !! k) as [[|]|]; try done.
      destruct o; [|done]. destruct (values _) eqn:Hv; [done|].
      injection Hp as <-. by apply values_None_pending.
    + pose proof (promiseAll_Resolved_length _ _ _ _ Hp) as Hlen.
      apply promiseAll_Resolved_inv in Hp as (t & _ & Hk & _).
      apply lookup_lt_Some in Hk. exists 0.
      apply lookup_replicate_2. unfold refinementAgentPromises.
      rewrite length_imap. lia.
  - destruct (promiseAll slots k o) as [|slots'|texts|] eqn:Hp; simpl; try done;
      apply Forall_insert; try done; simpl.
    unfold promiseAll in Hp. destruct (slots !! k) as [[|]|]; try done.
    destruct o; [|done]. destruct (values _) eqn:Hv; [done|].
    injection Hp as <-. by apply values_None_pending.
  - destruct k; [|done]. destruct o; simpl; by apply Forall_insert.
Qed.

Lemma step_hasPending (st : AppState) (inp : Input) :
  Forall hasPending (runs st) → Forall hasPending (runs (step st inp).1).
Proof.
  intros Hall. destruct inp as [q ai|r k o]; [|by apply settle_hasPending].
  simpl. destruct (isLoading st); [done|].
  destruct (truthy (trim q)) eqn:Hq.
  - destruct ai.
    + rewrite (handleSubmit_accept _ _ Hq). simpl.
      apply Forall_app. split; [done|]. constructor; [|done]. by exists 0.
    + rewrite (handleSubmit_throws _ _ Hq). simpl.
      apply Forall_app. split; [done|]. by constructor.
  - by rewrite (handleSubmit_blank _ _ _ Hq).
Qed.

Lemma settle_awaiting (st : AppState) (r k : nat) (stage : Stage) (o : Settled) :
  awaiting st r k = Some stage →
  ∃ evs, (settle st r k o).2 = Completed r stage k o :: evs.
Proof.
  unfold awaiting, settle, promiseAll.
  destruct (runs st !! r) as [[q h slots|q h ia slots|q h ia ra|]|]; try done.
  - destruct (slots !! k) as [[|]|]; try done. intros [= <-].
    destruct o; [destruct (values _)|]; by eexists.
  - destruct (slots !! k) as [[|]|]; try done. intros [= <-].
    destruct o; [destruct (values _)|]; by eexists.
  - destruct k; [|done]. intros [= <-]. destruct o; by eexists.
Qed.

(** X9: in every reachable state in which the form is disabled, the live
    run is awaiting at least one call, and the settlement of such a call,
    fulfilled or failed, is observed by the handler: the component is
    never left loading with nothing to wait for. *)
Theorem loading_awaits_a_call (ins : list Input) :
  let st := (exec init ins).1 in
  isLoading st = true →
  ∃ r k stage,
    awaiting st r k = Some stage ∧
    ∀ o, ∃ evs, (step st (Settle r k o)).2 = Completed r stage k o :: evs.
Proof.
  intros st Hl.
  destruct (reachable_exclusive ins) as [_ Hload]. fold st in Hload.
  destruct (Hload Hl) as (run & Hlast & Hlive).
  rewrite last_lookup in Hlast.
  assert (Forall hasPending (runs st)) as Hall.
  { apply (exec_invariant (λ st, Forall hasPending (runs st)) step_hasPending).
    constructor. }
  pose proof (Forall_lookup_1 _ _ _ _ Hall Hlast) as Hpend.
  assert (∃ k stage, awaiting st (pred (length (runs st))) k = Some stage)
    as (k & stage & Ha).
  { unfold awaiting. rewrite Hlast.
    destruct run as [q h slots|q h ia slots|q h ia ra|]; simpl in *.
    - destruct Hpend as [k Hk]. exists k, Initial. by rewrite Hk.
    - destruct Hpend as [k Hk]. exists k, Refinement. by rewrite Hk.
    - by exists 0, Synthesis.
    - done. }
  exists (pred (length (runs st))), k, stage. split; [done|].
  intros o. by apply settle_awaiting.
Qed.

Lemma loading_awaits_a_call_witness :
  let st := (exec init [Submit (lit "hi") Constructed; Settle 0 0 (Fulfils None)]).1 in
  ∃ r k stage,
    awaiting st r k = Some stage ∧
    ∀ o, ∃ evs, (step st (Settle r k o)).2 = Completed r stage k o :: evs.
Proof.
  apply (loading_awaits_a_call [Submit (lit "hi") Constructed; Settle 0 0 (Fulfils None)]).
  reflexivity.
Defined.

(** ** Completion order *)

(** X10: [Promise.all] keeps results by index: whatever the order in which
    the calls of each fan-out complete, a run in which every call is
    fulfilled reaches the same state and issues the same requests, call by
    call, in each of the three stages. *)
Theorem completion_order_irrelevant (st : AppState) (q : jsstring)
    (initial refined : list (option jsstring)) (final : option jsstring)
    (p1 p2 p1' p2' : list nat) :
  isLoading st = false → truthy (trim q) = true →
  length initial = 4 → length refined = 4 →
  p1 ≡ₚ seq 0 4 → p2 ≡ₚ seq 0 4 → p1' ≡ₚ seq 0 4 → p2' ≡ₚ seq 0 4 →
  let r := length (runs st) in
  (exec st (successfulRun r q initial refined final p1 p2)).1 =
    (exec st (successfulRun r q initial refined final p1' p2')).1 ∧
  ∀ s, issuedAt s (exec st (successfulRun r q initial refined final p1 p2)).2 =
       issuedAt s (exec st (successfulRun r q initial refined final p1' p2')).2.
Proof.
  intros Hl Hq Hi Hr Hp1 Hp2 Hp1' Hp2' r. split.
  - subst r. by rewrite !exec_successfulRun.
  - intros s.
    destruct (successfulRun_requests st q initial refined final p1 p2)
      as (H1 & H2 & H3); try done.
    destruct (successfulRun_requests st q initial refined final p1' p2')
      as (H1' & H2' & H3'); try done.
    subst r. simpl in *. destruct s; congruence.
Qed.

Lemma completion_order_irrelevant_witness :
  let q := lit "hi" in
  let initial := [Some (lit "a"); Some (lit "b"); Some (lit "c"); Some (lit "d")] in
  let refined := [Some (lit "A"); Some (lit "B"); Some (lit "C"); Some (lit "D")] in
  let final := Some (lit "S") in
  (exec init (successfulRun 0 q initial refined final [3; 1; 0; 2] [2; 3; 1; 0])).1 =
    (exec init (successfulRun 0 q initial refined final [0; 1; 2; 3] [1; 0; 3; 2])).1 ∧
  ∀ s, issuedAt s (exec init (successfulRun 0 q initial refined final [3; 1; 0; 2] [2; 3; 1; 0])).2 =
       issuedAt s (exec init (successfulRun 0 q initial refined final [0; 1; 2; 3] [1; 0; 3; 2])).2.
Proof.
  apply (completion_order_irrelevant init (lit "hi")
           [Some (lit "a"); Some (lit "b"); Some (lit "c"); Some (lit "d")]
           [Some (lit "A"); Some (lit "B"); Some (lit "C"); Some (lit "D")]
           (Some (lit "S")) [3; 1; 0; 2] [2; 3; 1; 0] [0; 1; 2; 3] [1; 0; 3; 2]);
    try reflexivity; apply (bool_decide_unpack _); vm_compute; exact I.
Defined.

(** ** The loading status *)

Lemma status_keep (st : AppState) (r : nat) (run run' : Run) (s : jsstring) :
  status_inv st → runs st !! r = Some run → isLive run = true →
  isLive run' = true → s = statusOf run' →
  status_inv {| messages := messages st; isLoading := isLoading st;
                loadingStatus := s; runs := <[r := run']> (runs st) |}.
Proof.
  intros [Hex Hst] Hr Hlive Hlive' ->.
  split; [by eapply exclusive_keep|]. simpl.
  intros r0 run0 H0 Hlive0.
  destruct (decide (r0 = r)) as [->|Hne].
  - rewrite list_lookup_insert_eq in H0 by (by eapply lookup_lt_Some).
    by injection H0 as <-.
  - rewrite list_lookup_insert_ne in H0 by done.
    destruct Hex as [Hlast _].
    destruct (Hlast _ _ Hr Hlive). destruct (Hlast _ _ H0 Hlive0). lia.
Qed.

Lemma status_return (st : AppState) (r : nat) (run : Run) (ms : list Message) :
  status_inv st → runs st !! r = Some run → isLive run = true →
  status_inv {| messages := ms; isLoading := false;
                loadingStatus := loadingStatus st;
                runs := <[r := Returned]> (runs st) |}.
Proof.
  intros [Hex Hst] Hr Hlive.
  split; [by eapply exclusive_return|]. simpl.
  intros r0 run0 H0 Hlive0.
  destruct (decide (r0 = r)) as [->|Hne].
  - rewrite list_lookup_insert_eq in H0 by (by eapply lookup_lt_Some).
    by injection H0 as <-.
  - rewrite list_lookup_insert_ne in H0 by done.
    destruct Hex as [Hlast _].
    destruct (Hlast _ _ Hr Hlive). destruct (Hlast _ _ H0 Hlive0). lia.
Qed.

Lemma settle_status (st : AppState) (r k : nat) (o : Settled) :
  status_inv st → status_inv (settle st r k o).1.
Proof.
  intros Hinv. unfold settle.
  destruct (runs st !! r) as [[q h slots|q h ia slots|q h ia ra|]|] eqn:Hr; try done.
  - pose proof (proj2 Hinv _ _ Hr eq_refl) as Hs.
    destruct (promiseAll slots k o); simpl; try done.
    + by apply (status_keep st r (AwaitInitial q h slots)).
    + by apply (status_keep st r (AwaitInitial q h slots)).
    + by apply (status_return st r (AwaitInitial q h slots)).
  - pose proof (proj2 Hinv _ _ Hr eq_refl) as Hs.
    destruct (promiseAll slots k o); simpl; try done.
    + by apply (status_keep st r (AwaitRefined q h ia slots)).
    + by apply (status_keep st r (AwaitRefined q h ia slots)).
    + by apply (status_return st r (AwaitRefined q h ia slots)).
  - destruct k; [|done].
    destruct o; simpl; by apply (status_return st r (AwaitFinal q h ia ra)).
Qed.

Lemma step_status (st : AppState) (inp : Input) :
  status_inv st → status_inv (step st inp).1.
Proof.
  intros Hinv. destruct inp as [q ai|r k o]; [|by apply settle_status].
  pose proof (step_exclusive st (Submit q ai) (proj1 Hinv)) as Hex.
  split; [done|]. clear Hex. simpl.
  destruct (isLoading st) eqn:Hl; [by apply Hinv|].
  destruct (truthy (trim q)) eqn:Hq;
    [|rewrite (handleSubmit_blank _ _ _ Hq); by apply Hinv].
  destruct ai;
    [rewrite (handleSubmit_accept _ _ Hq)|rewrite (handleSubmit_throws _ _ Hq)];
    simpl; intros r run Hr Hlive;
    apply lookup_app_Some in Hr as [Hr|[_ Hr]].
  - destruct Hinv as [[Hlast _] _]. destruct (Hlast _ _ Hr Hlive). congruence.
  - by apply list_lookup_singleton_Some in Hr as [_ <-].
  - destruct Hinv as [[Hlast _] _]. destruct (Hlast _ _ Hr Hlive). congruence.
  - apply list_lookup_singleton_Some in Hr as [_ <-]. done.
Qed.

(** X11: in every reachable state the status shown while a run is in
    progress is the one of the stage the run is awaiting: "Initializing
    agents..." in stage 1, "Refining answers..." in stage 2 and
    "Synthesizing final response..." during the synthesis; so the progress
    bars carry the class "initial" during stage 1 and "refining"
    afterwards. *)
Theorem status_follows_stage (ins : list Input) (r : nat) (run : Run) :
  let st := (exec init ins).1 in
  runs st !! r = Some run → isLive run = true →
  loadingStatus st =
    match run with
    | AwaitInitial _ _ _ => lit "Initializing agents..."
    | AwaitRefined _ _ _ _ => lit "Refining answers..."
    | _ => lit "Synthesizing final response..."
    end ∧
  progressBarsClassName (loadingStatus st) =
    lit "progress-bars-container " ++
    match run with
    | AwaitInitial _ _ _ => lit "initial"
    | _ => lit "refining"
    end.
Proof.
  intros st Hr Hlive.
  assert (status_inv st) as [_ Hst].
  { apply (exec_invariant status_inv step_status). split.
    - split; [|done]. intros r0 run0 H0. by destruct r0.
    - intros r0 run0 H0. by destruct r0. }
  rewrite (Hst r run Hr Hlive). by destruct run.
Qed.

Lemma status_follows_stage_witness :
  let ins := [Submit (lit "hi") Constructed;
              Settle 0 0 (Fulfils None); Settle 0 1 (Fulfils None);
              Settle 0 2 (Fulfils None); Settle 0 3 (Fulfils None)] in
  let st := (exec init ins).1 in
  loadingStatus st = lit "Refining answers..." ∧
  progressBarsClassName (loadingStatus st) =
    lit "progress-bars-container " ++ lit "refining".
Proof.
  apply (status_follows_stage
           [Submit (lit "hi") Constructed;
            Settle 0 0 (Fulfils None); Settle 0 1 (Fulfils None);
            Settle 0 2 (Fulfils None); Settle 0 3 (Fulfils None)]
           0 (AwaitRefined (lit "hi") [] [None; None; None; None]
                [Pending; Pending; Pending; Pending]));
    reflexivity.
Defined.

(** ** The elapsed-time counter *)

Lemma screenExec_cons (sc : Screen) (i : ScreenInput) (ins : list ScreenInput) :
  screenExec sc (i :: ins) =
    ((screenExec (screenStep sc i).1 ins).1,
     (screenStep sc i).2 ++ (screenExec (screenStep sc i).1 ins).2).
Proof.
  simpl. destruct (screenStep sc i) as [sc1 evs]. simpl.
  by destruct (screenExec sc1 ins).
Qed.

Lemma screenStep_app (sc : Screen) (i : ScreenInput) :
  app (screenStep sc i).1 =
    match i with
    | AppInput inp => (step (app sc) inp).1
    | IntervalFires => app sc
    end.
Proof. destruct i as [inp|]; simpl; [|done]. by destruct (step (app sc) inp). Qed.

Lemma screenStep_timer_idle (sc : Screen) (i : ScreenInput) :
  (isLoading (app sc) = false → timer sc = 0) →
  isLoading (app (screenStep sc i).1) = false → timer (screenStep sc i).1 = 0.
Proof.
  intros Hidle. destruct i as [inp|]; simpl.
  - destruct (step (app sc) inp) as [a evs] eqn:Hstep. simpl. intros Ha.
    unfold timerEffect. rewrite Ha.
    destruct (isLoading (app sc)); simpl; [done|]. by apply Hidle.
  - intros Hl. rewrite Hl. by apply Hidle.
Qed.

Lemma screenExec_idle (ins : list ScreenInput) :
  ∀ sc, (isLoading (app sc) = false → timer sc = 0) →
  (isLoading (app (screenExec sc ins).1) = false → timer (screenExec sc ins).1 = 0) ∧
  app (screenExec sc ins).1 = (exec (app sc) (appInputs ins)).1 ∧
  (screenExec sc ins).2 = (exec (app sc) (appInputs ins)).2.
Proof.
  induction ins as [|i ins IH]; intros sc Hidle; [done|].
  rewrite screenExec_cons. cbn [fst snd].
  destruct (IH (screenStep sc i).1 (screenStep_timer_idle sc i Hidle))
    as (Ht & Happ & Hevs).
  split; [done|]. rewrite Happ, Hevs, screenStep_app.
  destruct i as [inp|]; simpl; [|done].
  destruct (step (app sc) inp) as [a evs]. simpl.
  by destruct (exec a (appInputs ins)).
Qed.

(** X12: the elapsed-time counter is zero whenever no run is in progress,
    and it has no effect on the pipeline: the component state and the
    requests are those of the same inputs with the interval ticks left
    out. *)
Theorem timer_is_cosmetic (ins : list ScreenInput) :
  let sc := (screenExec initScreen ins).1 in
  (isLoading (app sc) = false → timer sc = 0) ∧
  app sc = (exec init (appInputs ins)).1 ∧
  (screenExec initScreen ins).2 = (exec init (appInputs ins)).2.
Proof. intros sc. by apply (screenExec_idle ins initScreen). Qed.

Lemma settle_isLoading (st : AppState) (r k : nat) (o : Settled) :
  isLoading (settle st r k o).1 = true → isLoading st = true.
Proof.
  unfold settle.
  destruct (runs st !! r) as [[q h slots|q h ia slots|q h ia ra|]|]; try done.
  - by destruct (promiseAll slots k o).
  - by destruct (promiseAll slots k o).
  - destruct k; [|done]. by destruct o.
Qed.

Lemma screenExec_elapsed (post : list ScreenInput) :
  ∀ sc, Forall notSubmit post →
  isLoading (app (screenExec sc post).1) = true →
  isLoading (app sc) = true ∧
  timer (screenExec sc post).1 = timer sc + 100 * ticks post.
Proof.
  induction post as [|i post IH]; intros sc Hpost Hl.
  - simpl in *. split; [done|lia].
  - apply Forall_cons in Hpost as [Hi Hpost].
    rewrite screenExec_cons in *. cbn [fst] in *.
    destruct (IH _ Hpost Hl) as [Hl1 Ht]. rewrite Ht.
    destruct i as [[q ai|r k o]|]; simpl in *; [done| |].
    + destruct (settle (app sc) r k o) as [a evs] eqn:Hs. simpl in *.
      assert (isLoading (app sc) = true) as Hl0.
      { apply (settle_isLoading _ r k o). by rewrite Hs. }
      split; [done|]. unfold timerEffect. by rewrite Hl0, Hl1.
    + split; [done|]. rewrite Hl1. lia.
Qed.

(** X13: when a submission is accepted and no other submission follows,
    then as long as the run is in progress the counter shows 100 ms for
    every tick of the interval since the submission, whatever settlements
    arrived in between. *)
Theorem timer_counts_ticks (pre : list ScreenInput) (q : jsstring) (ai : NewClient)
    (post : list ScreenInput) :
  let sc0 := (screenExec initScreen pre).1 in
  let sc := (screenExec sc0 (AppInput (Submit q ai) :: post)).1 in
  isLoading (app sc0) = false → truthy (trim q) = true →
  Forall notSubmit post →
  isLoading (app sc) = true →
  timer sc = 100 * ticks post.
Proof.
  intros sc0 sc Hl0 Hq Hpost Hl. subst sc.
  destruct (timer_is_cosmetic pre) as (Hzero & _). fold sc0 in Hzero.
  rewrite screenExec_cons in *. cbn [fst] in *.
  destruct (screenExec_elapsed post _ Hpost Hl) as [_ ->].
  assert (timer (screenStep sc0 (AppInput (Submit q ai))).1 = 0) as ->; [|done].
  cbn [screenStep step]. rewrite Hl0.
  destruct ai;
    [rewrite (handleSubmit_accept _ _ Hq)|rewrite (handleSubmit_throws _ _ Hq)];
    cbn [fst timer isLoading]; unfold timerEffect; simpl; by apply Hzero.
Qed.

Lemma timer_counts_ticks_witness :
  let pre := [IntervalFires; AppInput (Submit (lit "one") Constructed); IntervalFires;
              AppInput (Settle 0 1 Rejects); IntervalFires] in
  let post := [IntervalFires; AppInput (Settle 1 2 (Fulfils None));
               IntervalFires; IntervalFires] in
  let sc0 := (screenExec initScreen pre).1 in
  let sc := (screenExec sc0 (AppInput (Submit (lit "two") Constructed) :: post)).1 in
  timer sc = 100 * ticks post.
Proof.
  apply (timer_counts_ticks
           [IntervalFires; AppInput (Submit (lit "one") Constructed); IntervalFires;
            AppInput (Settle 0 1 Rejects); IntervalFires]
           (lit "two") Constructed
           [IntervalFires; AppInput (Settle 1 2 (Fulfils None));
            IntervalFires; IntervalFires]);
    try reflexivity.
  repeat constructor.
Defined.

(** ** [CodeBlock] *)

(** X14: the text copied from a code block is the code without its final
    newline: exactly one trailing newline is removed, and a text that does
    not end with a newline is copied unchanged. *)
Theorem text_to_copy_drops_final_newline (s : jsstring) :
  textToCopy (Some (s ++ nl)) = s ∧
  (last s ≠ Some 10%N → textToCopy (Some s) = s).
Proof.
  unfold textToCopy, replaceFinalNewline, nl. simpl. split.
  - rewrite reverse_snoc. simpl. apply reverse_involutive.
  - destruct s as [|c s _] using rev_ind; [done|].
    rewrite last_snoc, reverse_snoc. intros Hc.
    destruct (N.eqb_spec c 10) as [->|]; done.
Qed.

Lemma handleCopy_invariant (ins : list CodeBlockInput) :
  let st := foldl handleCopy codeBlockInit ins in
  copied st = true → 0 < pendingResets st.
Proof.
  induction ins as [|i ins IH] using rev_ind; [done|].
  rewrite foldl_app. simpl. simpl in IH.
  destruct i; simpl; [lia|done|].
  destruct (pendingResets (foldl handleCopy codeBlockInit ins)) eqn:E; [|done].
  rewrite E. done.
Qed.

Lemma handleCopy_fire_all (n : nat) :
  ∀ st, pendingResets st = n → (copied st = true → 0 < n) →
  foldl handleCopy st (replicate n TimeoutFires) = codeBlockInit.
Proof.
  induction n as [|n IH]; intros [c p] Hp Hc; simpl in *; subst p.
  - destruct c; [|done]. specialize (Hc eq_refl). lia.
  - by apply IH.
Qed.

(** X15: in every state the copy button can reach, "Copied!" is shown only
    while a reset is still scheduled, and once all scheduled resets have
    run the button shows "Copy" again; a failed write changes nothing. *)
Theorem copied_label_resets (ins : list CodeBlockInput) :
  let st := foldl handleCopy codeBlockInit ins in
  (buttonLabel st = lit "Copied!" → 0 < pendingResets st) ∧
  buttonLabel (foldl handleCopy st (replicate (pendingResets st) TimeoutFires)) =
    lit "Copy" ∧
  handleCopy st WriteFails = st.
Proof.
  intros st. pose proof (handleCopy_invariant ins) as Hinv. fold st in Hinv.
  repeat split.
  - unfold buttonLabel. destruct (copied st) eqn:E; [intros _; by apply Hinv|].
    intros H. vm_compute in H. discriminate H.
  - by rewrite (handleCopy_fire_all (pendingResets st) st).
Qed.

(** ** The history only grows *)

Lemma step_appends (st : AppState) (inp : Input) :
  ∃ new, messages (step st inp).1 = messages st ++ new ∧
         length new ≤ match inp with Submit _ Throws => 2 | _ => 1 end.
Proof.
  assert (∀ n, ∃ new, messages st = messages st ++ new ∧ length new ≤ S n) as Hsame.
  { intros n. exists []. rewrite (right_id_L [] (++)). split; [done|simpl; lia]. }
  assert (∀ m, ∃ new, messages st ++ [m] = messages st ++ new ∧ length new ≤ 1)
    as Hone.
  { intros m. exists [m]. split; [done|simpl; lia]. }
  destruct inp as [q ai|r k o]; simpl.
  - destruct (isLoading st); [destruct ai; apply Hsame|].
    destruct (truthy (trim q)) eqn:Hq;
      [|rewrite (handleSubmit_blank _ _ _ Hq); destruct ai; apply Hsame].
    destruct ai.
    + rewrite (handleSubmit_accept _ _ Hq). apply Hone.
    + rewrite (handleSubmit_throws _ _ Hq). by eexists.
  - unfold settle.
    destruct (runs st !! r) as [[q h slots|q h ia slots|q h ia ra|]|];
      try apply Hsame.
    + destruct (promiseAll slots k o); simpl; try apply Hsame; apply Hone.
    + destruct (promiseAll slots k o); simpl; try apply Hsame; apply Hone.
    + destruct k; [|apply Hsame]. destruct o; simpl; apply Hone.
Qed.

Lemma history_growth_bound (st : AppState) (ins : list Input) :
  ∃ new,
    messages (exec st ins).1 = messages st ++ new ∧
    length new ≤ sum_list (maxAppended <$> ins).
Proof.
  revert st. induction ins as [|inp ins IH]; intros st.
  - exists []. by rewrite (right_id_L [] (++)).
  - rewrite exec_cons. cbn [fst].
    destruct (step_appends st inp) as (new1 & H1 & Hlen1).
    destruct (IH (step st inp).1) as (new2 & H2 & Hlen2).
    exists (new1 ++ new2). rewrite H2, H1, (assoc_L (++)).
    split; [done|]. rewrite length_app. csimpl. unfold maxAppended at 1. lia.
Qed.

Lemma maxAppended_bound (ins : list Input) :
  sum_list (maxAppended <$> ins) ≤ 2 * length ins.
Proof.
  induction ins as [|[q [|]|] ins IH]; csimpl; lia.
Qed.

(** X16: the history is append-only: whatever the state and whatever
    happens next, the turns already in the history stay where they are,
    unchanged; a step appends at most one turn, except a submission for
    which the client cannot be constructed, which appends at most two, the
    query and the failure notice. *)
Theorem history_append_only (st : AppState) (ins : list Input) :
  ∃ new,
    messages (exec st ins).1 = messages st ++ new ∧
    length new ≤ sum_list (maxAppended <$> ins) ∧
    length new ≤ 2 * length ins.
Proof.
  destruct (history_growth_bound st ins) as (new & Hnew & Hlen).
  exists new. repeat split; [done..|].
  pose proof (maxAppended_bound ins). lia.
Qed.

(** ** One reply per accepted query *)

Lemma settle_paired (st : AppState) (r k : nat) (o : Settled) :
  paired st → paired (settle st r k o).1.
Proof.
  intros [Hex Hlen]. split; [by apply settle_exclusive|].
  unfold settle.
  destruct (runs st !! r) as [[q h slots|q h ia slots|q h ia ra|]|] eqn:Hr;
    try done;
    destruct Hex as [Hlive _];
    destruct (Hlive _ _ Hr eq_refl) as [Hl _]; rewrite Hl in Hlen.
  - destruct (promiseAll slots k o); simpl;
      rewrite ?Hl, ?length_insert, ?length_app; simpl; lia.
  - destruct (promiseAll slots k o); simpl;
      rewrite ?Hl, ?length_insert, ?length_app; simpl; lia.
  - destruct k; [|simpl; rewrite Hl; lia].
    destruct o; simpl; rewrite ?length_insert, ?length_app; simpl; lia.
Qed.

Lemma step_paired (st : AppState) (inp : Input) :
  paired st → paired (step st inp).1.
Proof.
  intros Hp. destruct inp as [q ai|r k o]; [|by apply settle_paired].
  destruct Hp as [Hex Hlen].
  split; [by apply (step_exclusive st (Submit q ai))|]. simpl.
  destruct (isLoading st) eqn:Hl; [simpl; by rewrite Hl|].
  destruct (truthy (trim q)) eqn:Hq.
  - destruct ai;
      [rewrite (handleSubmit_accept _ _ Hq)|rewrite (handleSubmit_throws _ _ Hq)];
      simpl; rewrite !length_app; simpl; lia.
  - rewrite (handleSubmit_blank _ _ _ Hq). simpl. rewrite Hl. lia.
Qed.

(** X17: in every reachable state the history holds exactly two turns for
    every invocation that has returned, the query and its reply (the final
    answer or the failure notice), and one turn, the query, for the run in
    progress: an accepted query never goes unanswered and never gets two
    replies. *)
Theorem one_reply_per_query (ins : list Input) :
  let st := (exec init ins).1 in
  length (messages st) =
    2 * length (runs st) - (if isLoading st then 1 else 0).
Proof.
  intros st.
  assert (paired st) as [_ Hlen].
  { apply (exec_invariant paired step_paired). split; [|done].
    split; [|done]. intros r run Hr. by destruct r. }
  destruct (isLoading st); lia.
Qed.

(** ** Failure notices are part of the later prompts *)

(** X18: the history snapshot sent with a request is the whole history,
    replies of failed runs included: once the failure notice is in the
    history, every request of a later run carries it as a model turn. *)
Theorem failure_notice_is_sent_back (st : AppState) (q : jsstring)
    (rest : list Input) (s : Stage) (i : nat) (req : GenerateContentParameters) :
  isLoading st = false → truthy (trim q) = true →
  errorMessage ∈ messages st →
  Issued (length (runs st)) s i req ∈ (exec st (Submit q Constructed :: rest)).2 →
  errorMessage ∈ contents req ∧
  role errorMessage = Model.
Proof.
  intros Hl Hq Herr He. split; [|done].
  assert (carries q (messages st) req) as [suffix ->].
  { revert He. rewrite exec_cons.
    assert (step st (Submit q Constructed) = handleSubmit st q Constructed) as ->
      by (simpl; by rewrite Hl).
    rewrite (handleSubmit_accept _ _ Hq). cbn [fst snd].
    intros [He|He]%elem_of_app.
    - apply elem_of_imap_Issued in He as (_ & _ & He).
      apply lookup_replicate in He as [-> _].
      exists []. simpl. by rewrite (right_id_L [] (++)).
    - revert He. apply exec_holds with (r := length (runs st)).
      eexists. split; [simpl; by rewrite lookup_app_r, Nat.sub_diag|].
      by right. }
  apply elem_of_app. by left.
Qed.

Lemma failure_notice_is_sent_back_witness :
  let st := (exec init [Submit (lit "one") Constructed; Settle 0 0 Rejects]).1 in
  let req := initialRequest [userTurn (lit "one"); errorMessage] (lit "two") in
  errorMessage ∈ contents req ∧ role errorMessage = Model.
Proof.
  apply (failure_notice_is_sent_back
           (exec init [Submit (lit "one") Constructed; Settle 0 0 Rejects]).1
           (lit "two") [] Initial 3
           (initialRequest [userTurn (lit "one"); errorMessage] (lit "two")));
    try reflexivity.
  - apply (list_elem_of_lookup_2 _ 1). reflexivity.
  - apply (list_elem_of_lookup_2 _ 3). reflexivity.
Defined.
